(** * Asterisk router: routing engine, DID pool and load balancer

    A shallow embedding of the Go packages [models], [provider], [loadbalancer],
    [router] and of the hang-up hook of [agi], with the properties of the
    routing core stated and proved over it.

    Conventions of the embedding.
    - A Go [int], [int64] or [time.Duration] is a [Z]; where the code does
      arithmetic on it the 64-bit wrap-around is written out ([wrap64]).
      The clock ([time.Now()]) is an argument of the functions that read it.
    - A Go [float64] is an exact rational ([Q]); rounding is not modelled.
    - A Go [map] is a [gmap]; a [for range] over a map visits the entries in an
      order the language leaves open, so a function that ranges over a map
      takes the visiting order as an argument (a permutation of
      [map_to_list]).
    - A [*models.Provider] is a [ref Provider]: the address of the object
      together with its fields.  Only [roundRobin] looks at the address.
    - The SQL tables the engine reads and writes ([dids], [call_records],
      [call_verifications]) are an in-process store on which every statement
      is executed; a lost connection (the [err != nil] branch of an [Exec])
      is outside the model.  [ORDER BY RAND()] and [rand.Intn] take their
      random draw as an argument.
    - Log lines are not modelled. *)

From Stdlib Require Import ZArith QArith Lia Ascii String.
From stdpp Require Import base gmap strings list fin_maps.

Local Open Scope Z_scope.
Local Open Scope string_scope.
Local Open Scope list_scope.

(** ** Machine integers *)

Definition wrap64 (z : Z) : Z := (z + 2 ^ 63) mod 2 ^ 64 - 2 ^ 63.

Definition max_int64 : Z := 2 ^ 63 - 1.

Definition min_int64 : Z := - 2 ^ 63.

(** An instant ([time.Time]) is a count of nanoseconds.  [t.Sub(u)] is the
    [time.Duration] between two instants; it stops at the ends of the range
    of [int64] instead of wrapping.  [time.Since(u)] is [time.Now().Sub(u)]. *)
Definition Sub (t u : Z) : Z := Z.max min_int64 (Z.min max_int64 (t - u)).

(** ** Package models *)

Module models.

(** A pointer to a Go object: its address and the object it points to. *)
Record ref (A : Type) := Ref { address : Z; deref : A }.
Arguments Ref {A} _ _.
Arguments address {A} _.
Arguments deref {A} _.

(** [Type_] is the field [Type]. *)
Record Provider := mkProvider {
  ID : Z;
  Name : string;
  Type_ : string;            (* "inbound", "intermediate", "final" *)
  Host : string;
  Port : Z;
  Username : string;
  Password : string;
  AuthType : string;         (* "ip", "credentials", "both" *)
  Codecs : list string;
  MaxChannels : Z;
  Priority : Z;
  Weight : Z;
  Active : bool
}.

Record DID := mkDID {
  Number : string;
  ProviderName : string;
  InUse : bool;
  Destination : option string
}.

(** [ID], [Name], [Priority] and [Active] of a route carry the prefix
    [Route] here, the fields of [Provider] having taken the plain names. *)
Record ProviderRoute := mkRoute {
  RouteID : Z;
  RouteName : string;
  InboundProvider : string;
  IntermediateProvider : string;
  FinalProvider : string;
  LoadBalanceMode : string;  (* round_robin, weighted, priority, failover *)
  RoutePriority : Z;
  RouteActive : bool
}.

(** [CallInbound], [CallIntermediate] and [CallFinal] are the fields
    [InboundProvider], [IntermediateProvider] and [FinalProvider] of
    [models.CallRecord]. *)
Record CallRecord := mkCallRecord {
  CallID : string;
  OriginalANI : string;
  OriginalDNIS : string;
  TransformedANI : string;
  AssignedDID : string;
  CallInbound : string;
  CallIntermediate : string;
  CallFinal : string;
  Status : string;
  CurrentStep : string;
  StartTime : Z;
  EndTime : option Z;
  Duration : Z;
  RecordingPath : string
}.

(** [StatsProvider] is the field [ProviderName] of
    [models.LoadBalancerStats]. *)
Record LoadBalancerStats := mkStats {
  StatsProvider : string;
  TotalCalls : Z;
  ActiveCalls : Z;
  FailedCalls : Z;
  SuccessRate : Q;
  AvgCallDuration : Q;
  LastCallTime : Z;
  IsHealthy : bool
}.

(** [RespStatus] is the field [Status] of [models.CallResponse]. *)
Record CallResponse := mkResponse {
  RespStatus : string;
  DIDAssigned : string;
  NextHop : string;
  ANIToSend : string;
  DNISToSend : string
}.

End models.
Import models.

(** ** Errors

    The Go code builds its errors with [fmt.Errorf]; the embedding keeps one
    constructor per call site, with the values the message is built from. *)

Inductive error :=
| ErrNameHostRequired
| ErrProviderNotFound (name : string)
| ErrNoProvidersMatching (pattern : string)
| ErrNoActiveRoute (inbound : string)
| ErrNoRouteForInbound (inbound : string) (cause : error)
| ErrNoProvidersAvailable
| ErrNoHealthyProviders
| ErrNoRows
| ErrNoAvailableDIDs (cause : error)
| ErrNoDIDsForProvider (name : string) (cause : error)
| ErrNoActiveCallForDID (did : string)
| ErrNoCallRecord
| ErrIntermediateNotFound (cause : error)
| ErrFinalNotFound (cause : error)
| ErrIPMismatch (expected got : string)
| ErrUnauthorizedSourceIP (sourceIP : string)
| ErrCallNotFound
| ErrPanic.

Inductive result (A : Type) :=
| Ok (a : A)
| Err (e : error).
Arguments Ok {A} _.
Arguments Err {A} _.

(** ** Package provider: the peer registry and the route table *)

Module provider.

Record Manager := mkManager {
  providers : gmap string (ref Provider);
  providerRoutes : gmap string ProviderRoute
}.

Definition NewManager : Manager :=
  {| providers := ∅; providerRoutes := ∅ |}.

Definition set_Port (p : Provider) (v : Z) : Provider :=
  mkProvider (ID p) (Name p) (Type_ p) (Host p) v (Username p) (Password p)
    (AuthType p) (Codecs p) (MaxChannels p) (Priority p) (Weight p) (Active p).

Definition set_AuthType (p : Provider) (v : string) : Provider :=
  mkProvider (ID p) (Name p) (Type_ p) (Host p) (Port p) (Username p) (Password p)
    v (Codecs p) (MaxChannels p) (Priority p) (Weight p) (Active p).

Definition set_Codecs (p : Provider) (v : list string) : Provider :=
  mkProvider (ID p) (Name p) (Type_ p) (Host p) (Port p) (Username p) (Password p)
    (AuthType p) v (MaxChannels p) (Priority p) (Weight p) (Active p).

Definition set_ID (p : Provider) (v : Z) : Provider :=
  mkProvider v (Name p) (Type_ p) (Host p) (Port p) (Username p) (Password p)
    (AuthType p) (Codecs p) (MaxChannels p) (Priority p) (Weight p) (Active p).

(** [AddProvider].  [p] is the pointer the caller passes; the fields are
    updated through it and the same pointer is stored.  [lastInsertId] is what
    the [INSERT] reports.  The [INSERT] into [providers] and the rows of the
    ARA endpoint are statements on the store: they are executed, so the two
    returns on a store error do not arise. *)
Definition AddProvider (m : Manager) (p : ref Provider) (lastInsertId : Z)
  : Manager * option error :=
  let a := address p in
  let p0 := deref p in
  if bool_decide (Name p0 = "") || bool_decide (Host p0 = "") then
    (m, Some ErrNameHostRequired)
  else
    let p1 := if bool_decide (Port p0 = 0) then set_Port p0 5060 else p0 in
    let p2 :=
      if bool_decide (Username p1 = "") && bool_decide (Password p1 = "")
      then set_AuthType p1 "ip"
      else set_AuthType p1 "credentials" in
    let p3 :=
      if bool_decide (length (Codecs p2) = 0%nat)
      then set_Codecs p2 ["ulaw"; "alaw"] else p2 in
    let p4 := if bool_decide (ID p3 = 0) then set_ID p3 lastInsertId else p3 in
    ({| providers := <[Name p4 := Ref a p4]> (providers m);
        providerRoutes := providerRoutes m |}, None).

Definition GetProvider (m : Manager) (name : string) : result (ref Provider) :=
  match providers m !! name with
  | Some p => Ok p
  | None => Err (ErrProviderNotFound name)
  end.

(** [GetProvidersByName].  [visit] is the order in which the [for range]
    visits the registry. *)
Definition GetProvidersByName (m : Manager) (visit : list (string * ref Provider))
    (namePattern : string) : result (list (ref Provider)) :=
  match providers m !! namePattern with
  | Some p => Ok [p]
  | None =>
      let found :=
        filter (λ kv, bool_decide (kv.1 = namePattern)
                      || bool_decide (Type_ (deref kv.2) = namePattern)) visit in
      if bool_decide (length found = 0%nat)
      then Err (ErrNoProvidersMatching namePattern)
      else Ok (found.*2)
  end.

(** The loop of [GetRouteForInbound]: the state is the pair of [bestRoute]
    ([None] for [nil]) and [highestPriority]. *)
Fixpoint route_scan (visit : list (string * ProviderRoute)) (inboundProvider : string)
    (best : option ProviderRoute) (highest : Z) : option ProviderRoute * Z :=
  match visit with
  | [] => (best, highest)
  | (_, route) :: rest =>
      if bool_decide (InboundProvider route = inboundProvider)
         && RouteActive route
         && bool_decide (RoutePriority route > highest)
      then route_scan rest inboundProvider (Some route) (RoutePriority route)
      else route_scan rest inboundProvider best highest
  end.

(** [GetRouteForInbound], ranging over the route table in the order [visit]. *)
Definition GetRouteForInbound (visit : list (string * ProviderRoute))
    (inboundProvider : string) : result ProviderRoute :=
  match (route_scan visit inboundProvider None (-1)).1 with
  | Some r => Ok r
  | None => Err (ErrNoActiveRoute inboundProvider)
  end.

(** A route that [GetRouteForInbound] may return for [inb]. *)
Definition eligible (inb : string) (r : ProviderRoute) : Prop :=
  InboundProvider r = inb ∧ RouteActive r = true.

(** A visiting order of a map: its entries, each once, in any order. *)
Definition visits {V} (m : gmap string V) (visit : list (string * V)) : Prop :=
  visit ≡ₚ map_to_list m.

End provider.
Import provider.

(** ** Source-address check of the routing engine *)

(** [strings.Split(s, ":")[0]]: the text before the first colon. *)
Fixpoint before_colon (s : string) : string :=
  match s with
  | EmptyString => EmptyString
  | String c rest =>
      if bool_decide (c = ":"%char) then EmptyString
      else String c (before_colon rest)
  end.

Definition verifyProviderIP (p : Provider) (sourceIP : string) : option error :=
  let ip := before_colon sourceIP in
  if bool_decide (AuthType p = "ip") || bool_decide (AuthType p = "both") then
    if bool_decide (Host p ≠ ip) then Some (ErrIPMismatch (Host p) ip) else None
  else None.


(** ** Package loadbalancer *)

Module loadbalancer.

Record LoadBalancer := mkLB {
  providerStats : gmap string LoadBalancerStats;
  roundRobinIndex : gmap (list Z) Z
}.

Definition New : LoadBalancer := mkLB ∅ ∅.

(** The statistics a first use of a peer allocates:
    [&models.LoadBalancerStats{ProviderName: providerName, IsHealthy: true}]. *)
Definition fresh_stats (providerName : string) : LoadBalancerStats :=
  mkStats providerName 0 0 0 0%Q 0%Q 0 true.

Definition filterHealthyProviders (lb : LoadBalancer) (providers : list (ref Provider))
  : list (ref Provider) :=
  filter (λ p,
    Active (deref p) &&
    match providerStats lb !! Name (deref p) with
    | None => true
    | Some stats =>
        IsHealthy stats &&
        (bool_decide (MaxChannels (deref p) = 0)
         || bool_decide (ActiveCalls stats < MaxChannels (deref p)))
    end) providers.

(** [fmt.Sprintf("%v", providers)] on a slice of pointers prints the
    addresses of the elements, in the order of the slice; the key is modelled
    by that list of addresses. *)
Definition slice_key (providers : list (ref Provider)) : list Z :=
  address <$> providers.

Definition set_roundRobinIndex (lb : LoadBalancer) (key : list Z) (v : Z) : LoadBalancer :=
  mkLB (providerStats lb) (<[key := v]> (roundRobinIndex lb)).

(** [roundRobin].  [index % len] is Go's truncated remainder; an index out of
    the slice (or a remainder by zero) panics. *)
Definition roundRobin (lb : LoadBalancer) (providers : list (ref Provider))
  : LoadBalancer * result (ref Provider) :=
  let key := slice_key providers in
  let index := default 0 (roundRobinIndex lb !! key) in
  let i := Z.rem index (Z.of_nat (length providers)) in
  if bool_decide (length providers = 0%nat) || bool_decide (i < 0) then (lb, Err ErrPanic)
  else
    match providers !! Z.to_nat i with
    | Some provider => (set_roundRobinIndex lb key (wrap64 (index + 1)), Ok provider)
    | None => (lb, Err ErrPanic)
    end.

(** [rand.Intn(n)] with the draw [rnd]; it panics when [n <= 0]. *)
Definition Intn (rnd n : Z) : option Z :=
  if bool_decide (n <= 0) then None else Some (rnd mod n).

Fixpoint weighted_scan (providers : list (ref Provider)) (r : Z) : option (ref Provider) :=
  match providers with
  | [] => None
  | p :: rest =>
      let r' := wrap64 (r - Weight (deref p)) in
      if bool_decide (r' < 0) then Some p else weighted_scan rest r'
  end.

Definition weightedRandom (providers : list (ref Provider)) (rnd : Z)
  : result (ref Provider) :=
  let totalWeight := foldl (λ acc p, wrap64 (acc + Weight (deref p))) 0 providers in
  if bool_decide (totalWeight = 0) then
    match Intn rnd (Z.of_nat (length providers)) with
    | None => Err ErrPanic
    | Some i =>
        match providers !! Z.to_nat i with
        | Some p => Ok p
        | None => Err ErrPanic
        end
    end
  else
    match Intn rnd totalWeight with
    | None => Err ErrPanic
    | Some r =>
        match weighted_scan providers r with
        | Some p => Ok p
        | None =>
            match last providers with
            | Some p => Ok p
            | None => Err ErrPanic
            end
        end
    end.

(** [sort.Slice] by descending priority.  The library promises no order among
    equal priorities; the model takes the order of an insertion sort, which is
    what the Go runtime runs on slices of up to twelve elements. *)
Fixpoint insert_by_priority (p : ref Provider) (sorted : list (ref Provider))
  : list (ref Provider) :=
  match sorted with
  | [] => [p]
  | q :: rest =>
      if bool_decide (Priority (deref p) > Priority (deref q))
      then p :: q :: rest
      else q :: insert_by_priority p rest
  end.

Definition sort_by_priority (providers : list (ref Provider)) : list (ref Provider) :=
  foldl (λ sorted p, insert_by_priority p sorted) [] providers.

Definition priority (providers : list (ref Provider)) : result (ref Provider) :=
  match sort_by_priority providers with
  | p :: _ => Ok p
  | [] => Err ErrPanic
  end.

Definition GetProviderStats (lb : LoadBalancer) (providerName : string)
  : LoadBalancerStats :=
  match providerStats lb !! providerName with
  | Some stats => stats
  | None => fresh_stats providerName
  end.

Definition failover (lb : LoadBalancer) (providers : list (ref Provider))
  : result (ref Provider) :=
  let sorted := sort_by_priority providers in
  match list_find (λ p, IsHealthy (GetProviderStats lb (Name (deref p))) = true) sorted with
  | Some (_, p) => Ok p
  | None =>
      match sorted with
      | p :: _ => Ok p
      | [] => Err ErrPanic
      end
  end.

Definition SelectProvider (lb : LoadBalancer) (providers : list (ref Provider))
    (mode : string) (rnd : Z) : LoadBalancer * result (ref Provider) :=
  if bool_decide (length providers = 0%nat) then (lb, Err ErrNoProvidersAvailable)
  else
    let activeProviders := filterHealthyProviders lb providers in
    if bool_decide (length activeProviders = 0%nat) then (lb, Err ErrNoHealthyProviders)
    else if bool_decide (mode = "round_robin") then roundRobin lb activeProviders
    else if bool_decide (mode = "weighted") then (lb, weightedRandom activeProviders rnd)
    else if bool_decide (mode = "priority") then (lb, priority activeProviders)
    else if bool_decide (mode = "failover") then (lb, failover lb activeProviders)
    else roundRobin lb activeProviders.

(** [x < y] on [float64] values. *)
Definition Qltb (x y : Q) : bool := negb (Qle_bool y x).

(** [duration.Seconds()]: a [time.Duration] counts nanoseconds. *)
Definition Seconds (duration : Z) : Q := inject_Z duration / inject_Z (10 ^ 9).

(** The statistics of one peer after one more completed call; the body of
    [UpdateStats] once [stats] is in hand. *)
Definition bump_stats (stats : LoadBalancerStats) (callSucceeded : bool)
    (duration now : Z) : LoadBalancerStats :=
  let total := wrap64 (TotalCalls stats + 1) in
  let avg :=
    if callSucceeded then
      if bool_decide (duration > 0) then
        ((AvgCallDuration stats * inject_Z (wrap64 (total - 1)) + Seconds duration)
         / inject_Z total)%Q
      else AvgCallDuration stats
    else AvgCallDuration stats in
  let failed :=
    if callSucceeded then FailedCalls stats else wrap64 (FailedCalls stats + 1) in
  let rate := (inject_Z (wrap64 (total - failed)) / inject_Z total * 100)%Q in
  let healthy :=
    if bool_decide (total > 10) && Qltb rate 50 then false else IsHealthy stats in
  mkStats (StatsProvider stats) total (ActiveCalls stats) failed rate avg now healthy.

(** [UpdateStats]; [now] is [time.Now()].  The copy of the statistics that a
    goroutine writes to the [provider_stats] table is not modelled. *)
Definition UpdateStats (lb : LoadBalancer) (providerName : string)
    (callSucceeded : bool) (duration now : Z) : LoadBalancer :=
  let stats :=
    match providerStats lb !! providerName with
    | Some stats => stats
    | None => fresh_stats providerName
    end in
  mkLB (<[providerName := bump_stats stats callSucceeded duration now]> (providerStats lb))
       (roundRobinIndex lb).

Definition set_ActiveCalls (stats : LoadBalancerStats) (v : Z) : LoadBalancerStats :=
  mkStats (StatsProvider stats) (TotalCalls stats) v (FailedCalls stats)
    (SuccessRate stats) (AvgCallDuration stats) (LastCallTime stats) (IsHealthy stats).

Definition IncrementActiveCalls (lb : LoadBalancer) (providerName : string) (delta : Z)
  : LoadBalancer :=
  let stats :=
    match providerStats lb !! providerName with
    | Some stats => stats
    | None => fresh_stats providerName
    end in
  let active := wrap64 (ActiveCalls stats + delta) in
  let active := if bool_decide (active < 0) then 0 else active in
  mkLB (<[providerName := set_ActiveCalls stats active]> (providerStats lb))
       (roundRobinIndex lb).

Definition five_minutes : Z := 5 * 60 * 10 ^ 9.

(** [checkProviderHealth]: every entry is looked at once and changed on its
    own, so the order of the visit does not matter. *)
Definition checkProviderHealth (lb : LoadBalancer) (now : Z) : LoadBalancer :=
  mkLB ((λ stats,
           if bool_decide (Sub now (LastCallTime stats) > five_minutes)
              && negb (IsHealthy stats)
           then mkStats (StatsProvider stats) 0 (ActiveCalls stats) 0 100%Q
                  (AvgCallDuration stats) (LastCallTime stats) true
           else stats) <$> providerStats lb)
       (roundRobinIndex lb).

End loadbalancer.
Import loadbalancer.

(** ** Package router: the call ledger and the four legs *)

Module router.

(** A row of the [call_verifications] table. *)
Record VerificationRecord := mkVerification {
  v_call_id : string;
  v_step : string;
  v_expected_ani : string;
  v_expected_dnis : string;
  v_received_ani : string;
  v_received_dnis : string;
  v_source_ip : string;
  v_verified : bool
}.

(** The tables behind [db.DB] that the engine uses.  [dids] is keyed by
    [number] and [call_records] by [call_id], both [UNIQUE] in the schema. *)
Record Database := mkDB {
  dids : gmap string DID;
  call_records : gmap string CallRecord;
  call_verifications : list VerificationRecord
}.

Record Router := mkRouter {
  providerMgr : Manager;
  loadBalancer : LoadBalancer;
  activeCalls : gmap string CallRecord;
  didToCall : gmap string string
}.

(** The router together with the store it works on. *)
Record State := mkState {
  rtr : Router;
  store : Database
}.

Definition NewRouter (providerMgr : Manager) : Router :=
  mkRouter providerMgr loadbalancer.New ∅ ∅.

Definition with_lb (st : State) (lb : LoadBalancer) : State :=
  mkState (mkRouter (providerMgr (rtr st)) lb (activeCalls (rtr st)) (didToCall (rtr st)))
          (store st).

(** The rows a [SELECT number FROM dids WHERE in_use = 0 AND ...] returns. *)
Definition free_numbers (pool : gmap string DID) (cond : DID → bool) : list string :=
  (map_to_list (filter (λ kv, InUse kv.2 = false ∧ cond kv.2 = true) pool)).*1.

(** [ORDER BY RAND() LIMIT 1]: any row of the result may come first; [draw]
    decides which.  No row gives [sql.ErrNoRows]. *)
Definition first_at_random (rows : list string) (draw : nat) : result string :=
  match rows !! (draw `mod` length rows)%nat with
  | Some number => Ok number
  | None => Err ErrNoRows
  end.

Definition getAvailableDID (db : Database) (providerName : string) (draw1 draw2 : nat)
  : result string :=
  match first_at_random
          (free_numbers (dids db) (λ d, bool_decide (ProviderName d = providerName)))
          draw1 with
  | Ok did => Ok did
  | Err _ =>
      match first_at_random (free_numbers (dids db) (λ _, true)) draw2 with
      | Ok did => Ok did
      | Err e => Err (ErrNoAvailableDIDs e)
      end
  end.

Definition set_dids (db : Database) (pool : gmap string DID) : Database :=
  mkDB pool (call_records db) (call_verifications db).

(** [UPDATE dids SET in_use = 1, destination = ? WHERE number = ?] *)
Definition markDIDInUse (db : Database) (did destination : string) : Database :=
  set_dids db
    (alter (λ d, mkDID (Number d) (ProviderName d) true (Some destination)) did (dids db)).

(** [UPDATE dids SET in_use = 0, destination = NULL WHERE number = ?] *)
Definition releaseDID (db : Database) (did : string) : Database :=
  set_dids db
    (alter (λ d, mkDID (Number d) (ProviderName d) false None) did (dids db)).

(** [INSERT INTO call_records]: a second row with the same [call_id] is
    refused by the [UNIQUE] constraint; the caller only logs the error. *)
Definition storeCallRecord (db : Database) (record : CallRecord) : Database :=
  match call_records db !! CallID record with
  | Some _ => db
  | None =>
      mkDB (dids db) (<[CallID record := record]> (call_records db))
           (call_verifications db)
  end.

(** [UPDATE call_records SET status, current_step, end_time, duration
    WHERE call_id = ?] *)
Definition updateCallRecord (db : Database) (record : CallRecord) : Database :=
  mkDB (dids db)
       (alter (λ row,
                 mkCallRecord (CallID row) (OriginalANI row) (OriginalDNIS row)
                   (TransformedANI row) (AssignedDID row) (CallInbound row)
                   (CallIntermediate row) (CallFinal row)
                   (Status record) (CurrentStep record) (StartTime row)
                   (EndTime record) (Duration record) (RecordingPath row))
              (CallID record) (call_records db))
       (call_verifications db).

Definition storeVerificationRecord (db : Database) (callID step : string)
    (expected_ani expected_dnis received_ani received_dnis sourceIP : string)
    (verified : bool) : Database :=
  mkDB (dids db) (call_records db)
       (call_verifications db ++
        [mkVerification callID step expected_ani expected_dnis
           received_ani received_dnis sourceIP verified]).

(** What [ProcessIncomingCall] takes from outside the program: the order of
    the three map iterations, the random draws and the clock. *)
Record IncomingEnv := mkIncomingEnv {
  visit_routes : list (string * ProviderRoute);
  visit_intermediate : list (string * ref Provider);
  visit_final : list (string * ref Provider);
  rand_intermediate : Z;
  rand_final : Z;
  draw_owned : nat;
  draw_any : nat;
  now_incoming : Z
}.

Definition set_state (record : CallRecord) (status step : string) (endTime : option Z)
    (duration : Z) : CallRecord :=
  mkCallRecord (CallID record) (OriginalANI record) (OriginalDNIS record)
    (TransformedANI record) (AssignedDID record) (CallInbound record)
    (CallIntermediate record) (CallFinal record) status step (StartTime record)
    endTime duration (RecordingPath record).

(** Leg 1. *)
Definition ProcessIncomingCall (st : State) (callID ani dnis inboundProvider : string)
    (env : IncomingEnv) : State * result CallResponse :=
  let r := rtr st in
  match GetRouteForInbound (visit_routes env) inboundProvider with
  | Err e => (st, Err (ErrNoRouteForInbound inboundProvider e))
  | Ok route =>
  match GetProvidersByName (providerMgr r) (visit_intermediate env)
          (IntermediateProvider route) with
  | Err e => (st, Err e)
  | Ok intermediateProviders =>
  match SelectProvider (loadBalancer r) intermediateProviders (LoadBalanceMode route)
          (rand_intermediate env) with
  | (lb1, Err e) => (with_lb st lb1, Err e)
  | (lb1, Ok intermediateProvider) =>
  match GetProvidersByName (providerMgr r) (visit_final env) (FinalProvider route) with
  | Err e => (with_lb st lb1, Err e)
  | Ok finalProviders =>
  match SelectProvider lb1 finalProviders (LoadBalanceMode route) (rand_final env) with
  | (lb2, Err e) => (with_lb st lb2, Err e)
  | (lb2, Ok finalProvider) =>
  let intermediateName := Name (deref intermediateProvider) in
  let finalName := Name (deref finalProvider) in
  match getAvailableDID (store st) intermediateName (draw_owned env) (draw_any env) with
  | Err e => (with_lb st lb2, Err (ErrNoDIDsForProvider intermediateName e))
  | Ok did =>
      let db1 := markDIDInUse (store st) did dnis in
      let record :=
        mkCallRecord callID ani dnis dnis did inboundProvider intermediateName finalName
          "ACTIVE" "S1_TO_S2" (now_incoming env) None 0
          ("/var/spool/asterisk/monitor/" +:+ callID +:+ ".wav") in
      let db2 := storeCallRecord db1 record in
      let db3 := storeVerificationRecord db2 callID "S1_TO_S2" ani dnis ani dnis "" true in
      let lb3 := IncrementActiveCalls lb2 intermediateName 1 in
      let lb4 := IncrementActiveCalls lb3 finalName 1 in
      (mkState (mkRouter (providerMgr r) lb4
                  (<[callID := record]> (activeCalls r))
                  (<[did := callID]> (didToCall r)))
               db3,
       Ok (mkResponse "success" did ("endpoint-" +:+ intermediateName) dnis did))
  end end end end end end.

(** Leg 3.  The claimed peer name [provider] is only logged. *)
Definition ProcessReturnCall (st : State) (ani2 did provider sourceIP : string)
  : State * result CallResponse :=
  let r := rtr st in
  match didToCall r !! did with
  | None => (st, Err (ErrNoActiveCallForDID did))
  | Some callID =>
  match activeCalls r !! callID with
  | None => (st, Err ErrNoCallRecord)
  | Some record =>
  match GetProvider (providerMgr r) (CallIntermediate record) with
  | Err e => (st, Err (ErrIntermediateNotFound e))
  | Ok intermediateProvider =>
  match verifyProviderIP (deref intermediateProvider) sourceIP with
  | Some _ =>
      (mkState r
         (storeVerificationRecord (store st) callID "S3_TO_S2"
            ani2 did ani2 did sourceIP false),
       Err (ErrUnauthorizedSourceIP sourceIP))
  | None =>
      let db1 :=
        storeVerificationRecord (store st) callID "S3_TO_S2"
          (OriginalDNIS record) did ani2 did sourceIP true in
      let record' :=
        set_state record "RETURNED_FROM_S3" "S3_TO_S2" (EndTime record) (Duration record) in
      (mkState (mkRouter (providerMgr r) (loadBalancer r)
                  (<[callID := record']> (activeCalls r)) (didToCall r))
               db1,
       Ok (mkResponse "success" "" ("endpoint-" +:+ CallFinal record)
             (OriginalANI record) (OriginalDNIS record)))
  end end end end.

(** What [ProcessFinalCall] takes from outside: the order in which the
    fallback search visits the ledger, and the clock. *)
Record FinalEnv := mkFinalEnv {
  visit_calls : list (string * CallRecord);
  now_final : Z
}.

(** The call the final leg belongs to: by call-id, else the first record the
    search meets with the same original ANI and DNIS. *)
Definition find_call (r : Router) (visit : list (string * CallRecord))
    (callID ani dnis : string) : option (string * CallRecord) :=
  match activeCalls r !! callID with
  | Some record => Some (callID, record)
  | None =>
      snd <$> list_find (λ kv, OriginalANI kv.2 = ani ∧ OriginalDNIS kv.2 = dnis) visit
  end.

(** Leg 5.  The claimed peer name [provider] is only logged. *)
Definition ProcessFinalCall (st : State) (callID ani dnis provider sourceIP : string)
    (env : FinalEnv) : State * option error :=
  let r := rtr st in
  match find_call r (visit_calls env) callID ani dnis with
  | None => (st, Some ErrCallNotFound)
  | Some (callID, record) =>
  match GetProvider (providerMgr r) (CallFinal record) with
  | Err e => (st, Some (ErrFinalNotFound e))
  | Ok finalProvider =>
  match verifyProviderIP (deref finalProvider) sourceIP with
  | Some _ =>
      (mkState r
         (storeVerificationRecord (store st) callID "S4_TO_S2"
            ani dnis ani dnis sourceIP false),
       Some (ErrUnauthorizedSourceIP sourceIP))
  | None =>
      let db1 :=
        storeVerificationRecord (store st) callID "S4_TO_S2"
          (OriginalANI record) (OriginalDNIS record) ani dnis sourceIP true in
      let now := now_final env in
      let duration := Sub now (StartTime record) in
      let lb1 := UpdateStats (loadBalancer r) (CallIntermediate record) true duration now in
      let lb2 := UpdateStats lb1 (CallFinal record) true duration now in
      let lb3 := IncrementActiveCalls lb2 (CallIntermediate record) (-1) in
      let lb4 := IncrementActiveCalls lb3 (CallFinal record) (-1) in
      let record' :=
        set_state record "COMPLETED" "COMPLETED" (Some now) (duration `quot` 10 ^ 9) in
      let db2 := releaseDID db1 (AssignedDID record') in
      let db3 := updateCallRecord db2 record' in
      (mkState (mkRouter (providerMgr r) lb4
                  (delete callID (activeCalls r))
                  (delete (AssignedDID record') (didToCall r)))
               db3,
       None)
  end end end.

Definition thirty_minutes : Z := 30 * 60 * 10 ^ 9.

(** One round of the loop of [cleanupStaleCalls], on the entry
    [(callID, record)]. *)
Definition cleanup_one (now : Z) (st : State) (entry : string * CallRecord) : State :=
  let '(callID, record) := entry in
  let r := rtr st in
  if bool_decide (Sub now (StartTime record) > thirty_minutes) then
    let db1 := releaseDID (store st) (AssignedDID record) in
    let lb1 := UpdateStats (loadBalancer r) (CallIntermediate record) false 0 now in
    let lb2 := UpdateStats lb1 (CallFinal record) false 0 now in
    let lb3 := IncrementActiveCalls lb2 (CallIntermediate record) (-1) in
    let lb4 := IncrementActiveCalls lb3 (CallFinal record) (-1) in
    let record' := set_state record "ABANDONED" "CLEANUP" (Some now) (Duration record) in
    let db2 := updateCallRecord db1 record' in
    mkState (mkRouter (providerMgr r) lb4
               (delete callID (activeCalls r))
               (delete (AssignedDID record') (didToCall r)))
            db2
  else st.

(** The cleanup sweep; [visit] is the order in which the ledger is visited.
    A round deletes only the entry it is on, so every entry is visited. *)
Definition cleanupStaleCalls (st : State) (visit : list (string * CallRecord)) (now : Z)
  : State :=
  foldl (cleanup_one now) st visit.

End router.
Import router.

(** ** Package agi: the hang-up hook *)

Module agi.

Definition AGI_FAILURE : string := "200 result=0".



End agi.


(** ** Runs of the routing engine *)

Module engine.

(** One entry into the engine: a leg, or a round of the cleanup sweep. *)
Inductive op :=
| Incoming (callID ani dnis inboundProvider : string) (env : IncomingEnv)
| Return_ (ani2 did provider sourceIP : string)
| Final (callID ani dnis provider sourceIP : string) (env : FinalEnv)
| Sweep (visit : list (string * CallRecord)) (now : Z).

Definition run (st : State) (o : op) : State :=
  match o with
  | Incoming callID ani dnis inboundProvider env =>
      (ProcessIncomingCall st callID ani dnis inboundProvider env).1
  | Return_ ani2 did provider sourceIP =>
      (ProcessReturnCall st ani2 did provider sourceIP).1
  | Final callID ani dnis provider sourceIP env =>
      (ProcessFinalCall st callID ani dnis provider sourceIP env).1
  | Sweep visit now => cleanupStaleCalls st visit now
  end.

(** The map iterations of an entry visit the maps as they are on entry. *)
Definition env_ok (st : State) (o : op) : Prop :=
  match o with
  | Incoming _ _ _ _ env =>
      visits (providerRoutes (providerMgr (rtr st))) (visit_routes env) ∧
      visits (providers (providerMgr (rtr st))) (visit_intermediate env) ∧
      visits (providers (providerMgr (rtr st))) (visit_final env)
  | Return_ _ _ _ _ => True
  | Final _ _ _ _ _ env => visits (activeCalls (rtr st)) (visit_calls env)
  | Sweep visit _ => visits (activeCalls (rtr st)) visit
  end.

(** The states the engine reaches from [st0] by entries that satisfy
    [allowed]. *)
Inductive reachable (allowed : State → op → Prop) (st0 : State) : State → Prop :=
| reach_start : reachable allowed st0 st0
| reach_run st o :
    reachable allowed st0 st → env_ok st o → allowed st o →
    reachable allowed st0 (run st o).

Definition any_op (st : State) (o : op) : Prop := True.

(** Leg 1 is entered only with a call-id the ledger does not hold. *)
Definition new_call_id (st : State) (o : op) : Prop :=
  match o with
  | Incoming callID _ _ _ _ => activeCalls (rtr st) !! callID = None
  | _ => True
  end.

(** A new router over a pool in which no DID is in use. *)
Definition initial (st : State) : Prop :=
  activeCalls (rtr st) = ∅ ∧ didToCall (rtr st) = ∅ ∧
  ∀ d row, dids (store st) !! d = Some row → InUse row = false.

Definition live (record : CallRecord) : Prop :=
  Status record = "ACTIVE" ∨ Status record = "RETURNED_FROM_S3".

Definition in_use (pool : gmap string DID) (d : string) : Prop :=
  ∃ row, pool !! d = Some row ∧ InUse row = true.

(** A DID that is not in use: no row, or a row with [in_use = 0]. *)
Definition not_in_use (pool : gmap string DID) (d : string) : Prop :=
  ∀ row, pool !! d = Some row → InUse row = false.

Definition state_ok_of (ok : gmap string CallRecord → gmap string string →
                                gmap string DID → Prop) (st : State) : Prop :=
  ok (activeCalls (rtr st)) (didToCall (rtr st)) (dids (store st)).

(** The two indices of the ledger agree. *)
Definition indices_agree (calls : gmap string CallRecord) (index : gmap string string)
  : Prop :=
  ∀ d c, index !! d = Some c ↔
         ∃ record, calls !! c = Some record ∧ AssignedDID record = d.

(** A DID in use is the DID of exactly one record of the ledger, and that
    record is live. *)
Definition in_use_once (calls : gmap string CallRecord) (pool : gmap string DID) : Prop :=
  ∀ d, in_use pool d →
       ∃ c record,
         calls !! c = Some record ∧ AssignedDID record = d ∧ live record ∧
         ∀ c' record', calls !! c' = Some record' → AssignedDID record' = d → c' = c.

(** Exclusivity of the DID assignment, as a property of a state. *)
Definition exclusive (st : State) : Prop :=
  in_use_once (activeCalls (rtr st)) (dids (store st)) ∧
  indices_agree (activeCalls (rtr st)) (didToCall (rtr st)).

(** What the engine keeps true from entry to entry. *)
Record ledger_ok (calls : gmap string CallRecord) (index : gmap string string)
    (pool : gmap string DID) : Prop := mkLedgerOk {
  ok_indices : indices_agree calls index;
  ok_records : ∀ c record, calls !! c = Some record →
                           live record ∧ in_use pool (AssignedDID record);
  ok_in_use : ∀ d, in_use pool d → is_Some (index !! d)
}.

End engine.
Import engine.

(** ** Concurrent acquisition of DIDs

    The only caller of [getAvailableDID] and [markDIDInUse] is
    [ProcessIncomingCall], which takes the router's lock [r.mu] on entry and
    gives it back on return ([defer r.mu.Unlock()]).  A worker is one such
    call, cut down to what touches the [dids] table; the workers run
    interleaved, one statement at a time. *)

Module acquire.

(** Where a worker stands. *)
Inductive pc :=
| AtLock                          (* before [r.mu.Lock()] *)
| AtSelect                        (* in the lock, before [getAvailableDID] *)
| AtMark (did : string)           (* in the lock, before [markDIDInUse] *)
| AtUnlock (res : option string)  (* in the lock, returning *)
| Returned (res : option string). (* lock given back; [None] is no-did *)

Record Worker := mkWorker {
  w_provider : string;      (* the intermediate peer the DID is asked for *)
  w_dnis : string;          (* the destination the DID will mask *)
  w_pc : pc
}.

Record Sys := mkSys {
  mu : bool;                (* [true] when [r.mu] is held *)
  db : Database;
  workers : list Worker
}.

Definition at_pc (w : Worker) (c : pc) : Worker :=
  mkWorker (w_provider w) (w_dnis w) c.

(** One statement of one worker. *)
Inductive step : Sys → Sys → Prop :=
| step_lock s pre w post :
    workers s = pre ++ w :: post → w_pc w = AtLock → mu s = false →
    step s (mkSys true (db s) (pre ++ at_pc w AtSelect :: post))
| step_select s pre w post draw1 draw2 :
    workers s = pre ++ w :: post → w_pc w = AtSelect →
    step s (mkSys (mu s) (db s)
              (pre ++ at_pc w
                        match getAvailableDID (db s) (w_provider w) draw1 draw2 with
                        | Ok did => AtMark did
                        | Err _ => AtUnlock None
                        end :: post))
| step_mark s pre w post did :
    workers s = pre ++ w :: post → w_pc w = AtMark did →
    step s (mkSys (mu s) (markDIDInUse (db s) did (w_dnis w))
              (pre ++ at_pc w (AtUnlock (Some did)) :: post))
| step_unlock s pre w post res :
    workers s = pre ++ w :: post → w_pc w = AtUnlock res →
    step s (mkSys false (db s) (pre ++ at_pc w (Returned res) :: post)).

(** Any number of statements, in any interleaving. *)
Inductive steps : Sys → Sys → Prop :=
| steps_refl s : steps s s
| steps_step s1 s2 s3 : steps s1 s2 → step s2 s3 → steps s1 s3.

(** [N] calls about to start on the pool [pool]; [asks] gives the peer and
    the destination of each. *)
Definition start (pool : gmap string DID) (asks : list (string * string)) : Sys :=
  mkSys false (mkDB pool ∅ [])
        ((λ a, mkWorker a.1 a.2 AtLock) <$> asks).

Definition returned (w : Worker) : bool :=
  match w_pc w with Returned _ => true | _ => false end.

Definition all_returned (s : Sys) : Prop := Forall (λ w, returned w = true) (workers s).

(** The DIDs of the calls that have returned with one. *)
Definition acquired (ws : list Worker) : list string :=
  omap (λ w, match w_pc w with Returned (Some did) => Some did | _ => None end) ws.

(** The number of free DIDs of a pool. *)
Definition free_count (pool : gmap string DID) : nat :=
  size (filter (λ kv : string * DID, InUse kv.2 = false) pool).

(** Statements a worker still has to run. *)
Definition remaining (w : Worker) : nat :=
  match w_pc w with
  | AtLock => 4
  | AtSelect => 3
  | AtMark _ => 2
  | AtUnlock _ => 1
  | Returned _ => 0
  end.

Definition work_left (s : Sys) : nat := sum_list_with remaining (workers s).

(** A worker that holds the lock. *)
Definition in_lock (w : Worker) : bool :=
  match w_pc w with
  | AtSelect | AtMark _ | AtUnlock _ => true
  | AtLock | Returned _ => false
  end.

(** The DID a worker has marked for its call, if it has come that far. *)
Definition got (w : Worker) : option string :=
  match w_pc w with
  | AtUnlock (Some did) | Returned (Some did) => Some did
  | _ => None
  end.

(** A worker whose selection found no free DID. *)
Definition no_did (w : Worker) : bool :=
  match w_pc w with
  | AtUnlock None | Returned None => true
  | _ => false
  end.

(** What every interleaving keeps true, for a run that started on a pool
    with [m] free DIDs. *)
Record run_ok (m : nat) (s : Sys) : Prop := mkRunOk {
  ok_lock : length (filter (λ w, in_lock w = true) (workers s))
            = if mu s then 1%nat else 0%nat;
  ok_distinct : NoDup (omap got (workers s));
  ok_marked : ∀ d, d ∈ omap got (workers s) → in_use (dids (db s)) d;
  ok_selected : ∀ w d, w ∈ workers s → w_pc w = AtMark d →
                       ∃ row, dids (db s) !! d = Some row ∧ InUse row = false;
  ok_count : (free_count (dids (db s)) + length (omap got (workers s)) = m)%nat;
  ok_no_did : ∀ w, w ∈ workers s → no_did w = true → free_count (dids (db s)) = 0%nat
}.

(** The next statement of worker [i], when it can run one: a worker at
    [r.mu.Lock()] waits while the lock is held, and a worker that has
    returned has nothing left to run. *)
Definition fire (s : Sys) (i draw1 draw2 : nat) : option Sys :=
  match workers s !! i with
  | None => None
  | Some w =>
      let put c := take i (workers s) ++ at_pc w c :: drop (S i) (workers s) in
      match w_pc w with
      | AtLock => if mu s then None else Some (mkSys true (db s) (put AtSelect))
      | AtSelect =>
          Some (mkSys (mu s) (db s)
                  (put match getAvailableDID (db s) (w_provider w) draw1 draw2 with
                       | Ok did => AtMark did
                       | Err _ => AtUnlock None
                       end))
      | AtMark did =>
          Some (mkSys (mu s) (markDIDInUse (db s) did (w_dnis w))
                  (put (AtUnlock (Some did))))
      | AtUnlock res => Some (mkSys false (db s) (put (Returned res)))
      | Returned _ => None
      end
  end.

(** The run in which the workers take turns as listed. *)
Fixpoint schedule (s : Sys) (turns : list nat) : option Sys :=
  match turns with
  | [] => Some s
  | i :: rest =>
      match fire s i 0 0 with
      | Some s' => schedule s' rest
      | None => None
      end
  end.

End acquire.

(** ** Runs of the load balancer *)

Module lbruns.

(** One call of [UpdateStats]. *)
Record StatsCall := mkStatsCall {
  sc_provider : string;
  sc_succeeded : bool;
  sc_duration : Z;
  sc_now : Z
}.

Definition UpdateStats_call (lb : LoadBalancer) (c : StatsCall) : LoadBalancer :=
  UpdateStats lb (sc_provider c) (sc_succeeded c) (sc_duration c) (sc_now c).

(** A sequence of [UpdateStats] calls, in order. *)
Definition UpdateStats_all (lb : LoadBalancer) (calls : list StatsCall) : LoadBalancer :=
  foldl UpdateStats_call lb calls.

(** [n] calls of [roundRobin] in a row on the same slice: the load balancer
    left behind and the results in order. *)
Fixpoint roundRobin_times (n : nat) (lb : LoadBalancer) (providers : list (ref Provider))
  : LoadBalancer * list (result (ref Provider)) :=
  match n with
  | O => (lb, [])
  | S n' =>
      let '(lb1, r) := roundRobin lb providers in
      let '(lb2, rs) := roundRobin_times n' lb1 providers in
      (lb2, r :: rs)
  end.

(** The cursor [roundRobin] reads for a slice: [lb.roundRobinIndex[key]],
    zero when the key is absent. *)
Definition cursor (lb : LoadBalancer) (providers : list (ref Provider)) : Z :=
  default 0 (roundRobinIndex lb !! slice_key providers).

(** The calls of a sequence that are for the peer [name], and those of them
    that report a failure. *)
Definition calls_to (name : string) (calls : list StatsCall) : list StatsCall :=
  filter (λ c, sc_provider c = name) calls.

Definition failures_to (name : string) (calls : list StatsCall) : list StatsCall :=
  filter (λ c, sc_succeeded c = false) (calls_to name calls).

(** The counters of the peer [name] are those of the calls made so far. *)
Definition counts_calls (lb : LoadBalancer) (calls : list StatsCall) (name : string)
  : Prop :=
  match providerStats lb !! name with
  | Some stats =>
      TotalCalls stats = Z.of_nat (length (calls_to name calls)) ∧
      FailedCalls stats = Z.of_nat (length (failures_to name calls))
  | None => calls_to name calls = []
  end.

End lbruns.
Import lbruns.

(** ** Measures used to state the behaviour of the selectors *)

Module measures.

(** The sum of the weights of a slice, without wrap-around. *)
Definition weight_sum (providers : list (ref Provider)) : Z :=
  foldr (λ p acc, Weight (deref p) + acc) 0 providers.

(** A candidate that [filterHealthyProviders] lets through. *)
Definition selectable (lb : LoadBalancer) (p : ref Provider) : Prop :=
  Active (deref p) = true ∧
  IsHealthy (GetProviderStats lb (Name (deref p))) = true ∧
  (0 < MaxChannels (deref p) →
   ActiveCalls (GetProviderStats lb (Name (deref p))) < MaxChannels (deref p)).

(** The head of a slice has the greatest priority of the slice. *)
Definition head_greatest (l : list (ref Provider)) : Prop :=
  match l with
  | [] => True
  | p :: _ => ∀ q, q ∈ l → Priority (deref q) <= Priority (deref p)
  end.

End measures.
Import measures.

(** ** Further notions on the ledger *)

Module ledger.

(** The DID of a record masks the record's original DNIS: its row is in use
    with that DNIS as destination. *)
Definition masks (pool : gmap string DID) (record : CallRecord) : Prop :=
  ∃ row, pool !! AssignedDID record = Some row ∧ InUse row = true ∧
         Destination row = Some (OriginalDNIS record).

(** Every record of the ledger has its DID masking its original DNIS, and
    carries that DNIS as the ANI sent to the intermediate carrier. *)
Definition masked_in (calls : gmap string CallRecord) (pool : gmap string DID) : Prop :=
  ∀ c record, calls !! c = Some record →
              masks pool record ∧ TransformedANI record = OriginalDNIS record.

Definition all_masked (st : State) : Prop :=
  masked_in (activeCalls (rtr st)) (dids (store st)).

End ledger.
Import ledger.

(** ** Package provider: listing peers and adding routes *)

Module provider_more.

(** [ListProviders]; [visit] is the order in which the registry is visited.
    The empty type selects every peer. *)
Definition ListProviders (m : Manager) (visit : list (string * ref Provider))
    (providerType : string) : list (ref Provider) :=
  (filter (λ kv, bool_decide (providerType = "")
                 || bool_decide (Type_ (deref kv.2) = providerType)) visit).*2.

Definition set_RouteID (route : ProviderRoute) (v : Z) : ProviderRoute :=
  mkRoute v (RouteName route) (InboundProvider route) (IntermediateProvider route)
    (FinalProvider route) (LoadBalanceMode route) (RoutePriority route)
    (RouteActive route).

(** [AddProviderRoute].  The three peers are looked up in the order inbound,
    intermediate, final, and the first one missing is reported.
    [lastInsertId] is what the [INSERT] reports; the statement itself is
    executed by the store. *)
Definition AddProviderRoute (m : Manager) (route : ProviderRoute) (lastInsertId : Z)
  : Manager * option error :=
  match list_find (λ providerName,
                     match GetProvider m providerName with
                     | Ok _ => false
                     | Err _ => true
                     end = true)
          [InboundProvider route; IntermediateProvider route; FinalProvider route] with
  | Some (_, providerName) => (m, Some (ErrProviderNotFound providerName))
  | None =>
      let route' :=
        if bool_decide (RouteID route = 0) then set_RouteID route lastInsertId
        else route in
      (mkManager (providers m) (<[RouteName route' := route']> (providerRoutes m)), None)
  end.

End provider_more.
Import provider_more.

(** * Scenario data

    The seed of the end-to-end scenarios and the small tables the examples
    below run on. *)

(** Two routes of equal priority for the same inbound peer. *)
Definition route_a : ProviderRoute :=
  mkRoute 1 "a" "s1" "s3a" "s4" "round_robin" 5 true.
Definition route_b : ProviderRoute :=
  mkRoute 2 "b" "s1" "s3b" "s4" "round_robin" 5 true.
Definition tie_table : gmap string ProviderRoute :=
  <["a" := route_a]> (<["b" := route_b]> ∅).

(** The seed of the end-to-end scenarios: one inbound peer, two intermediate
    peers, one final peer, one route and two DIDs owned by [s3a]. *)
Definition peer_s1 : ref Provider :=
  Ref 4096 (mkProvider 1 "s1" "inbound" "192.168.1.10" 5060 "" "" "ip"
              ["ulaw"; "alaw"] 0 0 1 true).
Definition peer_s3a : ref Provider :=
  Ref 4224 (mkProvider 2 "s3a" "intermediate" "10.0.0.20" 5060 "" "" "ip"
              ["ulaw"; "alaw"] 0 0 2 true).
Definition peer_s3b : ref Provider :=
  Ref 4352 (mkProvider 3 "s3b" "intermediate" "10.0.0.21" 5060 "" "" "ip"
              ["ulaw"; "alaw"] 0 0 1 true).
Definition peer_s4 : ref Provider :=
  Ref 4480 (mkProvider 4 "s4" "final" "172.16.0.30" 5060 "" "" "ip"
              ["ulaw"; "alaw"] 0 0 1 true).

Definition route_r : ProviderRoute :=
  mkRoute 1 "r" "s1" "s3a" "s4" "weighted" 0 true.

Definition seed_manager : Manager :=
  mkManager
    (<["s1" := peer_s1]> (<["s3a" := peer_s3a]> (<["s3b" := peer_s3b]>
       (<["s4" := peer_s4]> ∅))))
    (<["r" := route_r]> ∅).

Definition seed_pool : gmap string DID :=
  <["18005550001" := mkDID "18005550001" "s3a" false None]>
    (<["18005550002" := mkDID "18005550002" "s3a" false None]> ∅).

Definition seed_state : State :=
  mkState (NewRouter seed_manager) (mkDB seed_pool ∅ []).

Definition seed_peers : list (string * ref Provider) :=
  [("s1", peer_s1); ("s3a", peer_s3a); ("s3b", peer_s3b); ("s4", peer_s4)].

Definition seed_env : IncomingEnv :=
  mkIncomingEnv [("r", route_r)] seed_peers seed_peers 0 0 0 0 1000.

(** The call record leg 1 of the happy path creates. *)
Definition record_C1 : CallRecord :=
  mkCallRecord "C1" "15550000001" "15550000002" "15550000002"
    "18005550001" "s1" "s3a" "s4" "ACTIVE" "S1_TO_S2" 1000 None 0
    "/var/spool/asterisk/monitor/C1.wav".

(** The state after leg 1 of the happy path. *)
Definition after_leg1 : State :=
  (ProcessIncomingCall seed_state "C1" "15550000001" "15550000002" "s1" seed_env).1.

(** The state after a second leg 1 under the same call-id. *)
Definition after_leg1_twice : State :=
  (ProcessIncomingCall after_leg1 "C1" "15550000001" "15550000002" "s1" seed_env).1.

(** Eleven failed completions reported against [s3a], and a twelfth. *)
Definition failed_call : StatsCall := mkStatsCall "s3a" false 0 2000.
Definition eleven_failures : list StatsCall := replicate 11 failed_call.

(** A third intermediate peer, and one candidate set in two orders. *)
Definition peer_s3c : ref Provider :=
  Ref 4608 (mkProvider 5 "s3c" "intermediate" "10.0.0.22" 5060 "" "" "ip"
              ["ulaw"; "alaw"] 0 0 1 true).
Definition candidates_abc : list (ref Provider) := [peer_s3a; peer_s3b; peer_s3c].
Definition candidates_acb : list (ref Provider) := [peer_s3a; peer_s3c; peer_s3b].

(** Three selections in a row, over the same three peers: the slice in the
    order a, b, c, then in the order a, c, b, then in the first order again. *)
Definition three_selections : list (result (ref Provider)) :=
  let '(lb1, r1) := roundRobin loadbalancer.New candidates_abc in
  let '(lb2, r2) := roundRobin lb1 candidates_acb in
  let '(lb3, r3) := roundRobin lb2 candidates_abc in
  [r1; r2; r3].

(** A pool whose last free DID is [18005550002], and two calls that ask for
    a DID at the same time. *)
Definition last_did_pool : gmap string DID :=
  <["18005550001" := mkDID "18005550001" "s3a" true (Some "15550000009")]>
    (<["18005550002" := mkDID "18005550002" "s3a" false None]> ∅).

Definition two_asks : list (string * string) :=
  [("s3a", "15550000002"); ("s3a", "15550000003")].

(** * Properties *)

(** ** Machine integers *)

Lemma wrap64_small z : - 2 ^ 63 <= z <= max_int64 -> wrap64 z = z.
Proof.
  unfold wrap64, max_int64. intros Hz.
  rewrite Z.mod_small; lia.
Qed.

(** ** Route resolution *)

Section route_resolution.

Lemma route_scan_spec visit inb best h :
  let out := route_scan visit inb best h in
  h <= out.2 ∧
  (∀ k r, (k, r) ∈ visit → eligible inb r → RoutePriority r <= out.2) ∧
  ((out = (best, h)) ∨
   (∃ k r, (k, r) ∈ visit ∧ eligible inb r ∧ out = (Some r, RoutePriority r))).
Proof.
  revert best h. induction visit as [|[k0 r0] rest IH]; intros best h; simpl.
  - split; [lia|]. split; [|by left].
    intros k r Hin. by apply elem_of_nil in Hin.
  - destruct (bool_decide (InboundProvider r0 = inb)) eqn:Hinb; simpl.
    + destruct (RouteActive r0) eqn:Hact; simpl.
      * apply bool_decide_eq_true in Hinb.
        destruct (bool_decide (RoutePriority r0 > h)) eqn:Hgt.
        -- apply bool_decide_eq_true in Hgt.
           destruct (IH (Some r0) (RoutePriority r0)) as (Hle & Hall & Hres).
           split; [lia|]. split.
           ++ intros k r Hin Hel. apply elem_of_cons in Hin as [Heq|Hin].
              ** inversion Heq; subst. exact Hle.
              ** eauto.
           ++ right. destruct Hres as [Hres|(k & r & Hin & Hel & Hres)].
              ** exists k0, r0. split; [left|]. by split.
              ** exists k, r. split; [by right|]. by split.
        -- apply bool_decide_eq_false in Hgt.
           destruct (IH best h) as (Hle & Hall & Hres).
           split; [lia|]. split.
           ++ intros k r Hin Hel. apply elem_of_cons in Hin as [Heq|Hin].
              ** inversion Heq; subst. lia.
              ** eauto.
           ++ destruct Hres as [Hres|(k & r & Hin & Hel & Hres)]; [by left|].
              right. exists k, r. split; [by right|]. by split.
      * destruct (IH best h) as (Hle & Hall & Hres).
        split; [lia|]. split.
        -- intros k r Hin Hel. apply elem_of_cons in Hin as [Heq|Hin].
           ++ inversion Heq; subst. destruct Hel as [_ Hel]. congruence.
           ++ eauto.
        -- destruct Hres as [Hres|(k & r & Hin & Hel & Hres)]; [by left|].
           right. exists k, r. split; [by right|]. by split.
    + apply bool_decide_eq_false in Hinb.
      destruct (IH best h) as (Hle & Hall & Hres).
      split; [lia|]. split.
      * intros k r Hin Hel. apply elem_of_cons in Hin as [Heq|Hin].
        -- inversion Heq; subst. by destruct Hel.
        -- eauto.
      * destruct Hres as [Hres|(k & r & Hin & Hel & Hres)]; [by left|].
        right. exists k, r. split; [by right|]. by split.
Qed.

(** Where the scan stops: either no route was taken, or the result is the
    route at some position of the visit, its priority is above the starting
    one, and every eligible route met before it has a strictly lower
    priority.  The comparison of the loop is strict, so of several routes of
    the greatest priority the scan keeps the first it meets. *)
Lemma route_scan_first visit inb best h :
  let out := route_scan visit inb best h in
  (out = (best, h)) ∨
  (∃ pre k r post,
     visit = pre ++ (k, r) :: post ∧ out = (Some r, RoutePriority r) ∧
     h < RoutePriority r ∧
     ∀ k' r', (k', r') ∈ pre → eligible inb r' → RoutePriority r' < RoutePriority r).
Proof.
  revert best h. induction visit as [|[k0 r0] rest IH]; intros best h; simpl.
  - by left.
  - destruct (bool_decide (InboundProvider r0 = inb) && RouteActive r0
              && bool_decide (RoutePriority r0 > h)) eqn:Htake.
    + apply andb_prop in Htake as [Hel Hgt]. apply bool_decide_eq_true in Hgt.
      right.
      destruct (IH (Some r0) (RoutePriority r0))
        as [Hres|(pre & k & r & post & -> & Hres & Hlt & Hpre)].
      * exists [], k0, r0, rest. repeat split; [done|lia|].
        intros k' r' Hin. by apply elem_of_nil in Hin.
      * exists ((k0, r0) :: pre), k, r, post. repeat split; [done|lia|].
        intros k' r' Hin Hel'. apply elem_of_cons in Hin as [Heq|Hin]; [|eauto].
        inversion Heq; subst. lia.
    + destruct (IH best h) as [Hres|(pre & k & r & post & -> & Hres & Hlt & Hpre)];
        [by left|].
      right. exists ((k0, r0) :: pre), k, r, post. repeat split; [done|lia|].
      intros k' r' Hin Hel'. apply elem_of_cons in Hin as [Heq|Hin]; [|eauto].
      inversion Heq; subst. destruct Hel' as [Hinb Hact].
      rewrite Hact, andb_true_r in Htake.
      rewrite (bool_decide_eq_true_2 _ Hinb) in Htake. simpl in Htake.
      apply bool_decide_eq_false in Htake. lia.
Qed.

Lemma visits_elem {V} (m : gmap string V) visit k v :
  visits m visit → (k, v) ∈ visit ↔ m !! k = Some v.
Proof.
  unfold visits. intros Hp. rewrite Hp. apply elem_of_map_to_list.
Qed.

End route_resolution.

Lemma tie_table_entries :
  map_to_list tie_table ≡ₚ [("a", route_a); ("b", route_b)].
Proof.
  unfold tie_table. rewrite map_to_list_insert by done.
  by rewrite map_to_list_insert, map_to_list_empty by done.
Qed.

Lemma tie_table_visits_ba : visits tie_table [("b", route_b); ("a", route_a)].
Proof. unfold visits. rewrite tie_table_entries. apply Permutation_swap. Qed.

(** C6, as stated, fails: on one and the same route table the route returned
    among routes of equal priority is the one the map iteration meets first,
    so two visiting orders of the same table return two different routes; no
    rule on the route names decides the tie. *)
Lemma GetRouteForInbound_tie_follows_visit_order :
  visits tie_table [("a", route_a); ("b", route_b)] ∧
  visits tie_table [("b", route_b); ("a", route_a)] ∧
  RoutePriority route_a = RoutePriority route_b ∧
  GetRouteForInbound [("a", route_a); ("b", route_b)] "s1" = Ok route_a ∧
  GetRouteForInbound [("b", route_b); ("a", route_a)] "s1" = Ok route_b ∧
  route_a ≠ route_b.
Proof.
  split; [unfold visits; by rewrite tie_table_entries|].
  split; [apply tie_table_visits_ba|]. done.
Qed.

(** A route with a negative priority is never selected: the scan starts from
    [highestPriority = -1] and only takes a strictly greater priority. *)
Example GetRouteForInbound_negative_priority :
  GetRouteForInbound [("n", mkRoute 3 "n" "s1" "s3a" "s4" "round_robin" (-1) true)] "s1"
  = Err (ErrNoActiveRoute "s1").
Proof. reflexivity. Qed.

(** C6 (amended): when no route of the table has a negative priority,
    [GetRouteForInbound] returns, whatever the order in which the table is
    visited, an active route of the table whose inbound peer is the given name
    and whose priority is the greatest among such routes; among the routes of
    that greatest priority it is the one the iteration meets first: the route
    returned stands at some position of the visit, and every active route for
    the inbound peer met before that position has a strictly lower priority.
    It fails with no-route exactly when the table has no active route for that
    inbound peer. *)
Theorem GetRouteForInbound_highest_priority
    (m : Manager) (visit : list (string * ProviderRoute)) (inb : string) :
  visits (providerRoutes m) visit →
  (∀ k r, providerRoutes m !! k = Some r → 0 <= RoutePriority r) →
  match GetRouteForInbound visit inb with
  | Ok r =>
      (∃ k, providerRoutes m !! k = Some r) ∧ eligible inb r ∧
      (∀ k' r', providerRoutes m !! k' = Some r' → eligible inb r' →
                RoutePriority r' <= RoutePriority r) ∧
      (∃ pre k post,
         visit = pre ++ (k, r) :: post ∧
         ∀ k' r', (k', r') ∈ pre → eligible inb r' →
                  RoutePriority r' < RoutePriority r)
  | Err e =>
      e = ErrNoActiveRoute inb ∧
      ∀ k' r', providerRoutes m !! k' = Some r' → ¬ eligible inb r'
  end.
Proof.
  intros Hv Hnonneg. unfold GetRouteForInbound.
  pose proof (route_scan_spec visit inb None (-1)) as (Hle & Hall & Hres).
  pose proof (route_scan_first visit inb None (-1)) as Hfirst.
  destruct Hres as [Hres|(k & r & Hin & Hel & Hres)]; rewrite Hres in *; simpl in *.
  - split; [done|]. intros k' r' Hk' Hel.
    apply (visits_elem _ _ _ _ Hv) in Hk' as Hin.
    specialize (Hall _ _ Hin Hel). specialize (Hnonneg _ _ Hk'). lia.
  - split; [|split; [done|split]].
    + exists k. by apply (visits_elem _ _ _ _ Hv).
    + intros k' r' Hk' Hel'. apply (visits_elem _ _ _ _ Hv) in Hk'. eauto.
    + destruct Hfirst as [Hnone|(pre & k1 & r1 & post & Hvisit & Hout & _ & Hpre)];
        [done|].
      inversion Hout; subst r1. exists pre, k1, post. by split.
Qed.

Lemma GetRouteForInbound_highest_priority_witness :
  visits tie_table [("b", route_b); ("a", route_a)] ∧
  GetRouteForInbound [("b", route_b); ("a", route_a)] "s1" = Ok route_b ∧
  (∀ k' r', tie_table !! k' = Some r' → eligible "s1" r' →
            RoutePriority r' <= RoutePriority route_b) ∧
  (∃ pre k post,
     [("b", route_b); ("a", route_a)] = pre ++ (k, route_b) :: post ∧
     ∀ k' r', (k', r') ∈ pre → eligible "s1" r' →
              RoutePriority r' < RoutePriority route_b).
Proof.
  assert (Hv : visits tie_table [("b", route_b); ("a", route_a)]).
  { apply tie_table_visits_ba. }
  assert (Hn : ∀ k r, tie_table !! k = Some r → 0 <= RoutePriority r).
  { intros k r. unfold tie_table. rewrite !lookup_insert.
    repeat case_decide; intros; simplify_eq; simpl; lia. }
  pose proof (GetRouteForInbound_highest_priority
                (mkManager ∅ tie_table) _ "s1" Hv Hn) as H.
  split; [exact Hv|]. split; [reflexivity|].
  change (GetRouteForInbound [("b", route_b); ("a", route_a)] "s1")
    with (Ok (A:=ProviderRoute) route_b) in H.
  apply H.
Defined.

(** ** Peer registry: the auth mode stored by [AddProvider] *)

Lemma set_AuthType_overwrites p v w : set_AuthType (set_AuthType p v) w = set_AuthType p w.
Proof. reflexivity. Qed.

(** C10: [AddProvider] stores the peer under its name with an auth mode that
    is a function of the two credential fields alone: ["ip"] when user name
    and password are both empty and ["credentials"] otherwise, whatever auth
    mode the caller supplied ([v] below); the stored mode is never ["both"],
    and a peer stored with a user name or a password passes
    [verifyProviderIP] from every source address. *)
Theorem AddProvider_auth_from_credentials
    (m : Manager) (p : ref Provider) (lastInsertId : Z) :
  Name (deref p) ≠ "" → Host (deref p) ≠ "" →
  ∃ q,
    AddProvider m p lastInsertId
      = (mkManager (<[Name (deref p) := q]> (providers m)) (providerRoutes m), None) ∧
    address q = address p ∧
    AuthType (deref q)
      = (if bool_decide (Username (deref p) = "" ∧ Password (deref p) = "")
         then "ip" else "credentials") ∧
    AuthType (deref q) ≠ "both" ∧
    (∀ v, AddProvider m (Ref (address p) (set_AuthType (deref p) v)) lastInsertId
          = AddProvider m p lastInsertId) ∧
    (Username (deref p) ≠ "" ∨ Password (deref p) ≠ "" →
     ∀ sourceIP, verifyProviderIP (deref q) sourceIP = None).
Proof.
  intros Hname Hhost.
  destruct p as [a [id n t h port u pw au co mc pr we ac]]; simpl in *.
  assert (Hv : ∀ v,
    AddProvider m (Ref a (set_AuthType
                            (mkProvider id n t h port u pw au co mc pr we ac) v))
      lastInsertId
    = AddProvider m (Ref a (mkProvider id n t h port u pw au co mc pr we ac))
        lastInsertId).
  { intros v. unfold AddProvider; simpl.
    by destruct (bool_decide (port = 0)). }
  unfold AddProvider in *; simpl in *.
  rewrite (bool_decide_eq_false_2 _ Hname), (bool_decide_eq_false_2 _ Hhost) in *;
    simpl in *.
  destruct (bool_decide (port = 0)); simpl in *;
    (destruct (decide (u = "")) as [->|Hu];
       [destruct (decide (pw = "")) as [->|Hpw]|];
     [rewrite (bool_decide_eq_true_2 (_ ∧ _)) by done
     |rewrite (bool_decide_eq_false_2 (_ ∧ _)) by (by intros [_ ?]);
      rewrite (bool_decide_eq_false_2 (pw = "")) in * by done
     |rewrite (bool_decide_eq_false_2 (_ ∧ _)) by (by intros [? _]);
      rewrite (bool_decide_eq_false_2 (u = "")) in * by done];
     simpl in *;
     destruct (bool_decide (length co = 0%nat)); simpl in *;
     destruct (bool_decide (id = 0)); simpl in *;
     (eexists; split; [reflexivity|]; split; [reflexivity|];
      split; [reflexivity|]; split; [discriminate|]; split; [exact Hv|];
      intros Hcred sourceIP; try (by destruct Hcred); reflexivity)).
Qed.

Lemma AddProvider_auth_from_credentials_witness :
  ∃ q,
    AddProvider NewManager
      (Ref 8192 (mkProvider 0 "s5" "final" "172.16.0.31" 0 "alice" "secret" "both"
                   [] 0 0 1 true)) 7
      = (mkManager (<["s5" := q]> ∅) ∅, None) ∧
    AuthType (deref q) = "credentials" ∧
    ∀ sourceIP, verifyProviderIP (deref q) sourceIP = None.
Proof.
  destruct (AddProvider_auth_from_credentials NewManager
              (Ref 8192 (mkProvider 0 "s5" "final" "172.16.0.31" 0 "alice" "secret" "both"
                           [] 0 0 1 true)) 7)
    as (q & Hadd & _ & Hauth & _ & _ & Hip); [done|done|].
  exists q. split; [exact Hadd|]. split; [exact Hauth|].
  apply Hip. by left.
Defined.

(** ** Leg 3: the return from the intermediate carrier *)

Lemma before_colon_no_colon_example : before_colon "10.0.0.20:5060" = "10.0.0.20".
Proof. reflexivity. Qed.

(** C4: when the DID leads to a call record and the source address passes the
    check against the stored intermediate peer, [ProcessReturnCall] answers
    with the endpoint of the record's final peer as next hop and the original
    ANI and DNIS restored, and leaves the record with step [S3_TO_S2] and
    status [RETURNED_FROM_S3]; [ani2] is free, so this holds as well when it
    differs from the stored original DNIS. *)
Theorem ProcessReturnCall_restores_originals
    (st : State) (ani2 did provider sourceIP callID : string)
    (record : CallRecord) (p : ref Provider) :
  didToCall (rtr st) !! did = Some callID →
  activeCalls (rtr st) !! callID = Some record →
  providers (providerMgr (rtr st)) !! CallIntermediate record = Some p →
  verifyProviderIP (deref p) sourceIP = None →
  let out := ProcessReturnCall st ani2 did provider sourceIP in
  out.2 = Ok (mkResponse "success" "" ("endpoint-" +:+ CallFinal record)
                (OriginalANI record) (OriginalDNIS record)) ∧
  ∃ record',
    activeCalls (rtr out.1) !! callID = Some record' ∧
    CurrentStep record' = "S3_TO_S2" ∧
    Status record' = "RETURNED_FROM_S3" ∧
    record' = set_state record "RETURNED_FROM_S3" "S3_TO_S2"
                (EndTime record) (Duration record).
Proof.
  intros Hdid Hcall Hprov Hip. unfold ProcessReturnCall, GetProvider.
  rewrite Hdid, Hcall, Hprov, Hip. simpl. split; [reflexivity|].
  eexists. rewrite lookup_insert_eq. by repeat split.
Qed.

Lemma ProcessReturnCall_restores_originals_witness :
  (ProcessReturnCall after_leg1 "19995550000" "18005550001" "s3a" "10.0.0.20:5060").2
  = Ok (mkResponse "success" "" "endpoint-s4" "15550000001" "15550000002").
Proof.
  refine (proj1 (ProcessReturnCall_restores_originals after_leg1
                   "19995550000" "18005550001" "s3a" "10.0.0.20:5060" "C1"
                   record_C1 peer_s3a _ _ _ _)); by vm_compute.
Defined.

(** C5: when the DID leads to a call record whose intermediate peer uses auth
    mode [ip] or [both] and the source address (without its port) is not that
    peer's host, [ProcessReturnCall] returns unauthorized-source, appends one
    verification record with [verified = false], and changes nothing else:
    the router (ledger, DID index, load balancer) and the [dids] and
    [call_records] tables are as before, so the record keeps status and step,
    stays in both indices, and its DID is not released. *)
Theorem ProcessReturnCall_unauthorized_frame
    (st : State) (ani2 did provider sourceIP callID : string)
    (record : CallRecord) (p : ref Provider) :
  didToCall (rtr st) !! did = Some callID →
  activeCalls (rtr st) !! callID = Some record →
  providers (providerMgr (rtr st)) !! CallIntermediate record = Some p →
  AuthType (deref p) = "ip" ∨ AuthType (deref p) = "both" →
  Host (deref p) ≠ before_colon sourceIP →
  let out := ProcessReturnCall st ani2 did provider sourceIP in
  out.2 = Err (ErrUnauthorizedSourceIP sourceIP) ∧
  rtr out.1 = rtr st ∧
  dids (store out.1) = dids (store st) ∧
  call_records (store out.1) = call_records (store st) ∧
  (∃ v, call_verifications (store out.1) = call_verifications (store st) ++ [v] ∧
        v_call_id v = callID ∧ v_step v = "S3_TO_S2" ∧ v_verified v = false) ∧
  activeCalls (rtr out.1) !! callID = Some record ∧
  didToCall (rtr out.1) !! did = Some callID.
Proof.
  intros Hdid Hcall Hprov Hauth Hhost. unfold ProcessReturnCall, GetProvider.
  rewrite Hdid, Hcall, Hprov.
  assert (Hip : verifyProviderIP (deref p) sourceIP
                = Some (ErrIPMismatch (Host (deref p)) (before_colon sourceIP))).
  { unfold verifyProviderIP.
    rewrite (bool_decide_eq_true_2 _ Hhost).
    destruct Hauth as [-> | ->]; reflexivity. }
  rewrite Hip. simpl. repeat split; try done.
  eexists. by repeat split.
Qed.

Lemma ProcessReturnCall_unauthorized_frame_witness :
  let out := ProcessReturnCall after_leg1 "15550000002" "18005550001" "s3a" "10.0.0.99" in
  out.2 = Err (ErrUnauthorizedSourceIP "10.0.0.99") ∧
  rtr out.1 = rtr after_leg1 ∧
  dids (store out.1) = dids (store after_leg1).
Proof.
  pose proof (ProcessReturnCall_unauthorized_frame after_leg1
                "15550000002" "18005550001" "s3a" "10.0.0.99" "C1"
                record_C1 peer_s3a) as H.
  destruct H as (H1 & H2 & H3 & _).
  - by vm_compute.
  - by vm_compute.
  - by vm_compute.
  - by left.
  - by vm_compute.
  - by repeat split.
Defined.

(** ** Leg 1 and the call-id *)

(** C3, as stated, fails: with a record for call-id [C1] in the ledger, a
    second [ProcessIncomingCall] under [C1] succeeds; it resolves the route,
    takes a further DID and puts a new record in the place of the first. *)
Lemma ProcessIncomingCall_accepts_known_call_id :
  AssignedDID <$> activeCalls (rtr after_leg1) !! "C1" = Some "18005550001" ∧
  (ProcessIncomingCall after_leg1 "C1" "15550000001" "15550000002" "s1" seed_env).2
  = Ok (mkResponse "success" "18005550002" "endpoint-s3a" "15550000002" "18005550002") ∧
  AssignedDID <$> activeCalls (rtr after_leg1_twice) !! "C1" = Some "18005550002" ∧
  InUse <$> dids (store after_leg1_twice) !! "18005550002" = Some true.
Proof. by vm_compute. Qed.

(** The failures of the steps of leg 1. *)
Lemma GetRouteForInbound_error visit inb e :
  GetRouteForInbound visit inb = Err e → e = ErrNoActiveRoute inb.
Proof.
  unfold GetRouteForInbound. destruct (route_scan _ _ _ _).1; [done|].
  by intros [= <-].
Qed.

Lemma GetProvidersByName_error m visit pattern e :
  GetProvidersByName m visit pattern = Err e → e = ErrNoProvidersMatching pattern.
Proof.
  unfold GetProvidersByName. destruct (providers m !! pattern); [done|].
  case_bool_decide; [|done]. by intros [= <-].
Qed.

Lemma GetProvidersByName_nonempty m visit pattern ps :
  GetProvidersByName m visit pattern = Ok ps → ps ≠ [].
Proof.
  unfold GetProvidersByName. destruct (providers m !! pattern).
  { by intros [= <-]. }
  case_bool_decide as Hlen; [done|]. intros [= <-] Hnil.
  apply Hlen. apply (f_equal length) in Hnil. by rewrite length_fmap in Hnil.
Qed.

Lemma roundRobin_error lb ps lb' e :
  roundRobin lb ps = (lb', Err e) → e = ErrPanic.
Proof.
  unfold roundRobin. destruct (_ || _); [by intros [= _ <-]|].
  destruct (ps !! _); [done|]. by intros [= _ <-].
Qed.

Lemma weightedRandom_error ps rnd e :
  weightedRandom ps rnd = Err e → e = ErrPanic.
Proof.
  unfold weightedRandom. repeat case_match; try done; by intros [= <-].
Qed.

Lemma priority_error ps e : priority ps = Err e → e = ErrPanic.
Proof. unfold priority. case_match; [|done]. by intros [= <-]. Qed.

Lemma failover_error lb ps e : failover lb ps = Err e → e = ErrPanic.
Proof.
  unfold failover. repeat case_match; try done; by intros [= <-].
Qed.

Lemma SelectProvider_error lb ps mode rnd lb' e :
  ps ≠ [] →
  SelectProvider lb ps mode rnd = (lb', Err e) →
  e = ErrNoHealthyProviders ∨ e = ErrPanic.
Proof.
  intros Hps. unfold SelectProvider.
  case_bool_decide as Hlen.
  { by destruct ps. }
  case_bool_decide; [intros [= _ <-]; by left|].
  repeat case_bool_decide; intros Hsel; right.
  - by eapply roundRobin_error.
  - injection Hsel as _ Hsel. by eapply weightedRandom_error.
  - injection Hsel as _ Hsel. by eapply priority_error.
  - injection Hsel as _ Hsel. by eapply failover_error.
  - by eapply roundRobin_error.
Qed.

Lemma getAvailableDID_error db name draw1 draw2 e :
  getAvailableDID db name draw1 draw2 = Err e → e = ErrNoAvailableDIDs ErrNoRows.
Proof.
  unfold getAvailableDID.
  destruct (first_at_random _ draw1); [done|].
  destruct (first_at_random _ draw2) as [did|e'] eqn:Hany; [done|].
  unfold first_at_random in Hany. destruct (_ !! _) in Hany; [done|].
  injection Hany as <-. by intros [= <-].
Qed.

(** C3 (amended): [ProcessIncomingCall] does not look the call-id up in the
    ledger.  Its result, the store and the load balancer it leaves are the
    same whatever the two ledger indices hold, so a call-id that is already
    present is handled as a new one.  With the database statements succeeding
    the call fails only in these ways, none of which depends on the call-id:
    no active route for the inbound peer; no peer matching the intermediate or
    the final name of the route found; no healthy peer among those matched; a
    run-time panic inside the selection of a peer; no free DID.  A failure
    leaves the ledger as it was.  When the call succeeds the ledger holds
    under that call-id the single record of the new call, [ACTIVE] at step
    [S1_TO_S2], indexed by the DID of the response. *)
Theorem ProcessIncomingCall_ignores_ledger
    (st : State) (calls : gmap string CallRecord) (index : gmap string string)
    (callID ani dnis inb : string) (env : IncomingEnv) :
  let st' := mkState (mkRouter (providerMgr (rtr st)) (loadBalancer (rtr st)) calls index)
                     (store st) in
  let out := ProcessIncomingCall st callID ani dnis inb env in
  let out' := ProcessIncomingCall st' callID ani dnis inb env in
  out'.2 = out.2 ∧
  store out'.1 = store out.1 ∧
  loadBalancer (rtr out'.1) = loadBalancer (rtr out.1) ∧
  (∀ e, out'.2 = Err e →
        activeCalls (rtr out'.1) = calls ∧ didToCall (rtr out'.1) = index) ∧
  (∀ e, out'.2 = Err e →
        e = ErrNoRouteForInbound inb (ErrNoActiveRoute inb)
        ∨ (∃ route, GetRouteForInbound (visit_routes env) inb = Ok route ∧
                    (e = ErrNoProvidersMatching (IntermediateProvider route)
                     ∨ e = ErrNoProvidersMatching (FinalProvider route)))
        ∨ e = ErrNoHealthyProviders
        ∨ e = ErrPanic
        ∨ (∃ name, e = ErrNoDIDsForProvider name (ErrNoAvailableDIDs ErrNoRows))) ∧
  (∀ resp, out'.2 = Ok resp →
     ∃ record,
       activeCalls (rtr out'.1) = <[callID := record]> calls ∧
       didToCall (rtr out'.1) = <[DIDAssigned resp := callID]> index ∧
       AssignedDID record = DIDAssigned resp ∧
       Status record = "ACTIVE" ∧ CurrentStep record = "S1_TO_S2").
Proof.
  unfold ProcessIncomingCall; simpl.
  destruct (GetRouteForInbound _ _) as [route|e0] eqn:Hroute; simpl.
  2:{ apply GetRouteForInbound_error in Hroute as ->.
      repeat split; try done. intros e [= <-]. by left. }
  destruct (GetProvidersByName _ (visit_intermediate env) _) as [ips|e0] eqn:Hips; simpl.
  2:{ apply GetProvidersByName_error in Hips as ->.
      repeat split; try done. intros e [= <-]. right; left. exists route. auto. }
  apply GetProvidersByName_nonempty in Hips.
  destruct (SelectProvider _ ips _ _) as [lb1 [ip|e0]] eqn:Hsel1; simpl.
  2:{ apply (SelectProvider_error _ _ _ _ _ _ Hips) in Hsel1.
      repeat split; try done. intros e [= <-]. destruct Hsel1; auto. }
  destruct (GetProvidersByName _ (visit_final env) _) as [fps|e0] eqn:Hfps; simpl.
  2:{ apply GetProvidersByName_error in Hfps as ->.
      repeat split; try done. intros e [= <-]. right; left. exists route. auto. }
  apply GetProvidersByName_nonempty in Hfps.
  destruct (SelectProvider lb1 fps _ _) as [lb2 [fp|e0]] eqn:Hsel2; simpl.
  2:{ apply (SelectProvider_error _ _ _ _ _ _ Hfps) in Hsel2.
      repeat split; try done. intros e [= <-]. destruct Hsel2; auto. }
  destruct (getAvailableDID _ _ _ _) as [did|e0] eqn:Hdid; simpl.
  2:{ apply getAvailableDID_error in Hdid as ->.
      repeat split; try done. intros e [= <-]. do 4 right. by eexists. }
  repeat split; try done.
  intros resp [= <-]. eexists. by repeat split.
Qed.

(** ** The cleanup sweep and the hang-up hook *)

Section sweep.

Variable now : Z.








End sweep.




(** ** Exclusivity of the DID assignment *)

Section ledger.

Implicit Types (calls : gmap string CallRecord) (index : gmap string string)
  (pool : gmap string DID).

Lemma ledger_ok_exclusive calls index pool :
  ledger_ok calls index pool → in_use_once calls pool ∧ indices_agree calls index.
Proof.
  intros [Hidx Hrec Huse]. split; [|done].
  intros d Hd. destruct (Huse d Hd) as [c Hc].
  apply Hidx in Hc as Hcall. destruct Hcall as (record & Hcall & Hdid).
  exists c, record. repeat split; try done.
  - by apply (Hrec c record).
  - intros c' record' Hcall' Hdid'.
    assert (index !! d = Some c') as Hc' by (apply Hidx; eauto).
    congruence.
Qed.

Lemma ledger_ok_start calls index pool :
  calls = ∅ → index = ∅ → (∀ d, not_in_use pool d) → ledger_ok calls index pool.
Proof.
  intros -> -> Hfree. split.
  - intros d c. rewrite lookup_empty. split; [done|].
    intros (record & Hcall & _). by rewrite lookup_empty in Hcall.
  - intros c record Hcall. by rewrite lookup_empty in Hcall.
  - intros d (row & Hrow & Huse). apply Hfree in Hrow. congruence.
Qed.

Lemma in_use_mark pool d dest d' :
  in_use pool d' →
  in_use (alter (λ x, mkDID (Number x) (ProviderName x) true (Some dest)) d pool) d'.
Proof.
  intros (row & Hrow & Huse). destruct (decide (d = d')) as [->|Hne].
  - eexists. rewrite lookup_alter_eq, Hrow. simpl. done.
  - exists row. by rewrite lookup_alter_ne.
Qed.

(** Leg 1 on a new call-id and a free DID. *)
Lemma ledger_ok_add calls index pool c d dest record row :
  ledger_ok calls index pool →
  calls !! c = None → pool !! d = Some row → InUse row = false →
  AssignedDID record = d → live record →
  ledger_ok (<[c := record]> calls) (<[d := c]> index)
            (alter (λ x, mkDID (Number x) (ProviderName x) true (Some dest)) d pool).
Proof.
  intros [Hidx Hrec Huse] Hnew Hrow Hfree Hdid Hlive.
  unfold indices_agree in Hidx.
  assert (Hnone : ∀ c' record', calls !! c' = Some record' → AssignedDID record' ≠ d).
  { intros c' record' Hcall' Heq.
    destruct (Hrec _ _ Hcall') as [_ (row' & Hrow' & Huse')].
    rewrite Heq in Hrow'. congruence. }
  split.
  - intros d0 c0. rewrite lookup_insert. case_decide as Hd0; subst.
    + split.
      * intros [= <-]. exists record. by rewrite lookup_insert_eq.
      * intros (record' & Hcall' & Hdid'). rewrite lookup_insert in Hcall'.
        case_decide; [by subst|]. by apply Hnone in Hcall'.
    + rewrite Hidx. split; intros (record' & Hcall' & Hdid').
      * exists record'. rewrite lookup_insert_ne; [done|]. congruence.
      * rewrite lookup_insert in Hcall'. case_decide; [congruence|]. eauto.
  - intros c0 record0. rewrite lookup_insert. case_decide; subst.
    + intros [= <-]. split; [done|]. eexists. rewrite lookup_alter_eq, Hrow. done.
    + intros Hcall0. destruct (Hrec _ _ Hcall0). split; [done|]. by apply in_use_mark.
  - intros d0 (row0 & Hrow0 & Huse0). rewrite lookup_insert. case_decide; [done|].
    rewrite lookup_alter_ne in Hrow0 by done. apply Huse. by exists row0.
Qed.

(** Leg 3: the record changes state and keeps its DID. *)
Lemma ledger_ok_update calls index pool c record record' :
  ledger_ok calls index pool →
  calls !! c = Some record → AssignedDID record' = AssignedDID record → live record' →
  ledger_ok (<[c := record']> calls) index pool.
Proof.
  intros [Hidx Hrec Huse] Hcall Hdid Hlive. unfold indices_agree in Hidx.
  split; [| |done].
  - intros d0 c0. rewrite Hidx. split; intros (record0 & Hcall0 & Hdid0).
    + destruct (decide (c = c0)) as [->|Hne].
      * exists record'. rewrite lookup_insert_eq. split; [done|]. congruence.
      * exists record0. by rewrite lookup_insert_ne.
    + rewrite lookup_insert in Hcall0. case_decide; subst.
      * exists record. split; [done|]. congruence.
      * eauto.
  - intros c0 record0. rewrite lookup_insert. case_decide; subst.
    + intros [= <-]. split; [done|]. rewrite Hdid. by apply (Hrec c0 record).
    + by apply Hrec.
Qed.

(** Leg 5 and the sweep: the record leaves both indices and its DID is set
    free. *)
Lemma ledger_ok_remove calls index pool c record :
  ledger_ok calls index pool →
  calls !! c = Some record →
  ledger_ok (delete c calls) (delete (AssignedDID record) index)
            (alter (λ x, mkDID (Number x) (ProviderName x) false None)
                   (AssignedDID record) pool).
Proof.
  intros [Hidx Hrec Huse] Hcall.
  unfold indices_agree in Hidx.
  assert (Hc : index !! AssignedDID record = Some c) by (apply Hidx; eauto).
  split.
  - intros d0 c0. rewrite lookup_delete. case_decide as Hd0; subst.
    + split; [done|]. intros (record0 & Hcall0 & Hdid0).
      rewrite lookup_delete in Hcall0. case_decide; [done|].
      assert (index !! AssignedDID record = Some c0) by (apply Hidx; eauto).
      congruence.
    + rewrite Hidx. split; intros (record0 & Hcall0 & Hdid0).
      * exists record0. rewrite lookup_delete_ne; [done|]. intros ->. congruence.
      * rewrite lookup_delete in Hcall0. case_decide; [done|]. eauto.
  - intros c0 record0. rewrite lookup_delete. case_decide; [done|].
    intros Hcall0. destruct (Hrec _ _ Hcall0) as [Hlive (row & Hrow & Hin)].
    split; [done|]. exists row. rewrite lookup_alter_ne; [done|].
    intros Heq. assert (index !! AssignedDID record = Some c0) by (apply Hidx; eauto).
    congruence.
  - intros d0 (row0 & Hrow0 & Huse0). rewrite lookup_delete. case_decide; subst.
    + rewrite lookup_alter_eq in Hrow0. destruct (pool !! _); simplify_eq/=.
    + rewrite lookup_alter_ne in Hrow0 by done. apply Huse. by exists row0.
Qed.

Lemma first_at_random_elem rows draw d : first_at_random rows draw = Ok d → d ∈ rows.
Proof.
  unfold first_at_random. destruct (rows !! _) as [d'|] eqn:Hd; [|done].
  intros [= <-]. by eapply list_elem_of_lookup_2.
Qed.

Lemma first_at_random_none rows draw e : first_at_random rows draw = Err e → rows = [].
Proof.
  unfold first_at_random. destruct (rows !! _) eqn:Hd; [done|]. intros _.
  apply lookup_ge_None in Hd. destruct rows as [|r rows]; [done|].
  pose proof (Nat.mod_upper_bound draw (length (r :: rows))) as Hlt.
  simpl in *. lia.
Qed.

Lemma free_numbers_elem pool cond d :
  d ∈ free_numbers pool cond ↔
  ∃ row, pool !! d = Some row ∧ InUse row = false ∧ cond row = true.
Proof.
  unfold free_numbers. rewrite list_elem_of_fmap. split.
  - intros ([d' row] & -> & Hin). apply elem_of_map_to_list in Hin.
    apply map_lookup_filter_Some in Hin as [Hrow [Hfree Hcond]]. eauto.
  - intros (row & Hrow & Hfree & Hcond). exists (d, row). split; [done|].
    apply elem_of_map_to_list, map_lookup_filter_Some. eauto.
Qed.

Lemma getAvailableDID_free db name draw1 draw2 d :
  getAvailableDID db name draw1 draw2 = Ok d →
  ∃ row, dids db !! d = Some row ∧ InUse row = false.
Proof.
  unfold getAvailableDID.
  destruct (first_at_random _ draw1) as [d1|e1] eqn:H1.
  - intros [= <-]. apply first_at_random_elem, free_numbers_elem in H1.
    destruct H1 as (row & ? & ? & _). eauto.
  - destruct (first_at_random _ draw2) as [d2|e2] eqn:H2; [|done].
    intros [= <-]. apply first_at_random_elem, free_numbers_elem in H2.
    destruct H2 as (row & ? & ? & _). eauto.
Qed.

End ledger.

Section engine_invariant.

Abbreviation state_ok := (state_ok_of ledger_ok).

Lemma ProcessIncomingCall_ok st callID ani dnis inb env :
  state_ok st → activeCalls (rtr st) !! callID = None →
  state_ok (ProcessIncomingCall st callID ani dnis inb env).1.
Proof.
  intros Hok Hnew. unfold ProcessIncomingCall.
  destruct (GetRouteForInbound _ _) as [route|e]; simpl; [|done].
  destruct (GetProvidersByName _ (visit_intermediate env) _) as [ips|e]; simpl; [|done].
  destruct (SelectProvider _ ips _ _) as [lb1 [ip|e]]; simpl; [|done].
  destruct (GetProvidersByName _ (visit_final env) _) as [fps|e]; simpl; [|done].
  destruct (SelectProvider lb1 fps _ _) as [lb2 [fp|e]]; simpl; [|done].
  destruct (getAvailableDID _ _ _ _) as [did|e] eqn:Hdid; simpl; [|done].
  apply getAvailableDID_free in Hdid as (row & Hrow & Hfree).
  unfold state_ok_of; simpl.
  assert (Hrecs : ∀ db record, dids (storeCallRecord db record) = dids db).
  { intros db record. unfold storeCallRecord. by destruct (call_records db !! _). }
  rewrite Hrecs. simpl.
  eapply ledger_ok_add; eauto. by left.
Qed.

Lemma ProcessReturnCall_ok st ani2 did provider sourceIP :
  state_ok st → state_ok (ProcessReturnCall st ani2 did provider sourceIP).1.
Proof.
  intros Hok. unfold ProcessReturnCall.
  destruct (didToCall _ !! did) as [callID|]; simpl; [|done].
  destruct (activeCalls _ !! callID) as [record|] eqn:Hcall; simpl; [|done].
  destruct (GetProvider _ _) as [p|e]; simpl; [|done].
  destruct (verifyProviderIP _ _); simpl; [done|].
  unfold state_ok_of; simpl.
  eapply ledger_ok_update; eauto. by right.
Qed.

Lemma find_call_in_ledger r visit callID ani dnis c record :
  visits (activeCalls r) visit →
  find_call r visit callID ani dnis = Some (c, record) →
  activeCalls r !! c = Some record.
Proof.
  intros Hvisit. unfold find_call.
  destruct (activeCalls r !! callID) as [record0|] eqn:Hcall.
  - by intros [= <- <-].
  - destruct (list_find _ visit) as [[i [c' record']]|] eqn:Hfind; [|done].
    intros [= <- <-]. apply list_find_Some in Hfind as (Hi & _).
    apply (visits_elem _ _ _ _ Hvisit). by eapply list_elem_of_lookup_2.
Qed.

Lemma ProcessFinalCall_ok st callID ani dnis provider sourceIP env :
  state_ok st → visits (activeCalls (rtr st)) (visit_calls env) →
  state_ok (ProcessFinalCall st callID ani dnis provider sourceIP env).1.
Proof.
  intros Hok Hvisit. unfold ProcessFinalCall.
  destruct (find_call _ _ _ _ _) as [[c record]|] eqn:Hfind; simpl; [|done].
  apply (find_call_in_ledger _ _ _ _ _ _ _ Hvisit) in Hfind.
  destruct (GetProvider _ _) as [p|e]; simpl; [|done].
  destruct (verifyProviderIP _ _); simpl; [done|].
  unfold state_ok_of; simpl.
  by apply ledger_ok_remove.
Qed.

Lemma cleanup_one_ok now st c record :
  state_ok st → activeCalls (rtr st) !! c = Some record →
  state_ok (cleanup_one now st (c, record)).
Proof.
  intros Hok Hcall. unfold cleanup_one. case_bool_decide; [|done].
  unfold state_ok_of; simpl. by apply ledger_ok_remove.
Qed.

Lemma cleanup_one_other now st c record c' :
  c ≠ c' →
  activeCalls (rtr (cleanup_one now st (c, record))) !! c' = activeCalls (rtr st) !! c'.
Proof.
  intros Hne. unfold cleanup_one. case_bool_decide; [|done].
  simpl. by rewrite lookup_delete_ne.
Qed.

Lemma sweep_ok now visit st :
  state_ok st → NoDup visit.*1 →
  (∀ c record, (c, record) ∈ visit → activeCalls (rtr st) !! c = Some record) →
  state_ok (cleanupStaleCalls st visit now).
Proof.
  unfold cleanupStaleCalls. revert st.
  induction visit as [|[c record] rest IH]; intros st Hok Hnodup Hin; cbn [foldl];
    [done|].
  apply NoDup_cons in Hnodup as [Hc Hnodup].
  apply IH; [|done|].
  - apply cleanup_one_ok; [done|]. apply Hin. left.
  - intros c' record' Hin'. rewrite cleanup_one_other.
    + apply Hin. by right.
    + intros ->. apply Hc. apply list_elem_of_fmap. by exists (c', record').
Qed.

Lemma cleanupStaleCalls_ok st visit now :
  state_ok st → visits (activeCalls (rtr st)) visit →
  state_ok (cleanupStaleCalls st visit now).
Proof.
  intros Hok Hvisit. apply sweep_ok; [done| |].
  - unfold visits in Hvisit. rewrite Hvisit. apply NoDup_fst_map_to_list.
  - intros c record. by apply (visits_elem _ _ _ _ Hvisit).
Qed.

Lemma reachable_ok st0 st :
  initial st0 → reachable new_call_id st0 st → state_ok st.
Proof.
  intros (Hcalls & Hindex & Hfree) Hreach. induction Hreach as [|st o Hreach IH Henv Hnew].
  - by apply ledger_ok_start.
  - destruct o; simpl in *.
    + by apply ProcessIncomingCall_ok.
    + by apply ProcessReturnCall_ok.
    + by apply ProcessFinalCall_ok.
    + by apply cleanupStaleCalls_ok.
Qed.

End engine_invariant.

Lemma seed_state_initial : initial seed_state.
Proof.
  split; [done|]. split; [done|]. intros d row. simpl. unfold seed_pool.
  rewrite !lookup_insert. repeat case_decide; intros; by simplify_eq.
Qed.

Lemma seed_routes_visit : visits (providerRoutes seed_manager) [("r", route_r)].
Proof.
  unfold visits. simpl. by rewrite map_to_list_insert, map_to_list_empty by done.
Qed.

Lemma seed_peers_visit : visits (providers seed_manager) seed_peers.
Proof.
  unfold visits, seed_peers. simpl.
  by rewrite !map_to_list_insert, map_to_list_empty by done.
Qed.

Lemma seed_env_ok st callID ani dnis inb :
  providerMgr (rtr st) = seed_manager →
  env_ok st (Incoming callID ani dnis inb seed_env).
Proof.
  intros Hmgr. simpl. rewrite Hmgr.
  split; [apply seed_routes_visit|]. split; apply seed_peers_visit.
Qed.

Lemma after_leg1_reachable allowed :
  allowed seed_state (Incoming "C1" "15550000001" "15550000002" "s1" seed_env) →
  reachable allowed seed_state after_leg1.
Proof.
  intros Hallowed.
  apply (reach_run allowed seed_state seed_state
           (Incoming "C1" "15550000001" "15550000002" "s1" seed_env)).
  - apply reach_start.
  - by apply seed_env_ok.
  - exact Hallowed.
Qed.

(** C1, as stated, fails: two entries of leg 1 under the same call-id lead
    from a new router to a state in which DID [18005550001] is in use and
    the DID index sends it to call [C1], while the only record of [C1] holds
    DID [18005550002]. *)
Lemma same_call_id_twice_breaks_exclusivity :
  initial seed_state ∧
  reachable any_op seed_state after_leg1_twice ∧
  ¬ exclusive after_leg1_twice.
Proof.
  split; [apply seed_state_initial|]. split.
  - apply (reach_run any_op seed_state after_leg1
             (Incoming "C1" "15550000001" "15550000002" "s1" seed_env)).
    + by apply after_leg1_reachable.
    + by apply seed_env_ok.
    + done.
  - intros [_ Hidx].
    destruct (proj1 (Hidx "18005550001" "C1")) as (record & Hcall & Hdid).
    + by vm_compute.
    + assert (AssignedDID <$> activeCalls (rtr after_leg1_twice) !! "C1"
              = Some "18005550002") as Hnow by (by vm_compute).
      rewrite Hcall in Hnow. simpl in Hnow. congruence.
Qed.

(** C1 (amended): starting from a new router over a pool in which no DID is
    in use, and with the store executing every statement, in every state
    reached by entries of leg 1, leg 3, leg 5 and the cleanup sweep in which
    leg 1 is entered only with call-ids that the ledger does not hold at that
    moment, a DID in use is the DID of exactly one record of the ledger, that
    record has status [ACTIVE] or [RETURNED_FROM_S3], and the two indices
    agree: [didToCall] sends [d] to [c] exactly when [activeCalls] holds a
    record under [c] whose DID is [d]. *)
Theorem exclusive_on_new_call_ids (st0 st : State) :
  initial st0 → reachable new_call_id st0 st → exclusive st.
Proof.
  intros Hinit Hreach.
  by apply ledger_ok_exclusive, (reachable_ok st0 st).
Qed.

Lemma exclusive_on_new_call_ids_witness : exclusive after_leg1.
Proof.
  apply (exclusive_on_new_call_ids seed_state after_leg1).
  - apply seed_state_initial.
  - apply after_leg1_reachable. by vm_compute.
Defined.

(** ** Load balancer: success rate and health *)

Section stats.

Lemma Qltb_lt x y : Qltb x y = true ↔ (x < y)%Q.
Proof.
  unfold Qltb. rewrite negb_true_iff. split.
  - intros Hle. apply Qnot_le_lt. intros Hyx. apply Qle_bool_iff in Hyx. congruence.
  - intros Hlt. destruct (Qle_bool y x) eqn:Hle; [|done].
    apply Qle_bool_iff in Hle. by apply Qlt_not_le in Hlt.
Qed.

(** The rate is below fifty exactly when more than half the calls failed. *)
Lemma rate_below_half total failed :
  0 < total →
  (inject_Z (total - failed) / inject_Z total * 100 < 50)%Q ↔ total < 2 * failed.
Proof.
  intros Hpos. destruct total as [|t|t]; try lia.
  unfold Qlt, Qdiv, Qmult, Qinv, inject_Z. simpl.
  rewrite ?Pos.mul_1_r, ?Z.mul_1_r, ?Pos2Z.inj_mul. lia.
Qed.

Lemma bump_stats_spec stats ok duration now :
  0 <= FailedCalls stats <= TotalCalls stats → TotalCalls stats < max_int64 →
  let stats' := bump_stats stats ok duration now in
  TotalCalls stats' = TotalCalls stats + 1 ∧
  FailedCalls stats' = (if ok then FailedCalls stats else FailedCalls stats + 1) ∧
  SuccessRate stats'
    = (inject_Z (TotalCalls stats' - FailedCalls stats') / inject_Z (TotalCalls stats')
       * 100)%Q ∧
  IsHealthy stats'
    = (if bool_decide (TotalCalls stats' > 10)
          && bool_decide (TotalCalls stats' < 2 * FailedCalls stats')
       then false else IsHealthy stats).
Proof.
  intros Hsane Hmax. unfold max_int64 in Hmax.
  assert (Ht : wrap64 (TotalCalls stats + 1) = TotalCalls stats + 1).
  { apply wrap64_small. unfold max_int64. lia. }
  assert (Hf : (if ok then FailedCalls stats else wrap64 (FailedCalls stats + 1))
               = (if ok then FailedCalls stats else FailedCalls stats + 1)).
  { destruct ok; [done|]. apply wrap64_small. unfold max_int64. lia. }
  assert (Hd : wrap64 (TotalCalls stats + 1
                       - (if ok then FailedCalls stats else FailedCalls stats + 1))
               = TotalCalls stats + 1
                 - (if ok then FailedCalls stats else FailedCalls stats + 1)).
  { apply wrap64_small. unfold max_int64. destruct ok; lia. }
  assert (Hq : Qltb (inject_Z (TotalCalls stats + 1
                  - (if ok then FailedCalls stats else FailedCalls stats + 1))
                / inject_Z (TotalCalls stats + 1) * 100) 50
               = bool_decide (TotalCalls stats + 1
                  < 2 * (if ok then FailedCalls stats else FailedCalls stats + 1))).
  { pose proof (rate_below_half (TotalCalls stats + 1)
                  (if ok then FailedCalls stats else FailedCalls stats + 1)) as Hhalf.
    destruct (Qltb _ 50) eqn:Hlt; symmetry.
    - apply bool_decide_eq_true_2, Hhalf; [lia|]. by apply Qltb_lt.
    - apply bool_decide_eq_false_2. intros Hfail. apply Hhalf in Hfail; [|lia].
      apply Qltb_lt in Hfail. congruence. }
  unfold bump_stats; simpl. rewrite Ht, Hf, Hd, Hq. done.
Qed.

End stats.

Section stats_runs.

Lemma calls_to_snoc name calls c :
  calls_to name (calls ++ [c])
  = calls_to name calls ++ (if decide (sc_provider c = name) then [c] else []).
Proof.
  unfold calls_to. by rewrite filter_app.
Qed.

Lemma failures_to_snoc name calls c :
  failures_to name (calls ++ [c])
  = failures_to name calls
    ++ (if decide (sc_provider c = name)
        then (if sc_succeeded c then [] else [c]) else []).
Proof.
  unfold failures_to. rewrite calls_to_snoc, filter_app. f_equal.
  destruct (decide _); [|done].
  rewrite filter_cons, filter_nil. destruct (sc_succeeded c); by destruct (decide _).
Qed.

Lemma failures_le_calls name calls :
  (length (failures_to name calls) <= length (calls_to name calls))%nat.
Proof. unfold failures_to. apply length_filter. Qed.

Lemma calls_to_le name calls : (length (calls_to name calls) <= length calls)%nat.
Proof. unfold calls_to. apply length_filter. Qed.

Lemma UpdateStats_all_snoc lb calls c :
  UpdateStats_all lb (calls ++ [c]) = UpdateStats_call (UpdateStats_all lb calls) c.
Proof. unfold UpdateStats_all. by rewrite foldl_app. Qed.

(** The statistics [UpdateStats] starts from for a peer. *)
Lemma stats_before_counts lb calls name :
  counts_calls lb calls name →
  let stats := GetProviderStats lb name in
  TotalCalls stats = Z.of_nat (length (calls_to name calls)) ∧
  FailedCalls stats = Z.of_nat (length (failures_to name calls)).
Proof.
  unfold counts_calls, GetProviderStats.
  destruct (providerStats lb !! name); [done|].
  intros Hnone. unfold failures_to. by rewrite Hnone.
Qed.

Lemma UpdateStats_call_lookup lb c :
  providerStats (UpdateStats_call lb c) !! sc_provider c
  = Some (bump_stats (GetProviderStats lb (sc_provider c))
            (sc_succeeded c) (sc_duration c) (sc_now c)).
Proof.
  unfold UpdateStats_call, UpdateStats, GetProviderStats; simpl.
  by rewrite lookup_insert_eq.
Qed.

Lemma UpdateStats_all_counts calls name :
  Z.of_nat (length calls) <= max_int64 →
  counts_calls (UpdateStats_all loadbalancer.New calls) calls name.
Proof.
  induction calls as [|c calls IH] using rev_ind; intros Hlen.
  - unfold counts_calls. simpl. by rewrite lookup_empty.
  - rewrite length_app in Hlen. simpl in Hlen.
    rewrite UpdateStats_all_snoc. unfold counts_calls.
    destruct (decide (sc_provider c = name)) as [<-|Hne].
    + rewrite UpdateStats_call_lookup.
      destruct (stats_before_counts (UpdateStats_all loadbalancer.New calls) calls
                  (sc_provider c)) as [Ht Hf]; [apply IH; lia|].
      pose proof (failures_le_calls (sc_provider c) calls).
      pose proof (calls_to_le (sc_provider c) calls).
      destruct (bump_stats_spec (GetProviderStats (UpdateStats_all loadbalancer.New calls)
                                   (sc_provider c))
                  (sc_succeeded c) (sc_duration c) (sc_now c))
        as (Ht' & Hf' & _); [lia|lia|].
      rewrite Ht', Hf', Ht, Hf, calls_to_snoc, failures_to_snoc, !length_app.
      destruct (decide (sc_provider c = sc_provider c)); [|done].
      destruct (sc_succeeded c); simpl; lia.
    + unfold UpdateStats_call, UpdateStats; simpl. rewrite lookup_insert_ne by done.
      rewrite calls_to_snoc, failures_to_snoc.
      destruct (decide (sc_provider c = name)); [done|].
      rewrite !app_nil_r. apply IH. lia.
Qed.

End stats_runs.

(** C9: after each call of a sequence of [UpdateStats] calls on a new load
    balancer, the peer of that call has statistics whose total and failed
    counts are those of the calls made for it so far, whose success rate is
    (total - failed) / total * 100 of these counts, whose healthy flag is
    false when total > 10 and the rate is below 50, and whose healthy flag is
    what it was before the call when the rate is at or above 50: [UpdateStats]
    demotes a peer only for a rate below 50. *)
Theorem UpdateStats_rate_and_health (calls : list StatsCall) (c : StatsCall) :
  Z.of_nat (length calls) < max_int64 →
  let before := UpdateStats_all loadbalancer.New calls in
  let after := UpdateStats_all loadbalancer.New (calls ++ [c]) in
  ∃ stats,
    providerStats after !! sc_provider c = Some stats ∧
    TotalCalls stats = Z.of_nat (length (calls_to (sc_provider c) (calls ++ [c]))) ∧
    FailedCalls stats = Z.of_nat (length (failures_to (sc_provider c) (calls ++ [c]))) ∧
    0 < TotalCalls stats ∧
    SuccessRate stats
      = (inject_Z (TotalCalls stats - FailedCalls stats) / inject_Z (TotalCalls stats)
         * 100)%Q ∧
    (TotalCalls stats > 10 → (SuccessRate stats < 50)%Q → IsHealthy stats = false) ∧
    ((50 <= SuccessRate stats)%Q →
     IsHealthy stats = IsHealthy (GetProviderStats before (sc_provider c))).
Proof.
  intros Hlen. simpl. rewrite UpdateStats_all_snoc, UpdateStats_call_lookup.
  eexists. split; [reflexivity|].
  pose proof (UpdateStats_all_counts (calls ++ [c]) (sc_provider c)) as Hcount.
  unfold counts_calls in Hcount.
  rewrite UpdateStats_all_snoc, UpdateStats_call_lookup, length_app in Hcount.
  simpl in Hcount. destruct Hcount as [Ht Hf]; [lia|].
  destruct (stats_before_counts (UpdateStats_all loadbalancer.New calls) calls
              (sc_provider c)) as [Ht0 Hf0].
  { apply UpdateStats_all_counts. lia. }
  pose proof (failures_le_calls (sc_provider c) calls).
  pose proof (calls_to_le (sc_provider c) calls).
  destruct (bump_stats_spec (GetProviderStats (UpdateStats_all loadbalancer.New calls)
                               (sc_provider c))
              (sc_succeeded c) (sc_duration c) (sc_now c))
    as (Ht' & Hf' & Hrate & Hhealthy); [lia|lia|].
  split; [exact Ht|]. split; [exact Hf|]. split; [lia|]. split; [exact Hrate|].
  split.
  - intros Hten Hlow. rewrite Hhealthy.
    rewrite Hrate in Hlow. apply rate_below_half in Hlow; [|lia].
    by rewrite !bool_decide_eq_true_2.
  - intros Hhigh. rewrite Hhealthy.
    rewrite (bool_decide_eq_false_2 (_ < 2 * _)); [by rewrite andb_false_r|].
    intros Hlow. apply rate_below_half in Hlow; [|lia].
    rewrite <- Hrate in Hlow. by apply Qlt_not_le in Hlow.
Qed.

Lemma UpdateStats_rate_and_health_witness :
  Z.of_nat (length eleven_failures) < max_int64 ∧
  ∃ stats,
    providerStats (UpdateStats_all loadbalancer.New (eleven_failures ++ [failed_call]))
      !! "s3a" = Some stats ∧
    TotalCalls stats = 12 ∧ FailedCalls stats = 12 ∧ IsHealthy stats = false.
Proof.
  assert (Hlen : Z.of_nat (length eleven_failures) < max_int64) by (by vm_compute).
  split; [exact Hlen|].
  destruct (UpdateStats_rate_and_health eleven_failures failed_call Hlen)
    as (stats & Hstats & Ht & Hf & _ & Hrate & Hlow & _).
  exists stats. split; [exact Hstats|].
  change (TotalCalls stats = 12) in Ht. change (FailedCalls stats = 12) in Hf.
  split; [exact Ht|]. split; [exact Hf|].
  apply Hlow; [lia|]. rewrite Hrate, Ht, Hf. by vm_compute.
Defined.

(** ** Load balancer: round robin *)

Section round_robin.

Variable providers : list (ref Provider).

Let k : Z := Z.of_nat (length providers).

(** One call, from a cursor that is not negative and not at the end of the
    range of [int]. *)
Lemma roundRobin_step lb :
  providers ≠ [] →
  0 <= cursor lb providers < max_int64 →
  ∃ p,
    providers !! Z.to_nat (cursor lb providers `mod` k) = Some p ∧
    roundRobin lb providers
    = (set_roundRobinIndex lb (slice_key providers) (cursor lb providers + 1), Ok p).
Proof.
  intros Hne Hc. unfold roundRobin. fold (cursor lb providers).
  assert (Hk : 0 < k) by (unfold k; destruct providers; [done|simpl; lia]).
  fold k. rewrite Z.rem_mod_nonneg by lia.
  pose proof (Z.mod_pos_bound (cursor lb providers) k Hk) as Hmod.
  rewrite (bool_decide_eq_false_2 (length providers = 0%nat))
    by (destruct providers; done).
  rewrite (bool_decide_eq_false_2 (_ < 0)) by lia. simpl.
  destruct (providers !! _) as [p|] eqn:Hp.
  - exists p. split; [done|]. rewrite wrap64_small; [done|].
    unfold max_int64 in *. lia.
  - apply lookup_ge_None in Hp. unfold k in *. lia.
Qed.

Lemma cursor_set lb v :
  cursor (set_roundRobinIndex lb (slice_key providers) v) providers = v.
Proof. unfold cursor, set_roundRobinIndex; simpl. by rewrite lookup_insert_eq. Qed.

Lemma cursor_set_other lb v other :
  slice_key other ≠ slice_key providers →
  cursor (set_roundRobinIndex lb (slice_key providers) v) other = cursor lb other.
Proof.
  intros Hne. unfold cursor, set_roundRobinIndex; simpl.
  by rewrite lookup_insert_ne.
Qed.

Lemma roundRobin_times_app a b lb :
  roundRobin_times (a + b) lb providers
  = let '(lb1, r1) := roundRobin_times a lb providers in
    let '(lb2, r2) := roundRobin_times b lb1 providers in
    (lb2, r1 ++ r2).
Proof.
  revert lb. induction a as [|a IH]; intros lb; simpl.
  - by destruct (roundRobin_times b lb providers).
  - destruct (roundRobin lb providers) as [lb1 r]. rewrite IH.
    destruct (roundRobin_times a lb1 providers) as [lb2 rs].
    by destruct (roundRobin_times b lb2 providers).
Qed.

(** [m] calls in a row that do not run past the end of the slice return the
    [m] peers that follow the cursor's position, in order. *)
Lemma roundRobin_times_run m lb :
  0 <= cursor lb providers → cursor lb providers + Z.of_nat m <= max_int64 →
  cursor lb providers `mod` k + Z.of_nat m <= k →
  let out := roundRobin_times m lb providers in
  out.2 = Ok <$> take m (drop (Z.to_nat (cursor lb providers `mod` k)) providers) ∧
  cursor out.1 providers = cursor lb providers + Z.of_nat m ∧
  ∀ other, slice_key other ≠ slice_key providers →
           cursor out.1 other = cursor lb other.
Proof.
  revert lb. induction m as [|m IH]; intros lb Hc Hmax Hrun; simpl.
  - split; [done|]. split; [lia|done].
  - assert (Hne : providers ≠ []).
    { intros Hnil. assert (Hk0 : k = 0) by (unfold k; by rewrite Hnil).
      rewrite Hk0, Z.mod_0_r in Hrun. lia. }
    assert (Hk : 0 < k) by (unfold k; destruct providers; [done|simpl; lia]).
    destruct (roundRobin_step lb Hne) as (p & Hp & Hstep); [lia|].
    rewrite Hstep.
    set (lb1 := set_roundRobinIndex lb (slice_key providers) (cursor lb providers + 1)).
    assert (Hc1 : cursor lb1 providers = cursor lb providers + 1) by apply cursor_set.
    destruct (roundRobin_times m lb1 providers) as [lb2 rs] eqn:Htimes.
    specialize (IH lb1). rewrite Htimes, Hc1 in IH. simpl in *.
    pose proof (Z.mod_pos_bound (cursor lb providers) k Hk) as Hmod.
    destruct m as [|m].
    + simpl in Htimes. injection Htimes as <- <-.
      split.
      * by rewrite (drop_S _ _ _ Hp).
      * split; [rewrite Hc1; lia|]. intros other Hother. by apply cursor_set_other.
    + assert (Hnext : (cursor lb providers + 1) `mod` k
                      = cursor lb providers `mod` k + 1).
      { rewrite Zplus_mod. rewrite (Z.mod_small 1 k) by lia.
        rewrite Z.mod_small; lia. }
      rewrite Hnext in IH. clear Hnext.
      set (i := cursor lb providers `mod` k) in *. clearbody i.
      destruct IH as (Hrs & Hcur & Hoth); [lia|lia|lia|].
      split.
      * rewrite (drop_S _ _ _ Hp). cbn [take fmap list_fmap]. f_equal.
        rewrite Hrs. do 3 f_equal. lia.
      * split; [lia|]. intros other Hother. rewrite Hoth by done.
        by apply cursor_set_other.
Qed.

(** One round: as many calls as the slice has peers return every peer of the
    slice once. *)
Lemma roundRobin_times_round lb :
  providers ≠ [] →
  0 <= cursor lb providers → cursor lb providers + k <= max_int64 →
  let out := roundRobin_times (length providers) lb providers in
  out.2 ≡ₚ Ok <$> providers ∧
  cursor out.1 providers = cursor lb providers + k ∧
  ∀ other, slice_key other ≠ slice_key providers →
           cursor out.1 other = cursor lb other.
Proof.
  intros Hne Hc Hmax.
  assert (Hk : 0 < k) by (unfold k; destruct providers; [done|simpl; lia]).
  pose proof (Z.mod_pos_bound (cursor lb providers) k Hk) as Hmod.
  set (i := Z.to_nat (cursor lb providers `mod` k)).
  assert (Hsplit : length providers = (length providers - i + i)%nat)
    by (unfold i, k in *; lia).
  cbv zeta.
  replace (roundRobin_times (length providers) lb providers)
    with (roundRobin_times (length providers - i + i) lb providers)
    by (by rewrite <- Hsplit).
  rewrite roundRobin_times_app.
  destruct (roundRobin_times_run (length providers - i) lb) as (Hr1 & Hc1 & Ho1);
    [lia|unfold i, k in *; lia|unfold i, k in *; lia|].
  destruct (roundRobin_times (length providers - i) lb providers) as [lb1 r1].
  simpl in Hr1, Hc1, Ho1.
  assert (Hzero : cursor lb1 providers `mod` k = 0).
  { rewrite Hc1. fold i.
    replace (cursor lb providers + Z.of_nat (length providers - i))
      with (cursor lb providers - cursor lb providers `mod` k + 1 * k)
      by (unfold i, k in *; lia).
    rewrite Z_mod_plus_full.
    rewrite Zminus_mod, Z.mod_mod, Z.sub_diag by lia. by rewrite Z.mod_0_l by lia. }
  destruct (roundRobin_times_run i lb1) as (Hr2 & Hc2 & Ho2);
    [lia|unfold i, k in *; lia|unfold i, k in *; lia|].
  destruct (roundRobin_times i lb1 providers) as [lb2 r2].
  simpl in *. rewrite Hzero in Hr2. simpl in Hr2. rewrite drop_0 in Hr2.
  split.
  - rewrite Hr1, Hr2. fold i. rewrite take_ge by (rewrite length_drop; lia).
    rewrite <- fmap_app. apply fmap_Permutation.
    rewrite Permutation_app_comm. by rewrite take_drop.
  - split; [unfold i, k in *; lia|].
    intros other Hother. rewrite Ho2, Ho1 by done. done.
Qed.

End round_robin.

(** C7, as stated, fails: the cursor belongs to the slice as it is ordered,
    not to the set of candidates.  Over the same three healthy peers, given
    first in the order a, b, c, then a, c, b, then a, b, c again, three
    selections return peer a twice and peer c not at all. *)
Lemma roundRobin_cursor_follows_slice_order :
  candidates_abc ≡ₚ candidates_acb ∧
  slice_key candidates_abc ≠ slice_key candidates_acb ∧
  three_selections = [Ok peer_s3a; Ok peer_s3a; Ok peer_s3b].
Proof.
  split; [|split].
  - unfold candidates_abc, candidates_acb. apply perm_skip, perm_swap.
  - by vm_compute.
  - by vm_compute.
Qed.

(** C7 (amended): for a slice of k >= 1 candidates, k * n selections in a row
    with that same slice (the same provider objects in the same order)
    return each of its peers exactly n times: the results are a rearrangement
    of n copies of the slice.  The cursor is kept per slice as ordered, that
    is per sequence of provider addresses: these selections move the cursor
    of that sequence forward by k * n and leave the cursor of every other
    sequence, also of a reordering of the same candidates, where it was. *)
Theorem roundRobin_fair_per_slice
    (lb : LoadBalancer) (providers : list (ref Provider)) (n : nat) :
  providers ≠ [] →
  0 <= cursor lb providers →
  cursor lb providers + Z.of_nat (length providers * n) <= max_int64 →
  let out := roundRobin_times (length providers * n) lb providers in
  out.2 ≡ₚ Ok <$> concat (replicate n providers) ∧
  cursor out.1 providers = cursor lb providers + Z.of_nat (length providers * n) ∧
  ∀ other, slice_key other ≠ slice_key providers →
           cursor out.1 other = cursor lb other.
Proof.
  intros Hne. revert lb. induction n as [|n IH]; intros lb Hc Hmax; cbv zeta.
  - rewrite Nat.mul_0_r. simpl. split; [done|]. split; [lia|done].
  - replace (length providers * S n)%nat
      with (length providers + length providers * n)%nat in * by lia.
    rewrite roundRobin_times_app.
    destruct (roundRobin_times_round providers lb Hne) as (Hr1 & Hc1 & Ho1); [lia|lia|].
    destruct (roundRobin_times (length providers) lb providers) as [lb1 r1].
    simpl in Hr1, Hc1, Ho1.
    destruct (IH lb1) as (Hr2 & Hc2 & Ho2); [lia|lia|].
    destruct (roundRobin_times (length providers * n) lb1 providers) as [lb2 r2].
    simpl in *. split; [|split].
    + rewrite Hr1, Hr2. by rewrite fmap_app.
    + lia.
    + intros other Hother. by rewrite Ho2, Ho1.
Qed.

Lemma roundRobin_fair_per_slice_witness :
  (roundRobin_times 6 loadbalancer.New candidates_abc).2
  ≡ₚ Ok <$> (candidates_abc ++ candidates_abc) ∧
  cursor (roundRobin_times 6 loadbalancer.New candidates_abc).1 candidates_acb = 0.
Proof.
  destruct (roundRobin_fair_per_slice loadbalancer.New candidates_abc 2)
    as (Hr & _ & Ho); [done|by vm_compute|by vm_compute|].
  split.
  - exact Hr.
  - apply (Ho candidates_acb). by vm_compute.
Defined.

(** ** Concurrent acquisition of DIDs *)

Import acquire.

Section pool_counts.

Implicit Types (pool : gmap string DID).

Lemma free_count_numbers pool :
  free_count pool = length (free_numbers pool (λ _, true)).
Proof.
  unfold free_count, free_numbers. rewrite length_fmap, length_map_to_list.
  f_equal. apply map_filter_ext. intros d row _. simpl.
  split; [done|by intros [? _]].
Qed.

Lemma alter_as_insert pool d row (f : DID → DID) :
  pool !! d = Some row → alter f d pool = <[d := f row]> pool.
Proof.
  intros Hrow. apply map_eq. intros d'. destruct (decide (d = d')) as [<-|Hne].
  - by rewrite lookup_alter_eq, lookup_insert_eq, Hrow.
  - by rewrite lookup_alter_ne, lookup_insert_ne.
Qed.

(** Marking a free DID takes one from the number of free DIDs. *)
Lemma free_count_mark pool d dest row :
  pool !! d = Some row → InUse row = false →
  (free_count (alter (λ x, mkDID (Number x) (ProviderName x) true (Some dest)) d pool)
   + 1 = free_count pool)%nat.
Proof.
  intros Hrow Hfree. unfold free_count.
  rewrite (alter_as_insert _ _ row) by done.
  rewrite map_filter_insert_False by done.
  rewrite map_filter_delete, map_size_delete.
  assert (Hin : filter (λ kv : string * DID, InUse kv.2 = false) pool !! d = Some row)
    by (by apply map_lookup_filter_Some).
  rewrite Hin.
  assert (size (filter (λ kv : string * DID, InUse kv.2 = false) pool) ≠ 0%nat).
  { intros Hzero. apply map_size_empty_iff in Hzero. rewrite Hzero in Hin.
    by rewrite lookup_empty in Hin. }
  lia.
Qed.

Lemma free_count_pos pool d row :
  pool !! d = Some row → InUse row = false → free_count pool ≠ 0%nat.
Proof.
  intros Hrow Hfree. pose proof (free_count_mark pool d "" row Hrow Hfree). lia.
Qed.

(** [getAvailableDID] fails only on a pool without a free DID. *)
Lemma getAvailableDID_none db name draw1 draw2 e :
  getAvailableDID db name draw1 draw2 = Err e → free_count (dids db) = 0%nat.
Proof.
  unfold getAvailableDID.
  destruct (first_at_random _ draw1) as [d1|e1]; [done|].
  destruct (first_at_random _ draw2) as [d2|e2] eqn:H2; [done|].
  intros _. apply first_at_random_none in H2.
  by rewrite free_count_numbers, H2.
Qed.

End pool_counts.

Section workers.

Implicit Types (w : Worker) (ws pre post : list Worker).

Lemma holders_mid pre w post :
  length (filter (λ w, in_lock w = true) (pre ++ w :: post))
  = (length (filter (λ w, in_lock w = true) pre)
     + (if in_lock w then 1 else 0)
     + length (filter (λ w, in_lock w = true) post))%nat.
Proof.
  rewrite filter_app, filter_cons, length_app.
  destruct (in_lock w); destruct (decide _); try done; simpl; lia.
Qed.

Lemma got_mid pre w post :
  omap got (pre ++ w :: post)
  = omap got pre ++ from_option (λ d, [d]) [] (got w) ++ omap got post.
Proof. rewrite omap_app. f_equal. simpl. by destruct (got w). Qed.

Lemma elem_of_mid {A} (x y : A) (l1 l2 : list A) :
  x ∈ l1 ++ y :: l2 ↔ x = y ∨ x ∈ l1 ++ l2.
Proof. rewrite !elem_of_app, elem_of_cons. tauto. Qed.

Lemma holder_is_alone pre w post w0 :
  (length (filter (λ w, in_lock w = true) (pre ++ w :: post)) <= 1)%nat →
  in_lock w = true → w0 ∈ pre ++ post → in_lock w0 = false.
Proof.
  rewrite holders_mid. intros Hone Hw Hin. rewrite Hw in Hone.
  destruct (in_lock w0) eqn:Hw0; [|done].
  apply elem_of_app in Hin as [Hin|Hin].
  - assert (w0 ∈ filter (λ w, in_lock w = true) pre) as Hf
      by (by apply list_elem_of_filter).
    destruct (filter _ pre); [by apply elem_of_nil in Hf|simpl in Hone; lia].
  - assert (w0 ∈ filter (λ w, in_lock w = true) post) as Hf
      by (by apply list_elem_of_filter).
    destruct (filter _ post); [by apply elem_of_nil in Hf|simpl in Hone; lia].
Qed.

Lemma start_workers pool asks :
  Forall (λ w, w_pc w = AtLock) (workers (start pool asks)).
Proof. simpl. apply Forall_fmap. by apply Forall_true. Qed.

Lemma at_lock_no_holder ws :
  Forall (λ w, w_pc w = AtLock) ws →
  filter (λ w, in_lock w = true) ws = [] ∧ omap got ws = [].
Proof.
  induction 1 as [|w ws Hw _ [IH1 IH2]]; [done|].
  split.
  - rewrite filter_cons, IH1. rewrite decide_False; [done|].
    unfold in_lock. by rewrite Hw.
  - change (omap got (w :: ws)) with (from_option (λ d, [d]) [] (got w) ++ omap got ws)
      || (cbn [omap list_omap]; fold (omap got ws)).
    rewrite IH2. unfold got. by rewrite Hw.
Qed.

Lemma remaining_start asks pool :
  work_left (start pool asks) = (4 * length asks)%nat.
Proof.
  unfold work_left. simpl. induction asks as [|a asks IH]; [done|].
  rewrite fmap_cons. cbn [sum_list_with]. rewrite IH. unfold remaining. simpl. lia.
Qed.

Lemma work_left_mid pre w post :
  sum_list_with remaining (pre ++ w :: post)
  = (sum_list_with remaining pre + remaining w + sum_list_with remaining post)%nat.
Proof. rewrite sum_list_with_app. simpl. lia. Qed.

(** Every statement brings its worker nearer to its return. *)
Lemma step_work_left s s' : step s s' → (work_left s' < work_left s)%nat.
Proof.
  unfold work_left.
  destruct 1 as [s pre w post Hws Hpc Hmu | s pre w post d1 d2 Hws Hpc
                | s pre w post did Hws Hpc | s pre w post res Hws Hpc];
    simpl; rewrite Hws, !work_left_mid; unfold remaining; simpl; rewrite Hpc.
  - lia.
  - destruct (getAvailableDID _ _ _ _); lia.
  - lia.
  - lia.
Qed.

Lemma step_workers_length s s' : step s s' → length (workers s') = length (workers s).
Proof.
  destruct 1 as [s pre w post Hws Hpc Hmu | s pre w post d1 d2 Hws Hpc
                | s pre w post did Hws Hpc | s pre w post res Hws Hpc];
    simpl; rewrite Hws, !length_app; done.
Qed.

End workers.

Section interleavings.

Variable m : nat.

Lemma run_ok_start pool asks :
  free_count pool = m → run_ok m (start pool asks).
Proof.
  intros Hm.
  destruct (at_lock_no_holder _ (start_workers pool asks)) as [Hholders Hgot].
  pose proof (start_workers pool asks) as Hall.
  rewrite Forall_forall in Hall.
  split.
  - by rewrite Hholders.
  - rewrite Hgot. apply NoDup_nil_2.
  - intros d. rewrite Hgot. by intros ?%elem_of_nil.
  - intros w d Hw Hpc. apply Hall in Hw. congruence.
  - rewrite Hgot. simpl. lia.
  - intros w Hw Hno. apply Hall in Hw. unfold no_did in Hno. by rewrite Hw in Hno.
Qed.

(** A worker that does not change what it has got leaves the list of DIDs
    got as it is. *)
Lemma got_unchanged pre w w' post :
  got w' = got w → omap got (pre ++ w' :: post) = omap got (pre ++ w :: post).
Proof. intros Hgot. by rewrite !got_mid, Hgot. Qed.

Lemma run_ok_lock s pre w post :
  run_ok m s → workers s = pre ++ w :: post → w_pc w = AtLock → mu s = false →
  run_ok m (mkSys true (db s) (pre ++ at_pc w AtSelect :: post)).
Proof.
  intros [Hlock Hnodup Hmarked Hsel Hcount Hno] Hws Hpc Hmu.
  rewrite Hws in *. rewrite Hmu in Hlock.
  assert (Hgot : omap got (pre ++ at_pc w AtSelect :: post)
                 = omap got (pre ++ w :: post)).
  { apply got_unchanged. unfold got. simpl. by rewrite Hpc. }
  split; simpl; rewrite ?Hgot; try done.
  - rewrite holders_mid in *. unfold in_lock in *. simpl. rewrite Hpc in Hlock. lia.
  - intros w0 d Hw0 Hpc0. apply elem_of_mid in Hw0 as [->|Hw0]; [done|].
    apply (Hsel w0 d); [|done]. apply elem_of_mid. by right.
  - intros w0 Hw0 Hno0. apply elem_of_mid in Hw0 as [->|Hw0]; [done|].
    apply (Hno w0); [|done]. apply elem_of_mid. by right.
Qed.

Lemma run_ok_select s pre w post draw1 draw2 :
  run_ok m s → workers s = pre ++ w :: post → w_pc w = AtSelect →
  run_ok m (mkSys (mu s) (db s)
              (pre ++ at_pc w
                        match getAvailableDID (db s) (w_provider w) draw1 draw2 with
                        | Ok did => AtMark did
                        | Err _ => AtUnlock None
                        end :: post)).
Proof.
  intros [Hlock Hnodup Hmarked Hsel Hcount Hno] Hws Hpc.
  rewrite Hws in *.
  set (w' := at_pc w _).
  assert (Hgot : omap got (pre ++ w' :: post) = omap got (pre ++ w :: post)).
  { apply got_unchanged. unfold got, w'. simpl. rewrite Hpc.
    by destruct (getAvailableDID _ _ _ _). }
  split; simpl; rewrite ?Hgot; try done.
  - rewrite holders_mid in *. unfold in_lock in *. rewrite Hpc in Hlock.
    unfold w'. simpl. by destruct (getAvailableDID _ _ _ _).
  - intros w0 d Hw0 Hpc0. apply elem_of_mid in Hw0 as [->|Hw0].
    + unfold w' in Hpc0. simpl in Hpc0.
      destruct (getAvailableDID _ _ _ _) as [did|e] eqn:Hdid; [|done].
      injection Hpc0 as <-. by apply getAvailableDID_free in Hdid.
    + apply (Hsel w0 d); [|done]. apply elem_of_mid. by right.
  - intros w0 Hw0 Hno0. apply elem_of_mid in Hw0 as [->|Hw0].
    + unfold w', no_did in Hno0. simpl in Hno0.
      destruct (getAvailableDID _ _ _ _) as [did|e] eqn:Hdid; [done|].
      by apply getAvailableDID_none in Hdid.
    + apply (Hno w0); [|done]. apply elem_of_mid. by right.
Qed.

Lemma run_ok_mark s pre w post did :
  run_ok m s → workers s = pre ++ w :: post → w_pc w = AtMark did →
  run_ok m (mkSys (mu s) (markDIDInUse (db s) did (w_dnis w))
              (pre ++ at_pc w (AtUnlock (Some did)) :: post)).
Proof.
  intros [Hlock Hnodup Hmarked Hsel Hcount Hno] Hws Hpc.
  rewrite Hws in *.
  destruct (Hsel w did) as (row & Hrow & Hfree); [apply elem_of_mid; by left|done|].
  assert (Hw : in_lock w = true) by (unfold in_lock; by rewrite Hpc).
  assert (Hone : (length (filter (λ w, in_lock w = true) (pre ++ w :: post)) <= 1)%nat)
    by (rewrite Hlock; destruct (mu s); lia).
  assert (Hold : omap got (pre ++ w :: post) = omap got pre ++ omap got post).
  { rewrite got_mid. unfold got. by rewrite Hpc. }
  assert (Hnew : omap got (pre ++ at_pc w (AtUnlock (Some did)) :: post)
                 ≡ₚ did :: omap got (pre ++ w :: post)).
  { rewrite got_mid, Hold. simpl. by rewrite <- Permutation_middle. }
  assert (Hfresh : did ∉ omap got (pre ++ w :: post)).
  { intros Hin. destruct (Hmarked _ Hin) as (row' & Hrow' & Huse'). congruence. }
  split; simpl.
  - rewrite holders_mid in *. unfold in_lock in *. simpl. by rewrite Hpc in Hlock.
  - rewrite Hnew. by apply NoDup_cons.
  - intros d. rewrite Hnew. intros [->|Hd]%elem_of_cons.
    + eexists. rewrite lookup_alter_eq, Hrow. done.
    + by apply in_use_mark, Hmarked.
  - intros w0 d Hw0 Hpc0. apply elem_of_mid in Hw0 as [->|Hw0]; [done|].
    pose proof (holder_is_alone _ _ _ _ Hone Hw Hw0) as Hout.
    unfold in_lock in Hout. by rewrite Hpc0 in Hout.
  - rewrite Hnew. simpl.
    pose proof (free_count_mark (dids (db s)) did (w_dnis w) row Hrow Hfree). lia.
  - intros w0 Hw0 Hno0. apply elem_of_mid in Hw0 as [->|Hw0]; [done|].
    exfalso. apply (free_count_pos _ _ _ Hrow Hfree).
    apply (Hno w0); [|done]. apply elem_of_mid. by right.
Qed.

Lemma run_ok_unlock s pre w post res :
  run_ok m s → workers s = pre ++ w :: post → w_pc w = AtUnlock res →
  run_ok m (mkSys false (db s) (pre ++ at_pc w (Returned res) :: post)).
Proof.
  intros [Hlock Hnodup Hmarked Hsel Hcount Hno] Hws Hpc.
  rewrite Hws in *.
  assert (Hgot : omap got (pre ++ at_pc w (Returned res) :: post)
                 = omap got (pre ++ w :: post)).
  { apply got_unchanged. unfold got. simpl. by rewrite Hpc. }
  split; simpl; rewrite ?Hgot; try done.
  - rewrite holders_mid in *. unfold in_lock in *. simpl. rewrite Hpc in Hlock.
    destruct (mu s); lia.
  - intros w0 d Hw0 Hpc0. apply elem_of_mid in Hw0 as [->|Hw0]; [done|].
    apply (Hsel w0 d); [|done]. apply elem_of_mid. by right.
  - intros w0 Hw0 Hno0. apply elem_of_mid in Hw0 as [->|Hw0].
    + apply (Hno w); [apply elem_of_mid; by left|].
      unfold no_did in *. simpl in Hno0. by rewrite Hpc.
    + apply (Hno w0); [|done]. apply elem_of_mid. by right.
Qed.

Lemma run_ok_step s s' : run_ok m s → step s s' → run_ok m s'.
Proof.
  intros Hok Hstep.
  destruct Hstep as [s pre w post Hws Hpc Hmu | s pre w post d1 d2 Hws Hpc
                    | s pre w post did Hws Hpc | s pre w post res Hws Hpc].
  - by apply run_ok_lock.
  - by apply run_ok_select.
  - by apply run_ok_mark.
  - by apply run_ok_unlock.
Qed.

Lemma run_ok_steps s s' : run_ok m s → steps s s' → run_ok m s'.
Proof. intros Hok Hsteps. induction Hsteps; eauto using run_ok_step. Qed.

(** As long as a call has not returned, some worker can run a statement. *)
Lemma run_ok_progress s : run_ok m s → ¬ all_returned s → ∃ s', step s s'.
Proof.
  intros [Hlock _ _ _ _ _] Hnot.
  destruct (decide (Exists (λ w, in_lock w = true) (workers s))) as [Hin|Hout].
  - apply Exists_exists in Hin as (w & Hw & Hwl).
    apply list_elem_of_split in Hw as (pre & post & Hws).
    unfold in_lock in Hwl. destruct (w_pc w) as [| |did|res|res] eqn:Hpc; try done.
    + eexists. by apply (step_select s pre w post 0 0).
    + eexists. by apply (step_mark s pre w post did).
    + eexists. by apply (step_unlock s pre w post res).
  - apply not_Forall_Exists in Hnot; [|apply _].
    apply Exists_exists in Hnot as (w & Hw & Hret).
    assert (Hwl : in_lock w = false).
    { destruct (in_lock w) eqn:Hwl; [|done]. exfalso. apply Hout.
      apply Exists_exists. eauto. }
    assert (Hnone : filter (λ w, in_lock w = true) (workers s) = []).
    { destruct (filter _ (workers s)) as [|w1 rest] eqn:Hf; [done|]. exfalso.
      assert (Hw1 : w1 ∈ filter (λ w, in_lock w = true) (workers s))
        by (rewrite Hf; left).
      apply list_elem_of_filter in Hw1 as [Hw1l Hw1].
      apply Hout, Exists_exists. eauto. }
    rewrite Hnone in Hlock. simpl in Hlock.
    apply list_elem_of_split in Hw as (pre & post & Hws).
    unfold in_lock in Hwl. unfold returned, compose in Hret.
    destruct (w_pc w) eqn:Hpc; try done.
    eexists. apply (step_lock s pre w post); [done|done|].
    by destruct (mu s).
Qed.

Lemma omap_cons_eq {A B} (f : A → option B) (x : A) (l : list A) :
  omap f (x :: l) = from_option (λ y, [y]) [] (f x) ++ omap f l.
Proof. simpl. by destruct (f x). Qed.

Lemma returned_counts ws :
  Forall (λ w, returned w = true) ws →
  acquired ws = omap got ws ∧
  length ws = (length (omap got ws) + length (filter (λ w, no_did w = true) ws))%nat.
Proof.
  induction 1 as [|w ws Hw _ [IH1 IH2]]; [done|].
  unfold acquired in *. rewrite filter_cons, !omap_cons_eq, IH1, length_app.
  cbn [length]. rewrite IH2.
  unfold returned in Hw.
  assert (Hcases : (∃ did, w_pc w = Returned (Some did)) ∨ w_pc w = Returned None).
  { destruct (w_pc w) as [| | | |[did|]]; try done; eauto. }
  destruct Hcases as [[did Hpc]|Hpc].
  - rewrite decide_False by (unfold no_did; by rewrite Hpc).
    unfold got. rewrite Hpc. simpl. split; [done|lia].
  - rewrite decide_True by (unfold no_did; by rewrite Hpc).
    unfold got. rewrite Hpc. simpl. split; [done|lia].
Qed.

(** When every call has returned, as many have got a DID as the smaller of
    the number of calls and the number of DIDs that were free. *)
Lemma run_ok_final s :
  run_ok m s → all_returned s →
  length (acquired (workers s)) = (length (workers s) `min` m)%nat ∧
  NoDup (acquired (workers s)) ∧
  ∀ d, d ∈ acquired (workers s) → in_use (dids (db s)) d.
Proof.
  intros [Hlock Hnodup Hmarked Hsel Hcount Hno] Hall.
  destruct (returned_counts _ Hall) as [Hacq Hlen].
  rewrite Hacq. split; [|done].
  destruct (filter (λ w, no_did w = true) (workers s)) as [|w0 rest] eqn:Hfail.
  - simpl in Hlen. lia.
  - assert (Hw0 : w0 ∈ filter (λ w, no_did w = true) (workers s))
      by (rewrite Hfail; left).
    apply list_elem_of_filter in Hw0 as [Hno0 Hw0].
    pose proof (Hno w0 Hw0 Hno0). simpl in Hlen. lia.
Qed.

End interleavings.

Section schedules.

Lemma fire_step s i draw1 draw2 s' : fire s i draw1 draw2 = Some s' → step s s'.
Proof.
  unfold fire. destruct (workers s !! i) as [w|] eqn:Hw; [|done].
  assert (Hws : workers s = take i (workers s) ++ w :: drop (S i) (workers s))
    by (by rewrite take_drop_middle).
  destruct (w_pc w) as [| |did|res|res] eqn:Hpc.
  - destruct (mu s) eqn:Hmu; [done|]. intros [= <-]. by apply step_lock.
  - intros [= <-]. by apply (step_select s _ w).
  - intros [= <-]. by apply (step_mark s _ w).
  - intros [= <-]. by apply (step_unlock s _ w).
  - done.
Qed.

Lemma steps_first s1 s2 s3 : step s1 s2 → steps s2 s3 → steps s1 s3.
Proof.
  intros Hstep Hsteps. induction Hsteps as [|s2 s3 s4 _ IH Hlast].
  - eapply steps_step; [apply steps_refl|done].
  - eapply steps_step; [by apply IH|done].
Qed.

Lemma schedule_steps turns s s' : schedule s turns = Some s' → steps s s'.
Proof.
  revert s. induction turns as [|i rest IH]; intros s; simpl.
  - intros [= <-]. apply steps_refl.
  - destruct (fire s i 0 0) as [s1|] eqn:Hfire; [|done].
    intros Hrest. eapply steps_first; [by eapply fire_step|by apply IH].
Qed.

Lemma steps_workers_length s s' : steps s s' → length (workers s') = length (workers s).
Proof.
  induction 1 as [|s1 s2 s3 _ IH Hstep]; [done|].
  by rewrite (step_workers_length _ _ Hstep).
Qed.

Lemma steps_work_left s s' : steps s s' → (work_left s' <= work_left s)%nat.
Proof.
  induction 1 as [|s1 s2 s3 _ IH Hstep]; [done|].
  pose proof (step_work_left _ _ Hstep). lia.
Qed.

End schedules.

(** C2: [N] calls enter the DID acquisition of [ProcessIncomingCall] at the
    same time on a pool with [M] free DIDs, and their statements interleave in
    any order under the router's lock.  Every statement brings its call
    nearer to its return, so each run ends within [4 * N] statements; a run
    is never stuck before all [N] calls have returned; and once they have,
    exactly [min N M] of them have got a DID, these DIDs are pairwise
    distinct and each is in use.  With one free DID and two calls, exactly
    one gets it. *)
Theorem concurrent_acquire_min
    (pool : gmap string DID) (asks : list (string * string)) (s : Sys) :
  steps (start pool asks) s →
  ((work_left s <= 4 * length asks)%nat ∧
   ∀ s', step s s' → (work_left s' < work_left s)%nat) ∧
  (¬ all_returned s → ∃ s', step s s') ∧
  (all_returned s →
   length (acquired (workers s)) = (length asks `min` free_count pool)%nat ∧
   NoDup (acquired (workers s)) ∧
   ∀ d, d ∈ acquired (workers s) → in_use (dids (db s)) d).
Proof.
  intros Hsteps.
  assert (Hok : run_ok (free_count pool) s).
  { eapply run_ok_steps; [|exact Hsteps]. by apply run_ok_start. }
  split; [|split].
  - split; [|apply step_work_left].
    rewrite <- (remaining_start asks pool). by apply steps_work_left.
  - by apply (run_ok_progress (free_count pool)).
  - intros Hall. destruct (run_ok_final _ _ Hok Hall) as (Hlen & Hnodup & Huse).
    split; [|done]. rewrite Hlen, (steps_workers_length _ _ Hsteps). simpl.
    by rewrite length_fmap.
Qed.

Lemma concurrent_acquire_min_witness :
  ∃ s,
    schedule (start last_did_pool two_asks) [0; 1; 0; 0; 0; 1; 1; 1]%nat = None ∧
    schedule (start last_did_pool two_asks) [0; 0; 0; 0; 1; 1; 1]%nat = Some s ∧
    all_returned s ∧
    length (acquired (workers s)) = 1%nat ∧
    acquired (workers s) = ["18005550002"].
Proof.
  eexists. split; [by vm_compute|]. split; [by vm_compute|].
  match goal with
  | |- all_returned ?s ∧ _ =>
      assert (Hsteps : steps (start last_did_pool two_asks) s)
        by (apply (schedule_steps [0; 0; 0; 0; 1; 1; 1]%nat); by vm_compute);
      assert (Hall : all_returned s) by (by repeat constructor);
      destruct (concurrent_acquire_min last_did_pool two_asks s Hsteps)
        as (_ & _ & Hfinal);
      destruct (Hfinal Hall) as (Hlen & _ & _)
  end.
  split; [exact Hall|]. split; [exact Hlen|]. by vm_compute.
Defined.

(** * Further properties of the load balancer *)

Section selectors.

Implicit Types (lb : LoadBalancer) (p q : ref Provider) (l : list (ref Provider)).

Lemma filterHealthyProviders_elem lb l p :
  p ∈ filterHealthyProviders lb l ↔
  p ∈ l ∧ Active (deref p) = true ∧
  match providerStats lb !! Name (deref p) with
  | None => True
  | Some stats =>
      IsHealthy stats = true ∧
      (MaxChannels (deref p) = 0 ∨ ActiveCalls stats < MaxChannels (deref p))
  end.
Proof.
  unfold filterHealthyProviders. rewrite list_elem_of_filter.
  split.
  - intros [Hp Hl]. split; [done|]. apply Is_true_true in Hp.
    apply andb_true_iff in Hp as [Hact Hst]. split; [done|].
    destruct (providerStats lb !! _) as [stats|]; [|done].
    apply andb_true_iff in Hst as [Hh Hc]. split; [done|].
    apply orb_true_iff in Hc as [Hc|Hc]; apply bool_decide_eq_true in Hc; auto.
  - intros (Hl & Hact & Hst). split; [|done]. apply Is_true_true.
    rewrite Hact. simpl. destruct (providerStats lb !! _) as [stats|]; [|done].
    destruct Hst as [Hh [Hc|Hc]]; rewrite Hh; simpl.
    + by rewrite (bool_decide_eq_true_2 _ Hc).
    + rewrite (bool_decide_eq_true_2 (_ < _) Hc). apply orb_true_r.
Qed.

Lemma filterHealthyProviders_selectable lb l p :
  p ∈ filterHealthyProviders lb l → p ∈ l ∧ selectable lb p.
Proof.
  rewrite filterHealthyProviders_elem. intros (Hl & Hact & Hst).
  split; [done|]. split; [done|]. unfold GetProviderStats.
  destruct (providerStats lb !! _) as [stats|]; simpl.
  - destruct Hst as [Hh Hc]. split; [done|]. lia.
  - split; [done|]. lia.
Qed.

Lemma roundRobin_elem lb l lb' p : roundRobin lb l = (lb', Ok p) → p ∈ l.
Proof.
  unfold roundRobin. destruct (_ || _); [done|].
  destruct (l !! _) as [p'|] eqn:Hp; [|done].
  intros [= _ <-]. by eapply list_elem_of_lookup_2.
Qed.

Lemma weighted_scan_elem l r p : weighted_scan l r = Some p → p ∈ l.
Proof.
  revert r. induction l as [|q l IH]; intros r; simpl; [done|].
  case_bool_decide.
  - intros [= <-]. left.
  - intros Hscan. right. eauto.
Qed.

Lemma last_elem {A} (l : list A) (x : A) : last l = Some x → x ∈ l.
Proof.
  induction l as [|y l IH]; [done|]. destruct l as [|z l].
  - intros [= <-]. left.
  - intros Hlast. right. by apply IH.
Qed.

Lemma weightedRandom_elem l rnd p : weightedRandom l rnd = Ok p → p ∈ l.
Proof.
  unfold weightedRandom. case_bool_decide.
  - destruct (Intn _ _) as [i|]; [|done].
    destruct (l !! _) as [p'|] eqn:Hp; [|done].
    intros [= <-]. by eapply list_elem_of_lookup_2.
  - destruct (Intn _ _) as [r|]; [|done].
    destruct (weighted_scan l r) as [p'|] eqn:Hscan.
    + intros [= <-]. by eapply weighted_scan_elem.
    + destruct (last l) as [p'|] eqn:Hlast; [|done].
      intros [= <-]. by apply last_elem.
Qed.

Lemma insert_by_priority_perm p l : insert_by_priority p l ≡ₚ p :: l.
Proof.
  induction l as [|q l IH]; simpl; [done|].
  case_bool_decide; [done|]. rewrite IH. apply perm_swap.
Qed.

Lemma sort_by_priority_perm l : sort_by_priority l ≡ₚ l.
Proof.
  unfold sort_by_priority.
  assert (H : ∀ acc, foldl (λ sorted p, insert_by_priority p sorted) acc l ≡ₚ acc ++ l).
  { induction l as [|p l IH]; intros acc; simpl.
    - by rewrite app_nil_r.
    - rewrite IH, insert_by_priority_perm. simpl. apply Permutation_middle. }
  by rewrite H.
Qed.

Lemma insert_by_priority_head p l :
  head_greatest l → head_greatest (insert_by_priority p l).
Proof.
  destruct l as [|h l]; simpl.
  - intros _ q Hq. apply list_elem_of_singleton in Hq as ->. lia.
  - intros Hh. case_bool_decide as Hgt.
    + intros q Hq. apply elem_of_cons in Hq as [->|Hq]; [lia|].
      specialize (Hh q Hq). lia.
    + intros q Hq. apply elem_of_cons in Hq as [->|Hq]; [lia|].
      rewrite insert_by_priority_perm in Hq.
      apply elem_of_cons in Hq as [->|Hq]; [lia|].
      apply Hh. by right.
Qed.

Lemma sort_by_priority_head l : head_greatest (sort_by_priority l).
Proof.
  unfold sort_by_priority.
  assert (H : ∀ acc, head_greatest acc →
                     head_greatest (foldl (λ sorted p, insert_by_priority p sorted) acc l)).
  { induction l as [|p l IH]; intros acc Hacc; simpl; [done|].
    by apply IH, insert_by_priority_head. }
  by apply H.
Qed.

Lemma priority_greatest l p :
  priority l = Ok p → p ∈ l ∧ ∀ q, q ∈ l → Priority (deref q) <= Priority (deref p).
Proof.
  unfold priority. pose proof (sort_by_priority_head l) as Hhead.
  pose proof (sort_by_priority_perm l) as Hperm.
  destruct (sort_by_priority l) as [|h rest]; [done|].
  intros [= <-]. split.
  - rewrite <- Hperm. left.
  - intros q Hq. apply Hhead. by rewrite Hperm.
Qed.

(** On candidates that passed the filter, [failover] finds the first peer of
    the sorted slice healthy and so returns what [priority] returns. *)
Lemma failover_as_priority lb l :
  (∀ p, p ∈ l → IsHealthy (GetProviderStats lb (Name (deref p))) = true) →
  failover lb l = priority l.
Proof.
  intros Hall. unfold failover, priority.
  pose proof (sort_by_priority_perm l) as Hperm.
  destruct (sort_by_priority l) as [|h rest] eqn:Hsort.
  - done.
  - simpl. rewrite decide_True; [done|]. apply Hall. rewrite <- Hperm. left.
Qed.

End selectors.

Lemma failover_elem (lb : LoadBalancer) (l : list (ref Provider)) (p : ref Provider) :
  failover lb l = Ok p → p ∈ l.
Proof.
  unfold failover. pose proof (sort_by_priority_perm l) as Hperm.
  destruct (list_find _ (sort_by_priority l)) as [[i p']|] eqn:Hfind.
  - intros [= <-]. apply list_find_Some in Hfind as (Hi & _).
    rewrite <- Hperm. by eapply list_elem_of_lookup_2.
  - destruct (sort_by_priority l) as [|h rest]; [done|].
    intros [= <-]. rewrite <- Hperm. left.
Qed.

(** X1: whatever the mode, a peer that [SelectProvider] returns is one of
    the candidates, is active, is not marked unhealthy, and, when it has a
    channel limit, has fewer active calls than the limit. *)
Theorem SelectProvider_within_limits
    (lb lb' : LoadBalancer) (providers : list (ref Provider)) (mode : string)
    (rnd : Z) (p : ref Provider) :
  SelectProvider lb providers mode rnd = (lb', Ok p) →
  p ∈ providers ∧ selectable lb p.
Proof.
  unfold SelectProvider. intros Hsel.
  apply filterHealthyProviders_selectable.
  repeat case_bool_decide; try done.
  - by eapply roundRobin_elem.
  - injection Hsel as _ Hsel. by eapply weightedRandom_elem.
  - injection Hsel as _ Hsel. by apply priority_greatest in Hsel as [? _].
  - injection Hsel as _ Hsel. by eapply failover_elem.
  - by eapply roundRobin_elem.
Qed.

Lemma SelectProvider_within_limits_witness :
  peer_s3a ∈ candidates_abc ∧ selectable loadbalancer.New peer_s3a.
Proof.
  apply (SelectProvider_within_limits loadbalancer.New
           (set_roundRobinIndex loadbalancer.New (slice_key candidates_abc) 1)
           candidates_abc "round_robin" 0 peer_s3a).
  by vm_compute.
Defined.

(** X2: in mode [priority] the load balancer is left as it was and the peer
    returned has the greatest priority among the candidates that passed the
    health and channel filter. *)
Theorem SelectProvider_priority_greatest
    (lb lb' : LoadBalancer) (providers : list (ref Provider)) (rnd : Z)
    (p : ref Provider) :
  SelectProvider lb providers "priority" rnd = (lb', Ok p) →
  lb' = lb ∧
  p ∈ filterHealthyProviders lb providers ∧
  ∀ q, q ∈ filterHealthyProviders lb providers →
       Priority (deref q) <= Priority (deref p).
Proof.
  unfold SelectProvider. repeat case_bool_decide; try done.
  intros [= <- Hsel]. split; [done|]. by apply priority_greatest.
Qed.

Lemma SelectProvider_priority_greatest_witness :
  peer_s3a ∈ filterHealthyProviders loadbalancer.New candidates_abc ∧
  ∀ q, q ∈ filterHealthyProviders loadbalancer.New candidates_abc →
       Priority (deref q) <= Priority (deref peer_s3a).
Proof.
  apply (SelectProvider_priority_greatest loadbalancer.New loadbalancer.New
           candidates_abc 0 peer_s3a).
  by vm_compute.
Defined.

(** X3: through [SelectProvider], mode [failover] gives what mode [priority]
    gives: the candidates have passed the health filter before [failover]
    looks for the first healthy one, so it never skips the head of the
    sorted slice. *)
Theorem SelectProvider_failover_is_priority
    (lb : LoadBalancer) (providers : list (ref Provider)) (rnd : Z) :
  SelectProvider lb providers "failover" rnd
  = SelectProvider lb providers "priority" rnd.
Proof.
  unfold SelectProvider. repeat case_bool_decide; try done.
  f_equal. apply failover_as_priority.
  intros p Hp. by apply filterHealthyProviders_selectable in Hp as (_ & _ & Hh & _).
Qed.

Section weighted.

Implicit Types (l pre post : list (ref Provider)) (p : ref Provider).

Lemma weight_sum_nonneg l :
  (∀ p, p ∈ l → 0 <= Weight (deref p)) → 0 <= weight_sum l.
Proof.
  induction l as [|q l IH]; intros Hw; simpl; [lia|].
  assert (0 <= Weight (deref q)) by (apply Hw; left).
  assert (0 <= weight_sum l) by (apply IH; intros p Hp; apply Hw; by right).
  lia.
Qed.

(** The running total of [weightedRandom] is the plain sum as long as that
    fits an [int]. *)
Lemma total_weight_no_wrap l acc :
  (∀ p, p ∈ l → 0 <= Weight (deref p)) → 0 <= acc →
  acc + weight_sum l <= max_int64 →
  foldl (λ acc p, wrap64 (acc + Weight (deref p))) acc l = acc + weight_sum l.
Proof.
  revert acc. induction l as [|q l IH]; intros acc Hw Hacc Hmax; simpl in *; [lia|].
  assert (0 <= Weight (deref q)) by (apply Hw; left).
  assert (0 <= weight_sum l) by (apply weight_sum_nonneg; intros p Hp; apply Hw; by right).
  rewrite wrap64_small by (unfold max_int64 in *; lia).
  rewrite IH; [lia| |lia|lia]. intros p Hp. apply Hw. by right.
Qed.

Lemma weighted_scan_interval l r :
  (∀ p, p ∈ l → 0 <= Weight (deref p)) → weight_sum l <= max_int64 →
  0 <= r < weight_sum l →
  ∃ pre p post,
    l = pre ++ p :: post ∧ weighted_scan l r = Some p ∧
    weight_sum pre <= r < weight_sum pre + Weight (deref p).
Proof.
  revert r. induction l as [|q l IH]; intros r Hw Hmax Hr; simpl in *; [lia|].
  assert (0 <= Weight (deref q)) by (apply Hw; left).
  assert (Hl : ∀ p, p ∈ l → 0 <= Weight (deref p)) by (intros p Hp; apply Hw; by right).
  pose proof (weight_sum_nonneg l Hl).
  rewrite wrap64_small by (unfold max_int64 in *; lia).
  case_bool_decide as Hneg.
  - exists [], q, l. simpl. split; [done|]. split; [done|]. lia.
  - destruct (IH (r - Weight (deref q))) as (pre & p & post & -> & Hscan & Hin);
      [done|lia|lia|].
    exists (q :: pre), p, post. simpl. split; [done|]. split; [done|]. lia.
Qed.

End weighted.

(** X4: with weights that are not negative and whose sum is positive and fits
    an [int], [weightedRandom] returns the first peer of the slice whose
    running weight passes the draw: the peer [p] with
    sum(weights before p) <= draw mod total < sum(weights before p) + weight(p).
    So of the [total] possible draws exactly [weight(p)] select [p], and a peer
    of weight zero is never selected. *)
Theorem weightedRandom_interval (l : list (ref Provider)) (rnd : Z) :
  (∀ p, p ∈ l → 0 <= Weight (deref p)) →
  0 < weight_sum l <= max_int64 →
  ∃ pre p post,
    l = pre ++ p :: post ∧ weightedRandom l rnd = Ok p ∧
    weight_sum pre <= rnd `mod` weight_sum l < weight_sum pre + Weight (deref p).
Proof.
  intros Hw Hsum. unfold weightedRandom.
  rewrite (total_weight_no_wrap l 0) by (try done; lia). rewrite Z.add_0_l.
  rewrite bool_decide_eq_false_2 by lia.
  unfold Intn. rewrite bool_decide_eq_false_2 by lia.
  pose proof (Z.mod_pos_bound rnd (weight_sum l)) as Hmod.
  destruct (weighted_scan_interval l (rnd `mod` weight_sum l))
    as (pre & p & post & Hl & Hscan & Hin); [done|lia|lia|].
  exists pre, p, post. by rewrite Hscan.
Qed.

Lemma weightedRandom_interval_witness :
  ∃ pre p post,
    candidates_abc = pre ++ p :: post ∧ weightedRandom candidates_abc 2 = Ok p ∧
    weight_sum pre <= 2 `mod` weight_sum candidates_abc
                   < weight_sum pre + Weight (deref p).
Proof.
  apply (weightedRandom_interval candidates_abc 2).
  - intros p Hp. unfold candidates_abc in Hp.
    repeat (apply elem_of_cons in Hp as [->|Hp]; [by vm_compute|]).
    by apply elem_of_nil in Hp.
  - by vm_compute.
Defined.

Section active_calls.

Lemma IncrementActiveCalls_lookup lb name delta :
  providerStats (IncrementActiveCalls lb name delta) !! name
  = Some (set_ActiveCalls (GetProviderStats lb name)
            (if bool_decide (wrap64 (ActiveCalls (GetProviderStats lb name) + delta) < 0)
             then 0
             else wrap64 (ActiveCalls (GetProviderStats lb name) + delta))).
Proof.
  unfold IncrementActiveCalls, GetProviderStats. simpl.
  by rewrite lookup_insert_eq.
Qed.

Lemma IncrementActiveCalls_other lb name delta other :
  other ≠ name →
  providerStats (IncrementActiveCalls lb name delta) !! other = providerStats lb !! other.
Proof.
  intros Hne. unfold IncrementActiveCalls. simpl. by rewrite lookup_insert_ne.
Qed.

Lemma GetProviderStats_IncrementActiveCalls lb name delta :
  GetProviderStats (IncrementActiveCalls lb name delta) name
  = set_ActiveCalls (GetProviderStats lb name)
      (if bool_decide (wrap64 (ActiveCalls (GetProviderStats lb name) + delta) < 0)
       then 0
       else wrap64 (ActiveCalls (GetProviderStats lb name) + delta)).
Proof.
  unfold GetProviderStats at 1. by rewrite IncrementActiveCalls_lookup.
Qed.

End active_calls.

(** X5: the active-call counter of a peer never goes below zero, and counting
    a call in and out again gives the statistics of the peer back.  For a
    counter [a] with [0 <= a < max_int64]: after [IncrementActiveCalls(name, -1)]
    the counter is [max 0 (a - 1)], after [+1] it is [a + 1], and after [+1]
    followed by [-1] the peer's statistics are what they were; the statistics
    of other peers are not touched. *)
Theorem IncrementActiveCalls_floor_and_round_trip (lb : LoadBalancer) (name : string) :
  0 <= ActiveCalls (GetProviderStats lb name) < max_int64 →
  ActiveCalls (GetProviderStats (IncrementActiveCalls lb name (-1)) name)
    = Z.max 0 (ActiveCalls (GetProviderStats lb name) - 1) ∧
  ActiveCalls (GetProviderStats (IncrementActiveCalls lb name 1) name)
    = ActiveCalls (GetProviderStats lb name) + 1 ∧
  GetProviderStats
    (IncrementActiveCalls (IncrementActiveCalls lb name 1) name (-1)) name
    = GetProviderStats lb name ∧
  ∀ other, other ≠ name →
    providerStats (IncrementActiveCalls (IncrementActiveCalls lb name 1) name (-1))
      !! other = providerStats lb !! other.
Proof.
  intros Ha. unfold max_int64 in Ha.
  assert (Hother : ∀ other, other ≠ name →
    providerStats (IncrementActiveCalls (IncrementActiveCalls lb name 1) name (-1))
      !! other = providerStats lb !! other).
  { intros other Hne. by rewrite !IncrementActiveCalls_other. }
  rewrite !GetProviderStats_IncrementActiveCalls.
  destruct (GetProviderStats lb name) as [n t a f r av la h] eqn:Hstats.
  simpl in Ha. cbn [ActiveCalls set_ActiveCalls StatsProvider TotalCalls FailedCalls
                    SuccessRate AvgCallDuration LastCallTime IsHealthy].
  rewrite !wrap64_small by (unfold max_int64; lia).
  split; [|split; [|split]].
  - case_bool_decide; lia.
  - case_bool_decide; lia.
  - rewrite (bool_decide_eq_false_2 (a + 1 < 0)) by lia.
    cbn [ActiveCalls set_ActiveCalls StatsProvider TotalCalls FailedCalls
         SuccessRate AvgCallDuration LastCallTime IsHealthy].
    replace (a + 1 + -1) with a by lia.
    rewrite wrap64_small by (unfold max_int64; lia).
    by rewrite bool_decide_eq_false_2 by lia.
  - exact Hother.
Qed.

Lemma IncrementActiveCalls_floor_and_round_trip_witness :
  ActiveCalls (GetProviderStats (IncrementActiveCalls loadbalancer.New "s3a" (-1)) "s3a")
  = 0.
Proof.
  destruct (IncrementActiveCalls_floor_and_round_trip loadbalancer.New "s3a")
    as (Hfloor & _); [by vm_compute|].
  exact Hfloor.
Defined.

Section health.

Lemma checkProviderHealth_lookup lb now name :
  providerStats (checkProviderHealth lb now) !! name
  = (λ stats,
       if bool_decide (Sub now (LastCallTime stats) > five_minutes)
          && negb (IsHealthy stats)
       then mkStats (StatsProvider stats) 0 (ActiveCalls stats) 0 100%Q
              (AvgCallDuration stats) (LastCallTime stats) true
       else stats) <$> providerStats lb !! name.
Proof. unfold checkProviderHealth. simpl. by rewrite lookup_fmap. Qed.

Lemma unhealthy_not_selected lb (l : list (ref Provider)) p stats :
  providerStats lb !! Name (deref p) = Some stats → IsHealthy stats = false →
  p ∉ filterHealthyProviders lb l.
Proof.
  intros Hstats Hh Hin. apply filterHealthyProviders_elem in Hin as (_ & _ & Hst).
  rewrite Hstats in Hst. destruct Hst as [Hh' _]. congruence.
Qed.

Lemma none_selected lb (l : list (ref Provider)) mode rnd :
  l ≠ [] → (∀ p, p ∈ l → p ∉ filterHealthyProviders lb l) →
  SelectProvider lb l mode rnd = (lb, Err ErrNoHealthyProviders).
Proof.
  intros Hne Hout. unfold SelectProvider.
  rewrite bool_decide_eq_false_2 by (by destruct l).
  assert (Hnil : filterHealthyProviders lb l = []).
  { destruct (filterHealthyProviders lb l) as [|q rest] eqn:Hf; [done|]. exfalso.
    assert (Hq : q ∈ filterHealthyProviders lb l) by (rewrite Hf; left).
    apply (Hout q); [|left]. by apply filterHealthyProviders_elem in Hq as [? _]. }
  by rewrite Hnil.
Qed.

End health.

(** X6: the health monitor only ever restores.  A peer that is marked
    unhealthy and whose last call is more than five minutes back is marked
    healthy again with total and failed counts at zero and rate at 100; every
    other peer's statistics stay exactly as they were; the active-call
    counter is kept in both cases, and no statistics are created for a peer
    that had none. *)
Theorem checkProviderHealth_only_restores
    (lb : LoadBalancer) (now : Z) (name : string) :
  match providerStats lb !! name with
  | None => providerStats (checkProviderHealth lb now) !! name = None
  | Some stats =>
      ∃ stats',
        providerStats (checkProviderHealth lb now) !! name = Some stats' ∧
        ActiveCalls stats' = ActiveCalls stats ∧
        (IsHealthy stats = true → stats' = stats) ∧
        (Sub now (LastCallTime stats) <= five_minutes → stats' = stats) ∧
        (IsHealthy stats = false → Sub now (LastCallTime stats) > five_minutes →
         IsHealthy stats' = true ∧ TotalCalls stats' = 0 ∧ FailedCalls stats' = 0 ∧
         SuccessRate stats' = 100%Q)
  end.
Proof.
  rewrite checkProviderHealth_lookup.
  destruct (providerStats lb !! name) as [stats|]; simpl; [|done].
  eexists. split; [reflexivity|].
  case_bool_decide as Hidle; destruct (IsHealthy stats) eqn:Hh; simpl;
    repeat split; try done; intros; lia.
Qed.

(** X7: a peer that [UpdateStats] has demoted is no longer offered.  After a
    sequence of [UpdateStats] calls on a new load balancer whose last call
    leaves its peer with more than ten completions, more than half of them
    failed, no candidate of that name passes [filterHealthyProviders], and a
    selection among candidates that all bear that name fails with
    no-healthy-providers and leaves the load balancer as it is. *)
Theorem demoted_peer_is_not_selected
    (calls : list StatsCall) (c : StatsCall) (providers : list (ref Provider)) :
  Z.of_nat (length calls) < max_int64 →
  (10 < length (calls_to (sc_provider c) (calls ++ [c])))%nat →
  (length (calls_to (sc_provider c) (calls ++ [c]))
   < 2 * length (failures_to (sc_provider c) (calls ++ [c])))%nat →
  let lb := UpdateStats_all loadbalancer.New (calls ++ [c]) in
  (∀ p, Name (deref p) = sc_provider c → p ∉ filterHealthyProviders lb providers) ∧
  (providers ≠ [] → (∀ p, p ∈ providers → Name (deref p) = sc_provider c) →
   ∀ mode rnd, SelectProvider lb providers mode rnd = (lb, Err ErrNoHealthyProviders)).
Proof.
  intros Hlen Hten Hhalf lb.
  assert (Hdown : ∃ stats, providerStats lb !! sc_provider c = Some stats ∧
                           IsHealthy stats = false).
  { unfold lb. rewrite UpdateStats_all_snoc, UpdateStats_call_lookup.
    eexists. split; [reflexivity|].
    pose proof (UpdateStats_all_counts (calls ++ [c]) (sc_provider c)) as Hcount.
    unfold counts_calls in Hcount.
    rewrite UpdateStats_all_snoc, UpdateStats_call_lookup, length_app in Hcount.
    destruct Hcount as [Ht Hf]; [simpl; lia|].
    destruct (stats_before_counts (UpdateStats_all loadbalancer.New calls) calls
                (sc_provider c)) as [Ht0 Hf0].
    { apply UpdateStats_all_counts. lia. }
    pose proof (failures_le_calls (sc_provider c) calls).
    pose proof (calls_to_le (sc_provider c) calls).
    destruct (bump_stats_spec (GetProviderStats (UpdateStats_all loadbalancer.New calls)
                                 (sc_provider c))
                (sc_succeeded c) (sc_duration c) (sc_now c))
      as (_ & _ & _ & Hhealthy); [lia|lia|].
    rewrite Hhealthy, !bool_decide_eq_true_2; [done|lia|lia]. }
  destruct Hdown as (stats & Hstats & Hh).
  assert (Hout : ∀ p, Name (deref p) = sc_provider c →
                      p ∉ filterHealthyProviders lb providers).
  { intros p Hp. apply (unhealthy_not_selected lb providers p stats); [|done].
    by rewrite Hp. }
  split; [exact Hout|].
  intros Hne Hall mode rnd. apply none_selected; [done|].
  intros p Hp. by apply Hout, Hall.
Qed.

Lemma demoted_peer_is_not_selected_witness :
  SelectProvider (UpdateStats_all loadbalancer.New (eleven_failures ++ [failed_call]))
    [peer_s3a] "round_robin" 0
  = (UpdateStats_all loadbalancer.New (eleven_failures ++ [failed_call]),
     Err ErrNoHealthyProviders).
Proof.
  destruct (demoted_peer_is_not_selected eleven_failures failed_call [peer_s3a])
    as [_ Hsel]; [by vm_compute|vm_compute; lia|vm_compute; lia|].
  apply Hsel; [done|].
  intros p Hp. apply list_elem_of_singleton in Hp as ->. reflexivity.
Defined.

(** X8: cooldown recovery puts a demoted peer back among the candidates.  A
    candidate whose statistics are marked unhealthy is left out by the
    filter; once the health monitor runs more than five minutes after the
    peer's last call, the same candidate passes the filter again, provided
    it is active and below its channel limit. *)
Theorem cooldown_restores_candidate
    (lb : LoadBalancer) (now : Z) (providers : list (ref Provider))
    (p : ref Provider) (stats : LoadBalancerStats) :
  p ∈ providers →
  providerStats lb !! Name (deref p) = Some stats →
  IsHealthy stats = false →
  Sub now (LastCallTime stats) > five_minutes →
  Active (deref p) = true →
  (MaxChannels (deref p) = 0 ∨ ActiveCalls stats < MaxChannels (deref p)) →
  (p ∉ filterHealthyProviders lb providers) ∧
  p ∈ filterHealthyProviders (checkProviderHealth lb now) providers.
Proof.
  intros Hp Hstats Hh Hidle Hact Hroom. split.
  - by apply (unhealthy_not_selected lb providers p stats).
  - apply filterHealthyProviders_elem. split; [done|]. split; [done|].
    rewrite checkProviderHealth_lookup, Hstats. simpl.
    rewrite bool_decide_eq_true_2 by done. by rewrite Hh.
Qed.

Lemma cooldown_restores_candidate_witness :
  peer_s3a ∈ filterHealthyProviders
    (checkProviderHealth
       (UpdateStats_all loadbalancer.New (eleven_failures ++ [failed_call]))
       (2000 + five_minutes + 1))
    [peer_s3a].
Proof.
  refine (proj2 (cooldown_restores_candidate
                   (UpdateStats_all loadbalancer.New (eleven_failures ++ [failed_call]))
                   (2000 + five_minutes + 1) [peer_s3a] peer_s3a
                   (mkStats "s3a" 12 0 12 (0 # 12) 0 2000 false)
                   _ _ _ _ _ _)).
  - left.
  - by vm_compute.
  - done.
  - by vm_compute.
  - done.
  - by left.
Defined.

(** * Further properties of the DID pool *)

Section pool.

Implicit Types (db : Database) (pool : gmap string DID).

Lemma free_numbers_nil pool cond :
  free_numbers pool cond = [] →
  ∀ d row, pool !! d = Some row → InUse row = false → cond row = false.
Proof.
  intros Hnil d row Hrow Hfree. destruct (cond row) eqn:Hcond; [|done].
  assert (d ∈ free_numbers pool cond) as Hin by (apply free_numbers_elem; eauto).
  rewrite Hnil in Hin. by apply elem_of_nil in Hin.
Qed.

Lemma set_dids_same db : set_dids db (dids db) = db.
Proof. by destruct db. Qed.

End pool.

(** X9: [getAvailableDID] gives a free DID, of the asking peer when that peer
    owns a free one and of any owner only when it owns none; it fails, with
    the no-rows error wrapped, exactly when every DID of the pool is in
    use. *)
Theorem getAvailableDID_prefers_owner
    (db : Database) (providerName : string) (draw1 draw2 : nat) :
  match getAvailableDID db providerName draw1 draw2 with
  | Ok did =>
      ∃ row, dids db !! did = Some row ∧ InUse row = false ∧
             (ProviderName row = providerName ∨
              ∀ d' row', dids db !! d' = Some row' → InUse row' = false →
                         ProviderName row' ≠ providerName)
  | Err e =>
      e = ErrNoAvailableDIDs ErrNoRows ∧
      ∀ d' row', dids db !! d' = Some row' → InUse row' = true
  end.
Proof.
  unfold getAvailableDID.
  destruct (first_at_random _ draw1) as [d1|e1] eqn:H1.
  - apply first_at_random_elem, free_numbers_elem in H1 as (row & Hrow & Hfree & Hown).
    apply bool_decide_eq_true in Hown. eauto.
  - apply first_at_random_none in H1.
    pose proof (free_numbers_nil _ _ H1) as Hnone.
    destruct (first_at_random _ draw2) as [d2|e2] eqn:H2.
    + apply first_at_random_elem, free_numbers_elem in H2 as (row & Hrow & Hfree & _).
      exists row. split; [done|]. split; [done|]. right.
      intros d' row' Hrow' Hfree' Hown. specialize (Hnone d' row' Hrow' Hfree').
      by apply bool_decide_eq_false in Hnone.
    + assert (e2 = ErrNoRows) as ->.
      { unfold first_at_random in H2. by destruct (_ !! _); simplify_eq. }
      split; [done|]. apply first_at_random_none in H2.
      intros d' row' Hrow'. destruct (InUse row') eqn:Huse; [done|].
      by pose proof (free_numbers_nil _ _ H2 d' row' Hrow' Huse).
Qed.

(** X10: acquire followed by release gives the pool back.  Marking a DID that
    is free and has no destination, and releasing it again, leaves the store
    exactly as it was. *)
Theorem markDIDInUse_releaseDID_round_trip
    (db : Database) (did destination : string) (row : DID) :
  dids db !! did = Some row → InUse row = false → Destination row = None →
  releaseDID (markDIDInUse db did destination) did = db.
Proof.
  intros Hrow Hfree Hdest. unfold releaseDID, markDIDInUse, set_dids. simpl.
  rewrite alter_alter_eq.
  rewrite alter_id; [by destruct db|].
  intros row' Hrow'. rewrite Hrow in Hrow'. injection Hrow' as <-.
  destruct row; simpl in *. by subst.
Qed.

Lemma markDIDInUse_releaseDID_round_trip_witness :
  releaseDID (markDIDInUse (store seed_state) "18005550001" "15550000002") "18005550001"
  = store seed_state.
Proof.
  apply (markDIDInUse_releaseDID_round_trip (store seed_state) "18005550001"
           "15550000002" (mkDID "18005550001" "s3a" false None)); by vm_compute.
Defined.

(** X11: release is idempotent and touches one row only.  Releasing a DID
    twice is the same as releasing it once; releasing a number the pool does
    not hold changes nothing; every other row, and the other tables, are left
    as they were; and after a release the DID is free with no destination. *)
Theorem releaseDID_idempotent (db : Database) (did : string) :
  releaseDID (releaseDID db did) did = releaseDID db did ∧
  (dids db !! did = None → releaseDID db did = db) ∧
  (∀ other, other ≠ did → dids (releaseDID db did) !! other = dids db !! other) ∧
  call_records (releaseDID db did) = call_records db ∧
  call_verifications (releaseDID db did) = call_verifications db ∧
  (∀ row, dids (releaseDID db did) !! did = Some row →
          InUse row = false ∧ Destination row = None).
Proof.
  unfold releaseDID, set_dids. simpl. repeat split.
  - f_equal. rewrite alter_alter_eq. apply alter_ext. by intros [n pn u d] _.
  - intros Hnone. rewrite alter_id; [by destruct db|]. intros x Hx. congruence.
  - intros other Hne. by rewrite lookup_alter_ne.
  - rewrite lookup_alter_eq in H. destruct (dids db !! did); by simplify_eq/=.
  - rewrite lookup_alter_eq in H. destruct (dids db !! did); by simplify_eq/=.
Qed.

Section selection_frame.

(** A selection may move a round-robin cursor; it never touches the
    statistics. *)
Lemma SelectProvider_stats lb l mode rnd lb' r :
  SelectProvider lb l mode rnd = (lb', r) → providerStats lb' = providerStats lb.
Proof.
  assert (Hrr : ∀ l0 lb0 r0, roundRobin lb l0 = (lb0, r0) →
                             providerStats lb0 = providerStats lb).
  { intros l0 lb0 r0. unfold roundRobin. destruct (_ || _); [by intros [= <- _]|].
    destruct (l0 !! _); by intros [= <- _]. }
  unfold SelectProvider. repeat case_bool_decide; try (by intros [= <- _]); eauto.
Qed.

End selection_frame.

Section selectable_frame.

Lemma selectable_stats lb lb' p :
  providerStats lb = providerStats lb' → selectable lb p → selectable lb' p.
Proof.
  intros Hstats. unfold selectable, GetProviderStats. by rewrite Hstats.
Qed.

Lemma SelectProvider_within_limits_aux lb lb' l mode rnd p :
  SelectProvider lb l mode rnd = (lb', Ok p) → selectable lb p.
Proof.
  unfold SelectProvider. intros Hsel.
  apply (filterHealthyProviders_selectable lb l).
  repeat case_bool_decide; try done.
  - by eapply roundRobin_elem.
  - injection Hsel as _ Hsel. by eapply weightedRandom_elem.
  - injection Hsel as _ Hsel. by apply priority_greatest in Hsel as [? _].
  - injection Hsel as _ Hsel. by eapply failover_elem.
  - by eapply roundRobin_elem.
Qed.

End selectable_frame.

(** * Further properties of the routing engine *)

(** X12: a failed leg 1 leaves no trace in the ledger or the store.  When
    [ProcessIncomingCall] returns an error (no route, no peer, no DID), both
    ledger indices, the peer registry and all three tables are as before; at
    most the load balancer has moved a round-robin cursor. *)
Theorem ProcessIncomingCall_failure_leaves_ledger
    (st : State) (callID ani dnis inb : string) (env : IncomingEnv) (e : error) :
  (ProcessIncomingCall st callID ani dnis inb env).2 = Err e →
  let st' := (ProcessIncomingCall st callID ani dnis inb env).1 in
  store st' = store st ∧
  activeCalls (rtr st') = activeCalls (rtr st) ∧
  didToCall (rtr st') = didToCall (rtr st) ∧
  providerMgr (rtr st') = providerMgr (rtr st) ∧
  providerStats (loadBalancer (rtr st')) = providerStats (loadBalancer (rtr st)).
Proof.
  unfold ProcessIncomingCall.
  destruct (GetRouteForInbound _ _) as [route|e0]; simpl; [|done].
  destruct (GetProvidersByName _ (visit_intermediate env) _) as [ips|e0]; simpl; [|done].
  destruct (SelectProvider _ ips _ _) as [lb1 [ip|e0]] eqn:Hsel1; simpl.
  2:{ intros _. repeat split; try done. by eapply SelectProvider_stats. }
  destruct (GetProvidersByName _ (visit_final env) _) as [fps|e0]; simpl.
  2:{ intros _. repeat split; try done. by eapply SelectProvider_stats. }
  destruct (SelectProvider lb1 fps _ _) as [lb2 [fp|e0]] eqn:Hsel2; simpl.
  2:{ intros _. repeat split; try done.
      rewrite (SelectProvider_stats _ _ _ _ _ _ Hsel2).
      by eapply SelectProvider_stats. }
  destruct (getAvailableDID _ _ _ _) as [did|e0]; simpl; [done|].
  intros _. repeat split; try done.
  rewrite (SelectProvider_stats _ _ _ _ _ _ Hsel2).
  by eapply SelectProvider_stats.
Qed.

Lemma ProcessIncomingCall_failure_leaves_ledger_witness :
  let out := ProcessIncomingCall seed_state "C9" "15550000001" "15550000002" "s9" seed_env in
  out.2 = Err (ErrNoRouteForInbound "s9" (ErrNoActiveRoute "s9")) ∧
  out.1 = seed_state.
Proof.
  pose proof (ProcessIncomingCall_failure_leaves_ledger seed_state
                "C9" "15550000001" "15550000002" "s9" seed_env
                (ErrNoRouteForInbound "s9" (ErrNoActiveRoute "s9"))) as H.
  split; [by vm_compute|]. destruct H as (H1 & _); [by vm_compute|].
  by vm_compute.
Defined.

(** X13: what a successful leg 1 has done.  The DID of the response was free
    before the call and is now in use with the dialled number as destination,
    no other row of the pool having changed; the response sends the dialled
    number as ANI and the DID as DNIS towards the endpoint of the chosen
    intermediate peer; the record stored under the call-id keeps the original
    ANI and DNIS, is [ACTIVE] at [S1_TO_S2] and starts at the clock's time;
    one verification row, verified, is appended; and both chosen peers were
    selectable. *)
Theorem ProcessIncomingCall_success
    (st st' : State) (callID ani dnis inb : string) (env : IncomingEnv)
    (resp : CallResponse) :
  ProcessIncomingCall st callID ani dnis inb env = (st', Ok resp) →
  ∃ row record,
    dids (store st) !! DIDAssigned resp = Some row ∧ InUse row = false ∧
    dids (store st')
      = <[DIDAssigned resp := mkDID (Number row) (ProviderName row) true (Some dnis)]>
          (dids (store st)) ∧
    resp = mkResponse "success" (AssignedDID record)
             ("endpoint-" +:+ CallIntermediate record) dnis (AssignedDID record) ∧
    activeCalls (rtr st') = <[callID := record]> (activeCalls (rtr st)) ∧
    didToCall (rtr st') = <[AssignedDID record := callID]> (didToCall (rtr st)) ∧
    record = mkCallRecord callID ani dnis dnis (AssignedDID record) inb
               (CallIntermediate record) (CallFinal record) "ACTIVE" "S1_TO_S2"
               (now_incoming env) None 0
               ("/var/spool/asterisk/monitor/" +:+ callID +:+ ".wav") ∧
    call_verifications (store st')
      = call_verifications (store st)
        ++ [mkVerification callID "S1_TO_S2" ani dnis ani dnis "" true] ∧
    (∃ p, Name (deref p) = CallIntermediate record ∧
          selectable (loadBalancer (rtr st)) p) ∧
    (∃ p, Name (deref p) = CallFinal record ∧
          selectable (loadBalancer (rtr st)) p).
Proof.
  unfold ProcessIncomingCall.
  destruct (GetRouteForInbound _ _) as [route|e0]; simpl; [|done].
  destruct (GetProvidersByName _ (visit_intermediate env) _) as [ips|e0]; simpl; [|done].
  destruct (SelectProvider _ ips _ _) as [lb1 [ip|e0]] eqn:Hsel1; simpl; [|done].
  destruct (GetProvidersByName _ (visit_final env) _) as [fps|e0]; simpl; [|done].
  destruct (SelectProvider lb1 fps _ _) as [lb2 [fp|e0]] eqn:Hsel2; simpl; [|done].
  destruct (getAvailableDID _ _ _ _) as [did|e0] eqn:Hdid; simpl; [|done].
  apply getAvailableDID_free in Hdid as (row & Hrow & Hfree).
  intros [= <- <-]. simpl. exists row.
  exists (mkCallRecord callID ani dnis dnis did inb (Name (deref ip)) (Name (deref fp))
            "ACTIVE" "S1_TO_S2" (now_incoming env) None 0
            ("/var/spool/asterisk/monitor/" +:+ callID +:+ ".wav")).
  split; [exact Hrow|]. split; [exact Hfree|]. split.
  - assert (Hrecs : ∀ db record, dids (storeCallRecord db record) = dids db).
    { intros db record. unfold storeCallRecord. by destruct (call_records db !! _). }
    rewrite Hrecs. simpl.
    by rewrite (alter_as_insert _ _ row).
  - split; [reflexivity|]. split; [reflexivity|]. split; [reflexivity|].
    split; [reflexivity|]. split.
    { unfold storeCallRecord. by destruct (call_records _ !! _). }
    split.
    + exists ip. split; [done|].
      by apply (SelectProvider_within_limits_aux _ _ _ _ _ _ Hsel1).
    + exists fp. split; [done|].
      apply (selectable_stats lb1); [by eapply SelectProvider_stats|].
      by apply (SelectProvider_within_limits_aux _ _ _ _ _ _ Hsel2).
Qed.

Lemma ProcessIncomingCall_success_witness :
  ∃ row record,
    dids (store seed_state) !! "18005550001" = Some row ∧ InUse row = false ∧
    activeCalls (rtr after_leg1) = <["C1" := record]> (activeCalls (rtr seed_state)).
Proof.
  destruct (ProcessIncomingCall_success seed_state after_leg1
              "C1" "15550000001" "15550000002" "s1" seed_env
              (mkResponse "success" "18005550001" "endpoint-s3a" "15550000002"
                 "18005550001"))
    as (row & record & H1 & H2 & _ & _ & H5 & _); [by vm_compute|].
  exists row, record. by repeat split.
Defined.

Section leg_shapes.

(** The two ways leg 1 ends. *)
Lemma ProcessIncomingCall_shape st callID ani dnis inb env :
  let out := ProcessIncomingCall st callID ani dnis inb env in
  (∃ e, out.2 = Err e ∧ store out.1 = store st ∧
        activeCalls (rtr out.1) = activeCalls (rtr st) ∧
        didToCall (rtr out.1) = didToCall (rtr st) ∧
        providerMgr (rtr out.1) = providerMgr (rtr st)) ∨
  (∃ did row inter final,
     out.2 = Ok (mkResponse "success" did ("endpoint-" +:+ inter) dnis did) ∧
     dids (store st) !! did = Some row ∧ InUse row = false ∧
     dids (store out.1)
       = alter (λ x, mkDID (Number x) (ProviderName x) true (Some dnis)) did
           (dids (store st)) ∧
     activeCalls (rtr out.1)
       = <[callID := mkCallRecord callID ani dnis dnis did inb inter final
                       "ACTIVE" "S1_TO_S2" (now_incoming env) None 0
                       ("/var/spool/asterisk/monitor/" +:+ callID +:+ ".wav")]>
           (activeCalls (rtr st)) ∧
     didToCall (rtr out.1) = <[did := callID]> (didToCall (rtr st)) ∧
     providerMgr (rtr out.1) = providerMgr (rtr st)).
Proof.
  unfold ProcessIncomingCall.
  destruct (GetRouteForInbound _ _) as [route|e0]; simpl; [|left; eauto 10].
  destruct (GetProvidersByName _ (visit_intermediate env) _) as [ips|e0]; simpl;
    [|left; eauto 10].
  destruct (SelectProvider _ ips _ _) as [lb1 [ip|e0]]; simpl; [|left; eauto 10].
  destruct (GetProvidersByName _ (visit_final env) _) as [fps|e0]; simpl;
    [|left; eauto 10].
  destruct (SelectProvider lb1 fps _ _) as [lb2 [fp|e0]]; simpl; [|left; eauto 10].
  destruct (getAvailableDID _ _ _ _) as [did|e0] eqn:Hdid; simpl; [|left; eauto 10].
  apply getAvailableDID_free in Hdid as (row & Hrow & Hfree).
  right. exists did, row, (Name (deref ip)), (Name (deref fp)).
  repeat split; try done.
  unfold storeCallRecord. by destruct (call_records _ !! _).
Qed.

(** The two ways leg 5 ends. *)
Lemma ProcessFinalCall_shape st callID ani dnis provider sourceIP env :
  let out := ProcessFinalCall st callID ani dnis provider sourceIP env in
  (∃ e, out.2 = Some e ∧ rtr out.1 = rtr st ∧
        dids (store out.1) = dids (store st) ∧
        call_records (store out.1) = call_records (store st)) ∨
  (∃ c record p,
     out.2 = None ∧
     find_call (rtr st) (visit_calls env) callID ani dnis = Some (c, record) ∧
     providers (providerMgr (rtr st)) !! CallFinal record = Some p ∧
     verifyProviderIP (deref p) sourceIP = None ∧
     dids (store out.1)
       = alter (λ x, mkDID (Number x) (ProviderName x) false None)
           (AssignedDID record) (dids (store st)) ∧
     activeCalls (rtr out.1) = delete c (activeCalls (rtr st)) ∧
     didToCall (rtr out.1) = delete (AssignedDID record) (didToCall (rtr st)) ∧
     providerMgr (rtr out.1) = providerMgr (rtr st)).
Proof.
  unfold ProcessFinalCall.
  destruct (find_call _ _ _ _ _) as [[c record]|] eqn:Hfind; simpl; [|left; eauto 10].
  unfold GetProvider.
  destruct (providers _ !! CallFinal record) as [p|] eqn:Hp; simpl; [|left; eauto 10].
  destruct (verifyProviderIP _ _) eqn:Hip; simpl; [left; eauto 10|].
  right. exists c, record, p. by repeat split.
Qed.

End leg_shapes.

Section masking.

Implicit Types (calls : gmap string CallRecord) (index : gmap string string)
  (pool : gmap string DID).

Lemma masked_add calls index pool c d record row :
  ledger_ok calls index pool → masked_in calls pool →
  pool !! d = Some row → InUse row = false →
  AssignedDID record = d → TransformedANI record = OriginalDNIS record →
  masked_in (<[c := record]> calls)
    (alter (λ x, mkDID (Number x) (ProviderName x) true (Some (OriginalDNIS record)))
       d pool).
Proof.
  intros [_ Hrec _] Hmask Hrow Hfree Hdid Hani c0 record0.
  rewrite lookup_insert. case_decide; subst.
  - intros [= <-]. split; [|done]. eexists. rewrite lookup_alter_eq, Hrow. done.
  - intros Hcall0. destruct (Hmask _ _ Hcall0) as [(row0 & Hrow0 & Huse0 & Hdest0) Hani0].
    split; [|done]. exists row0. split; [|done].
    rewrite lookup_alter_ne; [done|]. intros Heq. rewrite Heq in Hrow. congruence.
Qed.

Lemma masked_update calls pool c record record' :
  masked_in calls pool → calls !! c = Some record →
  AssignedDID record' = AssignedDID record →
  OriginalDNIS record' = OriginalDNIS record →
  TransformedANI record' = TransformedANI record →
  masked_in (<[c := record']> calls) pool.
Proof.
  intros Hmask Hcall Hdid Hdnis Hani c0 record0.
  rewrite lookup_insert. case_decide; subst; [|by apply Hmask].
  intros [= <-]. destruct (Hmask _ _ Hcall) as [(row & Hrow & Huse & Hdest) Hani0].
  split; [|congruence]. exists row. rewrite Hdid, Hdnis. done.
Qed.

Lemma masked_remove calls index pool c record :
  ledger_ok calls index pool → masked_in calls pool → calls !! c = Some record →
  masked_in (delete c calls)
    (alter (λ x, mkDID (Number x) (ProviderName x) false None) (AssignedDID record) pool).
Proof.
  intros [Hidx _ _] Hmask Hcall c0 record0. unfold indices_agree in Hidx.
  rewrite lookup_delete. case_decide; [done|]. intros Hcall0.
  destruct (Hmask _ _ Hcall0) as [(row0 & Hrow0 & Huse0 & Hdest0) Hani0].
  split; [|done]. exists row0. split; [|done].
  rewrite lookup_alter_ne; [done|]. intros Heq.
  assert (index !! AssignedDID record = Some c) by (apply Hidx; eauto).
  assert (index !! AssignedDID record = Some c0) by (apply Hidx; eauto).
  congruence.
Qed.

End masking.

Section masking_runs.

Abbreviation state_ok := (state_ok_of ledger_ok).

Lemma ProcessIncomingCall_masked st callID ani dnis inb env :
  state_ok st → all_masked st →
  all_masked (ProcessIncomingCall st callID ani dnis inb env).1.
Proof.
  intros Hok Hmask.
  destruct (ProcessIncomingCall_shape st callID ani dnis inb env)
    as [(e & _ & Hstore & Hcalls & _)
       |(did & row & inter & final & _ & Hrow & Hfree & Hpool & Hcalls & _)];
    unfold all_masked; rewrite Hcalls.
  - by rewrite Hstore.
  - rewrite Hpool.
    by apply (masked_add _ (didToCall (rtr st)) _ callID did
                (mkCallRecord callID ani dnis dnis did inb inter final "ACTIVE"
                   "S1_TO_S2" (now_incoming env) None 0
                   ("/var/spool/asterisk/monitor/" +:+ callID +:+ ".wav")) row).
Qed.

Lemma ProcessReturnCall_masked st ani2 did provider sourceIP :
  all_masked st → all_masked (ProcessReturnCall st ani2 did provider sourceIP).1.
Proof.
  intros Hmask. unfold ProcessReturnCall.
  destruct (didToCall _ !! did) as [callID|]; simpl; [|done].
  destruct (activeCalls _ !! callID) as [record|] eqn:Hcall; simpl; [|done].
  destruct (GetProvider _ _) as [p|e]; simpl; [|done].
  destruct (verifyProviderIP _ _); simpl; [done|].
  unfold all_masked; simpl. by eapply masked_update.
Qed.

Lemma ProcessFinalCall_masked st callID ani dnis provider sourceIP env :
  state_ok st → all_masked st → visits (activeCalls (rtr st)) (visit_calls env) →
  all_masked (ProcessFinalCall st callID ani dnis provider sourceIP env).1.
Proof.
  intros Hok Hmask Hvisit.
  destruct (ProcessFinalCall_shape st callID ani dnis provider sourceIP env)
    as [(e & _ & Hrtr & Hpool & _)
       |(c & record & p & _ & Hfind & _ & _ & Hpool & Hcalls & _)];
    unfold all_masked.
  - by rewrite Hrtr, Hpool.
  - rewrite Hcalls, Hpool.
    apply (masked_remove _ (didToCall (rtr st))); [done|done|].
    by eapply find_call_in_ledger.
Qed.

Lemma cleanup_one_masked now st c record :
  state_ok st → all_masked st → activeCalls (rtr st) !! c = Some record →
  all_masked (cleanup_one now st (c, record)).
Proof.
  intros Hok Hmask Hcall. unfold cleanup_one. case_bool_decide; [|done].
  unfold all_masked; simpl. by apply (masked_remove _ (didToCall (rtr st))).
Qed.

Lemma sweep_masked now visit st :
  state_ok st → all_masked st → NoDup visit.*1 →
  (∀ c record, (c, record) ∈ visit → activeCalls (rtr st) !! c = Some record) →
  all_masked (cleanupStaleCalls st visit now).
Proof.
  unfold cleanupStaleCalls. revert st.
  induction visit as [|[c record] rest IH]; intros st Hok Hmask Hnodup Hin;
    cbn [foldl]; [done|].
  apply NoDup_cons in Hnodup as [Hc Hnodup].
  assert (Hcall : activeCalls (rtr st) !! c = Some record) by (apply Hin; left).
  apply IH; [by apply cleanup_one_ok|by apply cleanup_one_masked|done|].
  intros c' record' Hin'. rewrite cleanup_one_other.
  - apply Hin. by right.
  - intros ->. apply Hc. apply list_elem_of_fmap. by exists (c', record').
Qed.

Lemma reachable_masked st0 st :
  initial st0 → reachable new_call_id st0 st → all_masked st.
Proof.
  intros Hinit Hreach.
  induction Hreach as [|st o Hreach IH Henv Hnew].
  - destruct Hinit as (Hcalls & _). intros c record. rewrite Hcalls.
    by rewrite lookup_empty.
  - pose proof (reachable_ok st0 st Hinit Hreach) as Hok.
    destruct o; simpl in *.
    + by apply ProcessIncomingCall_masked.
    + by apply ProcessReturnCall_masked.
    + by apply ProcessFinalCall_masked.
    + apply sweep_masked; [done|done| |].
      * unfold visits in Henv. rewrite Henv. apply NoDup_fst_map_to_list.
      * intros c record. by apply (visits_elem _ _ _ _ Henv).
Qed.

End masking_runs.

(** X14: while a call is in the ledger its DID masks its destination.  In
    every state reached from a new router over a pool with no DID in use, by
    legs and sweeps in which leg 1 gets call-ids new to the ledger, each
    record of the ledger has its DID in use with the record's original DNIS
    as the DID's destination, and carries that DNIS as transformed ANI. *)
Theorem ledger_records_mask_their_destination (st0 st : State) :
  initial st0 → reachable new_call_id st0 st →
  ∀ c record, activeCalls (rtr st) !! c = Some record →
    (∃ row, dids (store st) !! AssignedDID record = Some row ∧ InUse row = true ∧
            Destination row = Some (OriginalDNIS record)) ∧
    TransformedANI record = OriginalDNIS record.
Proof.
  intros Hinit Hreach. exact (reachable_masked st0 st Hinit Hreach).
Qed.

Lemma ledger_records_mask_their_destination_witness :
  ∃ row, dids (store after_leg1) !! "18005550001" = Some row ∧ InUse row = true ∧
         Destination row = Some "15550000002".
Proof.
  destruct (ledger_records_mask_their_destination seed_state after_leg1
              seed_state_initial (after_leg1_reachable new_call_id ltac:(by vm_compute))
              "C1" record_C1) as [H _]; [by vm_compute|].
  exact H.
Defined.

(** X15: a successful leg 5 ends the call.  When [ProcessFinalCall] returns
    without error, the call it found is out of both ledger indices, its DID
    is free with its destination cleared while every other DID is as before,
    the row of the call in [call_records], when there is one, is [COMPLETED]
    with the end time and the duration in whole seconds, the last
    verification row is a verified one for step [S4_TO_S2], and a leg 3 that
    arrives on that DID afterwards is refused as having no active call. *)
Theorem ProcessFinalCall_success
    (st st' : State) (callID ani dnis provider sourceIP : string) (env : FinalEnv) :
  ProcessFinalCall st callID ani dnis provider sourceIP env = (st', None) →
  ∃ c record,
    find_call (rtr st) (visit_calls env) callID ani dnis = Some (c, record) ∧
    activeCalls (rtr st') = delete c (activeCalls (rtr st)) ∧
    didToCall (rtr st') = delete (AssignedDID record) (didToCall (rtr st)) ∧
    (∀ row, dids (store st') !! AssignedDID record = Some row →
            InUse row = false ∧ Destination row = None) ∧
    (∀ other, other ≠ AssignedDID record →
              dids (store st') !! other = dids (store st) !! other) ∧
    (∀ row, call_records (store st) !! CallID record = Some row →
       ∃ row', call_records (store st') !! CallID record = Some row' ∧
               Status row' = "COMPLETED" ∧ CurrentStep row' = "COMPLETED" ∧
               EndTime row' = Some (now_final env) ∧
               Duration row' = Sub (now_final env) (StartTime record) `quot` 10 ^ 9) ∧
    call_verifications (store st')
      = call_verifications (store st)
        ++ [mkVerification c "S4_TO_S2" (OriginalANI record) (OriginalDNIS record)
              ani dnis sourceIP true] ∧
    ∀ ani2 prov3 ip3,
      ProcessReturnCall st' ani2 (AssignedDID record) prov3 ip3
      = (st', Err (ErrNoActiveCallForDID (AssignedDID record))).
Proof.
  unfold ProcessFinalCall.
  destruct (find_call _ _ _ _ _) as [[c record]|] eqn:Hfind; simpl; [|done].
  destruct (GetProvider _ _) as [p|e]; simpl; [|done].
  destruct (verifyProviderIP _ _); simpl; [done|].
  intros [= <-]. exists c, record. simpl.
  split; [done|]. split; [done|]. split; [done|]. split; [|split; [|split; [|split]]].
  - intros row. rewrite lookup_alter_eq.
    destruct (dids (store st) !! _); by intros; simplify_eq/=.
  - intros other Hne. by rewrite lookup_alter_ne.
  - intros row Hrow. rewrite lookup_alter_eq, Hrow. simpl. eauto 10.
  - done.
  - intros ani2 prov3 ip3. unfold ProcessReturnCall. simpl.
    by rewrite lookup_delete_eq.
Qed.

Lemma ProcessFinalCall_success_witness :
  ∃ c record,
    find_call (rtr after_leg1) [("C1", record_C1)] "C1" "15550000001" "15550000002"
      = Some (c, record) ∧
    ∀ ani2 prov3 ip3,
      (ProcessReturnCall
         (ProcessFinalCall after_leg1 "C1" "15550000001" "15550000002" "s4"
            "172.16.0.30" (mkFinalEnv [("C1", record_C1)] 61000)).1
         ani2 (AssignedDID record) prov3 ip3).2
      = Err (ErrNoActiveCallForDID (AssignedDID record)).
Proof.
  destruct (ProcessFinalCall_success after_leg1
              (ProcessFinalCall after_leg1 "C1" "15550000001" "15550000002" "s4"
                 "172.16.0.30" (mkFinalEnv [("C1", record_C1)] 61000)).1
              "C1" "15550000001" "15550000002" "s4" "172.16.0.30"
              (mkFinalEnv [("C1", record_C1)] 61000))
    as (c & record & Hfind & _ & _ & _ & _ & _ & _ & Hret); [by vm_compute|].
  exists c, record. split; [exact Hfind|].
  intros ani2 prov3 ip3. by rewrite Hret.
Defined.

(** X16: a leg 5 from the wrong address changes nothing but the verification
    log.  When the call is found, its final peer uses auth mode [ip] or
    [both] and the source address without its port is not that peer's host,
    [ProcessFinalCall] returns unauthorized-source and appends one
    unverified [S4_TO_S2] row; the router, the [dids] table and the
    [call_records] table are untouched: the call stays live, its DID in use,
    and no statistics are recorded. *)
Theorem ProcessFinalCall_unauthorized_frame
    (st : State) (callID ani dnis provider sourceIP c : string) (env : FinalEnv)
    (record : CallRecord) (p : ref Provider) :
  find_call (rtr st) (visit_calls env) callID ani dnis = Some (c, record) →
  providers (providerMgr (rtr st)) !! CallFinal record = Some p →
  AuthType (deref p) = "ip" ∨ AuthType (deref p) = "both" →
  Host (deref p) ≠ before_colon sourceIP →
  ProcessFinalCall st callID ani dnis provider sourceIP env
  = (mkState (rtr st)
       (mkDB (dids (store st)) (call_records (store st))
          (call_verifications (store st)
           ++ [mkVerification c "S4_TO_S2" ani dnis ani dnis sourceIP false])),
     Some (ErrUnauthorizedSourceIP sourceIP)).
Proof.
  intros Hfind Hp Hauth Hhost. unfold ProcessFinalCall, GetProvider.
  rewrite Hfind, Hp.
  assert (Hip : verifyProviderIP (deref p) sourceIP
                = Some (ErrIPMismatch (Host (deref p)) (before_colon sourceIP))).
  { unfold verifyProviderIP. rewrite (bool_decide_eq_true_2 _ Hhost).
    destruct Hauth as [-> | ->]; reflexivity. }
  by rewrite Hip.
Qed.

Lemma ProcessFinalCall_unauthorized_frame_witness :
  (ProcessFinalCall after_leg1 "C1" "15550000001" "15550000002" "s4" "172.16.0.99:5060"
     (mkFinalEnv [("C1", record_C1)] 61000)).2
  = Some (ErrUnauthorizedSourceIP "172.16.0.99:5060").
Proof.
  rewrite (ProcessFinalCall_unauthorized_frame after_leg1
             "C1" "15550000001" "15550000002" "s4" "172.16.0.99:5060" "C1"
             (mkFinalEnv [("C1", record_C1)] 61000) record_C1 peer_s4);
    [done|by vm_compute|by vm_compute|by left|by vm_compute].
Defined.

(** X17: how leg 5 finds its call.  A call-id the ledger holds selects that
    record whatever ANI and DNIS say.  For a call-id the ledger does not
    hold, the call is looked up by original ANI and DNIS: leg 5 reports
    call-not-found exactly when no record of the ledger has both, and then
    leaves the state as it is. *)
Theorem ProcessFinalCall_correlation
    (st : State) (callID ani dnis provider sourceIP : string) (env : FinalEnv) :
  visits (activeCalls (rtr st)) (visit_calls env) →
  (∀ record, activeCalls (rtr st) !! callID = Some record →
             find_call (rtr st) (visit_calls env) callID ani dnis
             = Some (callID, record)) ∧
  (activeCalls (rtr st) !! callID = None →
   ((ProcessFinalCall st callID ani dnis provider sourceIP env).2 = Some ErrCallNotFound
    ↔ ∀ c record, activeCalls (rtr st) !! c = Some record →
                  ¬ (OriginalANI record = ani ∧ OriginalDNIS record = dnis)) ∧
   ((ProcessFinalCall st callID ani dnis provider sourceIP env).2 = Some ErrCallNotFound →
    (ProcessFinalCall st callID ani dnis provider sourceIP env).1 = st) ∧
   (∀ c record,
      find_call (rtr st) (visit_calls env) callID ani dnis = Some (c, record) →
      activeCalls (rtr st) !! c = Some record ∧
      OriginalANI record = ani ∧ OriginalDNIS record = dnis)).
Proof.
  intros Hvisit. split.
  - intros record Hcall. unfold find_call. by rewrite Hcall.
  - intros Hnone. unfold ProcessFinalCall, find_call. rewrite Hnone.
    destruct (list_find _ (visit_calls env)) as [[i [c record]]|] eqn:Hfind; simpl.
    + apply list_find_Some in Hfind as (Hi & [Hani Hdnis] & _). simpl in *.
      assert (Hcall : activeCalls (rtr st) !! c = Some record).
      { apply (visits_elem _ _ _ _ Hvisit). by eapply list_elem_of_lookup_2. }
      split; [|split].
      * split.
        -- destruct (GetProvider _ _); simpl; [|done].
           by destruct (verifyProviderIP _ _).
        -- intros Hno. exfalso. by apply (Hno c record).
      * destruct (GetProvider _ _); simpl; [|done].
        by destruct (verifyProviderIP _ _).
      * by intros c' record' [= <- <-].
    + apply list_find_None in Hfind. rewrite Forall_forall in Hfind.
      split; [|split]; [|done|done].
      split; [|done]. intros _ c record Hcall.
      apply (visits_elem _ _ _ _ Hvisit) in Hcall. by apply (Hfind _ Hcall).
Qed.

Lemma ProcessFinalCall_correlation_witness :
  find_call (rtr after_leg1) [("C1", record_C1)] "C7" "15550000001" "15550000002"
  = Some ("C1", record_C1) ∧
  (ProcessFinalCall after_leg1 "C7" "15550000009" "15550000002" "s4" "172.16.0.30"
     (mkFinalEnv [("C1", record_C1)] 61000)).2 = Some ErrCallNotFound.
Proof.
  assert (Hv : visits (activeCalls (rtr after_leg1)) [("C1", record_C1)])
    by (unfold visits; by vm_compute).
  split; [by vm_compute|].
  destruct (ProcessFinalCall_correlation after_leg1 "C7" "15550000009" "15550000002"
              "s4" "172.16.0.30" (mkFinalEnv [("C1", record_C1)] 61000) Hv)
    as [_ Hmiss].
  destruct Hmiss as [[_ Hback] _]; [by vm_compute|].
  apply Hback. intros c record Hcall [Hani _].
  apply (visits_elem _ _ _ _ Hv) in Hcall.
  apply list_elem_of_singleton in Hcall. injection Hcall as -> ->. done.
Defined.

Section young_calls.

Lemma cleanup_one_young now st c record :
  ¬ Sub now (StartTime record) > thirty_minutes →
  cleanup_one now st (c, record) = st.
Proof. intros Hyoung. unfold cleanup_one. by rewrite bool_decide_eq_false_2. Qed.

Lemma sweep_keeps_young now visit st c record :
  NoDup visit.*1 →
  (∀ c' record', (c', record') ∈ visit → activeCalls (rtr st) !! c' = Some record') →
  activeCalls (rtr st) !! c = Some record →
  ¬ Sub now (StartTime record) > thirty_minutes →
  activeCalls (rtr (cleanupStaleCalls st visit now)) !! c = Some record.
Proof.
  unfold cleanupStaleCalls. revert st.
  induction visit as [|[c0 record0] rest IH]; intros st Hnodup Hin Hcall Hyoung;
    cbn [foldl]; [done|].
  apply NoDup_cons in Hnodup as [Hc0 Hnodup].
  assert (Hcall0 : activeCalls (rtr st) !! c0 = Some record0) by (apply Hin; left).
  apply IH; [done| | |done].
  - intros c' record' Hin'. rewrite cleanup_one_other.
    + apply Hin. by right.
    + intros ->. apply Hc0. apply list_elem_of_fmap. by exists (c', record').
  - destruct (decide (c0 = c)) as [->|Hne].
    + assert (record0 = record) as -> by congruence.
      by rewrite cleanup_one_young.
    + by rewrite cleanup_one_other.
Qed.

End young_calls.

(** X18: the cleanup sweep takes stale calls only.  In a state reached from a
    new router (leg 1 on new call-ids), a call that started thirty minutes
    ago or less is still in the ledger after a sweep, under the same call-id
    and DID, with its DID in use for its destination, whatever stale calls
    the sweep removed around it. *)
Theorem sweep_keeps_young_calls
    (st0 st : State) (visit : list (string * CallRecord)) (now : Z)
    (c : string) (record : CallRecord) :
  initial st0 → reachable new_call_id st0 st →
  visits (activeCalls (rtr st)) visit →
  activeCalls (rtr st) !! c = Some record →
  Sub now (StartTime record) <= thirty_minutes →
  let swept := cleanupStaleCalls st visit now in
  activeCalls (rtr swept) !! c = Some record ∧
  didToCall (rtr swept) !! AssignedDID record = Some c ∧
  ∃ row, dids (store swept) !! AssignedDID record = Some row ∧ InUse row = true ∧
         Destination row = Some (OriginalDNIS record).
Proof.
  intros Hinit Hreach Hvisit Hcall Hyoung swept.
  assert (Hreach' : reachable new_call_id st0 swept).
  { by apply (reach_run new_call_id st0 st (Sweep visit now)). }
  pose proof (reachable_ok st0 swept Hinit Hreach') as [Hidx _ _].
  pose proof (reachable_masked st0 swept Hinit Hreach') as Hmask.
  assert (Hstill : activeCalls (rtr swept) !! c = Some record).
  { apply sweep_keeps_young; [| |done|lia].
    - unfold visits in Hvisit. rewrite Hvisit. apply NoDup_fst_map_to_list.
    - intros c' record'. by apply (visits_elem _ _ _ _ Hvisit). }
  split; [done|]. split.
  - apply Hidx. eauto.
  - by destruct (Hmask c record Hstill) as [Hm _].
Qed.

Lemma sweep_keeps_young_calls_witness :
  activeCalls (rtr (cleanupStaleCalls after_leg1 [("C1", record_C1)] 61000)) !! "C1"
  = Some record_C1.
Proof.
  destruct (sweep_keeps_young_calls seed_state after_leg1 [("C1", record_C1)] 61000
              "C1" record_C1 seed_state_initial
              (after_leg1_reachable new_call_id ltac:(by vm_compute)))
    as [H _].
  - unfold visits. by vm_compute.
  - by vm_compute.
  - by vm_compute.
  - exact H.
Defined.

(** X19: leg 1 followed by leg 5 gives ledger and pool back.  In a state
    reached from a new router, when leg 1 on a new call-id succeeds and leg 5
    for that call-id then succeeds, both ledger indices are what they were
    before leg 1, and so is the pool except that the DID used has its
    destination cleared (so the pool is identical when that DID had none). *)
Theorem leg1_then_leg5_restores
    (st0 st st1 st2 : State) (callID ani dnis inb : string) (env : IncomingEnv)
    (resp : CallResponse) (ani5 dnis5 provider5 sourceIP5 : string) (env5 : FinalEnv) :
  initial st0 → reachable new_call_id st0 st →
  activeCalls (rtr st) !! callID = None →
  ProcessIncomingCall st callID ani dnis inb env = (st1, Ok resp) →
  ProcessFinalCall st1 callID ani5 dnis5 provider5 sourceIP5 env5 = (st2, None) →
  activeCalls (rtr st2) = activeCalls (rtr st) ∧
  didToCall (rtr st2) = didToCall (rtr st) ∧
  ∃ row,
    dids (store st) !! DIDAssigned resp = Some row ∧ InUse row = false ∧
    dids (store st2)
    = <[DIDAssigned resp := mkDID (Number row) (ProviderName row) false None]>
        (dids (store st)) ∧
    (Destination row = None → dids (store st2) = dids (store st)).
Proof.
  intros Hinit Hreach Hnew Hleg1 Hleg5.
  pose proof (reachable_ok st0 st Hinit Hreach) as [Hidx Hrec Huse].
  unfold indices_agree in Hidx.
  pose proof (ProcessIncomingCall_shape st callID ani dnis inb env) as Hshape.
  rewrite Hleg1 in Hshape. simpl in Hshape.
  destruct Hshape as [(e & He & _)|(did & row & inter & final & Hresp & Hrow & Hfree
                                    & Hpool & Hcalls & Hindex & _)]; [done|].
  injection Hresp as ->. simpl.
  pose proof (ProcessFinalCall_shape st1 callID ani5 dnis5 provider5 sourceIP5 env5)
    as Hshape5.
  rewrite Hleg5 in Hshape5. simpl in Hshape5.
  destruct Hshape5 as [(e & He & _)|(c & record & p & _ & Hfind & _ & _ & Hpool5
                                     & Hcalls5 & Hindex5 & _)]; [done|].
  unfold find_call in Hfind. rewrite Hcalls, lookup_insert_eq in Hfind.
  injection Hfind as <- <-. simpl in *.
  assert (Hfresh : didToCall (rtr st) !! did = None).
  { destruct (didToCall (rtr st) !! did) as [c'|] eqn:Hc'; [|done].
    apply Hidx in Hc' as (record' & Hcall' & Hdid').
    destruct (Hrec _ _ Hcall') as [_ (row' & Hrow' & Huse')].
    rewrite Hdid' in Hrow'. congruence. }
  split; [|split].
  - rewrite Hcalls5, Hcalls, delete_insert_eq. by apply delete_id.
  - rewrite Hindex5, Hindex, delete_insert_eq. by apply delete_id.
  - exists row. split; [done|]. split; [done|].
    assert (Hst2 : dids (store st2)
                   = <[did := mkDID (Number row) (ProviderName row) false None]>
                       (dids (store st))).
    { rewrite Hpool5, Hpool, alter_alter_eq. by rewrite (alter_as_insert _ _ row). }
    split; [exact Hst2|].
    intros Hdest. rewrite Hst2. apply insert_id. rewrite Hrow. f_equal.
    destruct row; simpl in *. by subst.
Qed.

Lemma leg1_then_leg5_restores_witness :
  let st2 := (ProcessFinalCall after_leg1 "C1" "15550000001" "15550000002" "s4"
                "172.16.0.30" (mkFinalEnv [("C1", record_C1)] 61000)).1 in
  activeCalls (rtr st2) = activeCalls (rtr seed_state) ∧
  didToCall (rtr st2) = didToCall (rtr seed_state) ∧
  dids (store st2) = dids (store seed_state).
Proof.
  destruct (leg1_then_leg5_restores seed_state seed_state after_leg1
              (ProcessFinalCall after_leg1 "C1" "15550000001" "15550000002" "s4"
                 "172.16.0.30" (mkFinalEnv [("C1", record_C1)] 61000)).1
              "C1" "15550000001" "15550000002" "s1" seed_env
              (mkResponse "success" "18005550001" "endpoint-s3a" "15550000002"
                 "18005550001")
              "15550000001" "15550000002" "s4" "172.16.0.30"
              (mkFinalEnv [("C1", record_C1)] 61000)
              seed_state_initial (reach_start new_call_id seed_state))
    as (H1 & H2 & row & Hrow & _ & _ & H3); [by vm_compute..|].
  split; [exact H1|]. split; [exact H2|]. apply H3.
  simpl in Hrow. unfold seed_pool in Hrow. rewrite lookup_insert_eq in Hrow.
  by injection Hrow as <-.
Defined.

(** * Further properties of the peer registry and the route table *)

Lemma filter_ext_in {A} (P Q : A → Prop) `{∀ x, Decision (P x)} `{∀ x, Decision (Q x)}
    (l : list A) :
  (∀ x, x ∈ l → P x ↔ Q x) → filter P l = filter Q l.
Proof.
  induction l as [|x l IH]; intros Hext; [done|].
  rewrite !filter_cons.
  assert (Hl : filter P l = filter Q l).
  { apply IH. intros y Hy. apply Hext. by right. }
  destruct (decide (P x)) as [HP|HP], (decide (Q x)) as [HQ|HQ]; rewrite ?Hl; try done.
  - exfalso. apply HQ, Hext; [left|done].
  - exfalso. apply HP, Hext; [left|done].
Qed.

(** X20: how a route's peer text is resolved.  A text that is the name of a
    registered peer gives that peer alone, also when other peers have the
    text as their type.  A text that names no peer gives the peers whose type
    it is, which is what [ListProviders] gives for that type, in the order
    the registry was visited; with no such peer the lookup fails with
    no-providers-matching. *)
Theorem GetProvidersByName_name_then_type
    (m : Manager) (visit : list (string * ref Provider)) (namePattern : string) :
  visits (providers m) visit →
  (∀ p, providers m !! namePattern = Some p →
        GetProvidersByName m visit namePattern = Ok [p]) ∧
  (providers m !! namePattern = None → namePattern ≠ "" →
   match GetProvidersByName m visit namePattern with
   | Ok found =>
       found = ListProviders m visit namePattern ∧ found ≠ [] ∧
       ∀ p, p ∈ found ↔
            ∃ k, providers m !! k = Some p ∧ Type_ (deref p) = namePattern
   | Err e =>
       e = ErrNoProvidersMatching namePattern ∧
       ∀ k p, providers m !! k = Some p → Type_ (deref p) ≠ namePattern
   end).
Proof.
  intros Hvisit. split.
  - intros p Hp. unfold GetProvidersByName. by rewrite Hp.
  - intros Hnone Hne. unfold GetProvidersByName, ListProviders. rewrite Hnone.
    rewrite (bool_decide_eq_false_2 (namePattern = "")) by done.
    assert (Hsame : filter (λ kv : string * ref Provider,
                              bool_decide (kv.1 = namePattern)
                              || bool_decide (Type_ (deref kv.2) = namePattern)) visit
                    = filter (λ kv : string * ref Provider,
                                false || bool_decide (Type_ (deref kv.2) = namePattern))
                        visit).
    { apply filter_ext_in. intros [k p] Hin. simpl.
      apply (visits_elem _ _ _ _ Hvisit) in Hin.
      rewrite (bool_decide_eq_false_2 (k = namePattern)); [done|].
      intros ->. congruence. }
    rewrite Hsame.
    set (found := filter _ visit).
    assert (Hfound : ∀ p, p ∈ found.*2 ↔
              ∃ k, providers m !! k = Some p ∧ Type_ (deref p) = namePattern).
    { intros p. rewrite list_elem_of_fmap. split.
      - intros ([k p'] & -> & Hin). apply list_elem_of_filter in Hin as [Hty Hin].
        simpl in *. apply (visits_elem _ _ _ _ Hvisit) in Hin.
        apply Is_true_true, bool_decide_eq_true in Hty. eauto.
      - intros (k & Hk & Hty). exists (k, p). split; [done|].
        apply list_elem_of_filter. split.
        + simpl. by apply Is_true_true, bool_decide_eq_true.
        + by apply (visits_elem _ _ _ _ Hvisit). }
    case_bool_decide as Hlen.
    + split; [done|]. intros k p Hk Hty.
      assert (p ∈ found.*2) as Hin by (apply Hfound; eauto).
      destruct found; [by apply elem_of_nil in Hin|done].
    + split; [done|]. split; [|done].
      intros Hnil. apply Hlen. by destruct found.
Qed.

Lemma GetProvidersByName_name_then_type_witness :
  GetProvidersByName seed_manager seed_peers "s3a" = Ok [peer_s3a] ∧
  GetProvidersByName seed_manager seed_peers "intermediate" = Ok [peer_s3a; peer_s3b].
Proof.
  destruct (GetProvidersByName_name_then_type seed_manager seed_peers "s3a"
              seed_peers_visit) as [Hname _].
  split; [by apply Hname|]. by vm_compute.
Defined.

Section routes.

Lemma GetProvider_missing m name :
  match GetProvider m name with Ok _ => false | Err _ => true end = true
  ↔ providers m !! name = None.
Proof. unfold GetProvider. by destruct (providers m !! name). Qed.

(** The two ways [AddProviderRoute] ends. *)
Lemma AddProviderRoute_shape m route lastInsertId :
  (∃ e, (AddProviderRoute m route lastInsertId).2 = Some e ∧
        (AddProviderRoute m route lastInsertId).1 = m) ∨
  (AddProviderRoute m route lastInsertId).1
  = mkManager (providers m)
      (<[RouteName (if bool_decide (RouteID route = 0)
                    then set_RouteID route lastInsertId else route)
         := if bool_decide (RouteID route = 0)
            then set_RouteID route lastInsertId else route]> (providerRoutes m)).
Proof.
  unfold AddProviderRoute. destruct (list_find _ _) as [[i name]|]; simpl; eauto.
Qed.

End routes.

(** X21: a route is accepted only between registered peers.
    [AddProviderRoute] succeeds exactly when the inbound, the intermediate
    and the final peer of the route are all in the registry.  Otherwise it
    reports the first of the three, in that order, that is missing, and
    leaves registry and route table as they were.  On success the registry is
    unchanged and the route is stored under its name, every other route
    staying as it was. *)
Theorem AddProviderRoute_needs_registered_peers
    (m : Manager) (route : ProviderRoute) (lastInsertId : Z) :
  let out := AddProviderRoute m route lastInsertId in
  (out.2 = None ↔
   is_Some (providers m !! InboundProvider route) ∧
   is_Some (providers m !! IntermediateProvider route) ∧
   is_Some (providers m !! FinalProvider route)) ∧
  (∀ e, out.2 = Some e →
     out.1 = m ∧
     ∃ name, e = ErrProviderNotFound name ∧ providers m !! name = None ∧
       (name = InboundProvider route ∨
        (name = IntermediateProvider route ∧
         is_Some (providers m !! InboundProvider route)) ∨
        (name = FinalProvider route ∧
         is_Some (providers m !! InboundProvider route) ∧
         is_Some (providers m !! IntermediateProvider route)))) ∧
  (out.2 = None →
   providers out.1 = providers m ∧
   (∃ stored, providerRoutes out.1 !! RouteName route = Some stored ∧
      stored = (if bool_decide (RouteID route = 0)
                then set_RouteID route lastInsertId else route)) ∧
   ∀ other, other ≠ RouteName route →
            providerRoutes out.1 !! other = providerRoutes m !! other).
Proof.
  unfold AddProviderRoute. cbn [list_find]. unfold GetProvider.
  destruct (providers m !! InboundProvider route) as [p1|] eqn:H1;
    destruct (providers m !! IntermediateProvider route) as [p2|] eqn:H2;
    destruct (providers m !! FinalProvider route) as [p3|] eqn:H3;
    repeat (rewrite decide_True by done);
    repeat (rewrite decide_False by done);
    simpl.
  1:{ split; [split; [eauto|done]|]. split; [done|]. intros _.
      split; [done|]. split.
      - eexists. split; [|reflexivity].
        case_bool_decide; simpl; by rewrite lookup_insert_eq.
      - intros other Hne. case_bool_decide; simpl; by rewrite lookup_insert_ne. }
  all: split; [split; [done|intros (? & ? & ?)];
               repeat match goal with H : is_Some None |- _ => destruct H; done end|].
  all: split; [|done].
  all: intros e [= <-]; split; [done|]; eexists; split; [reflexivity|].
  all: eauto 10.
Qed.

(** X22: a route that was added is found.  After [AddProviderRoute] has
    accepted an active route of priority zero or more, resolving its inbound
    peer succeeds, in whatever order the table is visited, with an active
    route for that inbound peer whose priority is at least that of the added
    route. *)
Theorem added_route_resolves
    (m : Manager) (route : ProviderRoute) (lastInsertId : Z)
    (visit : list (string * ProviderRoute)) :
  (AddProviderRoute m route lastInsertId).2 = None →
  RouteActive route = true → 0 <= RoutePriority route →
  visits (providerRoutes (AddProviderRoute m route lastInsertId).1) visit →
  ∃ r, GetRouteForInbound visit (InboundProvider route) = Ok r ∧
       eligible (InboundProvider route) r ∧
       RoutePriority route <= RoutePriority r.
Proof.
  intros Hadd Hactive Hprio Hvisit.
  destruct (AddProviderRoute_shape m route lastInsertId) as [(e & He & _)|Hok];
    [congruence|].
  set (stored := if bool_decide (RouteID route = 0)
                 then set_RouteID route lastInsertId else route) in *.
  assert (Hstored : InboundProvider stored = InboundProvider route ∧
                    RouteActive stored = RouteActive route ∧
                    RoutePriority stored = RoutePriority route ∧
                    RouteName stored = RouteName route).
  { unfold stored. by case_bool_decide. }
  destruct Hstored as (Hinb & Hact & Hpri & Hname).
  assert (Hin : (RouteName route, stored) ∈ visit).
  { apply (visits_elem _ _ _ _ Hvisit). rewrite Hok. simpl.
    rewrite Hname. apply lookup_insert_eq. }
  unfold GetRouteForInbound.
  pose proof (route_scan_spec visit (InboundProvider route) None (-1))
    as (Hle & Hall & Hres).
  assert (Hel : eligible (InboundProvider route) stored).
  { split; [done|congruence]. }
  specialize (Hall _ _ Hin Hel).
  destruct Hres as [Hres|(k & r & Hk & Helr & Hres)]; rewrite Hres in *; simpl in *.
  - lia.
  - exists r. split; [done|]. split; [done|]. lia.
Qed.

Lemma added_route_resolves_witness :
  ∃ r, GetRouteForInbound [("r", route_r); ("b", route_b)] "s1" = Ok r ∧
       eligible "s1" r ∧ RoutePriority route_b <= RoutePriority r.
Proof.
  apply (added_route_resolves seed_manager route_b 9 [("r", route_r); ("b", route_b)]).
  - by vm_compute.
  - done.
  - by vm_compute.
  - unfold visits. by vm_compute.
Defined.
